(** * MathJax Editor: the [Editor] class over a store of DOM trees

    The development follows the editor's main class method by method.  The
    DOM is a forest of element and text nodes carrying identities, so that
    the references the editor keeps ([$value], the cursor position, nodes
    handed in by the caller) alias the nodes they point to.  Calls into
    collaborators of the class (emitter, renderer, blinker, ...) are
    recorded in an effect log, newest entry first. *)

From Stdlib Require Import List String Ascii Bool Arith NArith ZArith Lia.
Import ListNotations.
Open Scope string_scope.
Open Scope nat_scope.
Open Scope list_scope.
Set Warnings "-register-all".

(* ===================================================================== *)
(** ** DOM trees *)
(* ===================================================================== *)

Module Dom.

Definition NodeId := nat.

(** An element keeps its tag name as the DOM reports it (case included),
    its attributes and its [childNodes]; a text node only has data. *)
Inductive Node : Type :=
| Element (id : NodeId) (tagName : string)
          (attributes : list (string * string)) (childNodes : list Node)
| Text (id : NodeId) (data : string).

(** The store: every live tree, attached or detached, by its root. *)
Definition Forest := list Node.

Definition nodeId (n : Node) : NodeId :=
  match n with Element i _ _ _ => i | Text i _ => i end.

(** [node.nodeType]: 1 for elements, 3 for text. *)
Definition nodeType (n : Node) : N :=
  match n with Element _ _ _ _ => 1%N | Text _ _ => 3%N end.

(** [node.tagName]; [None] stands for [undefined]. *)
Definition tagName (n : Node) : option string :=
  match n with Element _ t _ _ => Some t | Text _ _ => None end.

Definition childNodes (n : Node) : list Node :=
  match n with Element _ _ _ ks => ks | Text _ _ => [] end.

Definition setChildNodes (ks : list Node) (n : Node) : Node :=
  match n with Element i t a _ => Element i t a ks | Text _ _ => n end.

(** Identities of a subtree, root first. *)
Fixpoint ids (n : Node) : list NodeId :=
  match n with
  | Element i _ _ ks => i :: flat_map ids ks
  | Text i _ => [i]
  end.

Definition forestIds (f : Forest) : list NodeId := flat_map ids f.

(** Dereferencing an identity: the first node bearing it, in document
    order. *)
Fixpoint lookup (i : NodeId) (n : Node) : option Node :=
  if nodeId n =? i then Some n else
  match n with
  | Element _ _ _ ks =>
      (fix first (l : list Node) : option Node :=
         match l with
         | [] => None
         | k :: l' =>
             match lookup i k with Some r => Some r | None => first l' end
         end) ks
  | Text _ _ => None
  end.

Definition lookupF (i : NodeId) : Forest -> option Node :=
  fix first (l : list Node) : option Node :=
    match l with
    | [] => None
    | k :: l' =>
        match lookup i k with Some r => Some r | None => first l' end
    end.

(** [node.parentNode]: the first node that has [i] among its children. *)
Definition hasChild (i : NodeId) (n : Node) : bool :=
  existsb (fun k => nodeId k =? i) (childNodes n).

Fixpoint parentIn (i : NodeId) (n : Node) : option Node :=
  if hasChild i n then Some n else
  match n with
  | Element _ _ _ ks =>
      (fix first (l : list Node) : option Node :=
         match l with
         | [] => None
         | k :: l' =>
             match parentIn i k with Some r => Some r | None => first l' end
         end) ks
  | Text _ _ => None
  end.

Definition parentOf (i : NodeId) : Forest -> option Node :=
  fix first (l : list Node) : option Node :=
    match l with
    | [] => None
    | k :: l' =>
        match parentIn i k with Some r => Some r | None => first l' end
    end.

(** Removing the subtrees rooted at [i] from a list of siblings and from
    everything below them. *)
Fixpoint removeIn (i : NodeId) (n : Node) : Node :=
  match n with
  | Element j t a ks =>
      Element j t a
        ((fix go (l : list Node) : list Node :=
            match l with
            | [] => []
            | k :: l' =>
                if nodeId k =? i then go l' else removeIn i k :: go l'
            end) ks)
  | Text _ _ => n
  end.

Definition removeF (i : NodeId) : Forest -> Forest :=
  fix go (l : list Node) : list Node :=
    match l with
    | [] => []
    | k :: l' => if nodeId k =? i then go l' else removeIn i k :: go l'
    end.

(** Applying [g] to the node bearing [i]. *)
Fixpoint modify (i : NodeId) (g : Node -> Node) (n : Node) : Node :=
  if nodeId n =? i then g n else
  match n with
  | Element j t a ks => Element j t a (map (modify i g) ks)
  | Text _ _ => n
  end.

Definition modifyF (i : NodeId) (g : Node -> Node) (f : Forest) : Forest :=
  map (modify i g) f.

(** Placing [e] right after the sibling bearing [r]. *)
Fixpoint afterSibling (r : NodeId) (e : Node) (l : list Node)
  : option (list Node) :=
  match l with
  | [] => None
  | k :: l' =>
      if nodeId k =? r then Some (k :: e :: l')
      else option_map (cons k) (afterSibling r e l')
  end.

Fixpoint afterIn (r : NodeId) (e : Node) (n : Node) : option Node :=
  match n with
  | Element j t a ks =>
      if hasChild r n
      then option_map (Element j t a) (afterSibling r e ks)
      else
        option_map (Element j t a)
          ((fix first (l : list Node) : option (list Node) :=
              match l with
              | [] => None
              | k :: l' =>
                  match afterIn r e k with
                  | Some k' => Some (k' :: l')
                  | None => option_map (cons k) (first l')
                  end
              end) ks)
  | Text _ _ => None
  end.

Definition afterF (r : NodeId) (e : Node) : Forest -> option Forest :=
  fix first (l : list Node) : option (list Node) :=
    match l with
    | [] => None
    | k :: l' =>
        match afterIn r e k with
        | Some k' => Some (k' :: l')
        | None => option_map (cons k) (first l')
        end
    end.

(** Structure without identities: what a serialisation of the tree, or a
    parse of a markup string, carries. *)
Inductive Shape : Type :=
| SElement (tagName : string) (attributes : list (string * string))
           (childNodes : list Shape)
| SText (data : string).

Fixpoint shape (n : Node) : Shape :=
  match n with
  | Element _ t a ks => SElement t a (map shape ks)
  | Text _ d => SText d
  end.

(** Fresh identities lie above every identity in use. *)
Definition fresh (f : Forest) : NodeId := S (list_max (forestIds f)).

(** Building a tree of the given shape from identity [k] on; returns the
    next unused identity. *)
Fixpoint build (k : NodeId) (s : Shape) : Node * NodeId :=
  match s with
  | SElement t a cs =>
      let '(ks, k') :=
        (fix all (k0 : NodeId) (l : list Shape) : list Node * NodeId :=
           match l with
           | [] => ([], k0)
           | c :: l' =>
               let '(n, k1) := build k0 c in
               let '(ns, k2) := all k1 l' in
               (n :: ns, k2)
           end) (S k) cs in
      (Element k t a ks, k')
  | SText d => (Text k d, S k)
  end.

Definition buildAll : NodeId -> list Shape -> list Node * NodeId :=
  fix all (k0 : NodeId) (l : list Shape) : list Node * NodeId :=
    match l with
    | [] => ([], k0)
    | c :: l' =>
        let '(n, k1) := build k0 c in
        let '(ns, k2) := all k1 l' in
        (n :: ns, k2)
    end.

End Dom.

Import Dom.

(* ===================================================================== *)
(** ** JavaScript values the class handles *)
(* ===================================================================== *)

(** The text of the hidden input is a JavaScript string: a sequence of
    UTF-16 code units. *)
Definition jsstring := list N.

(** WhiteSpace and LineTerminator code points of ECMAScript, the ones
    [String.prototype.trim] strips. *)
Definition isWhiteSpace (c : N) : bool :=
  ((9 <=? c) && (c <=? 13) || (c =? 32) || (c =? 160) || (c =? 5760)
   || (8192 <=? c) && (c <=? 8202) || (c =? 8232) || (c =? 8233)
   || (c =? 8239) || (c =? 8287) || (c =? 12288) || (c =? 65279))%N.

Fixpoint trimStart (s : jsstring) : jsstring :=
  match s with
  | c :: s' => if isWhiteSpace c then trimStart s' else s
  | [] => []
  end.

Definition trimEnd (s : jsstring) : jsstring := rev (trimStart (rev s)).

Definition trim (s : jsstring) : jsstring := trimEnd (trimStart s).

(** [toLowerCase] on tag names; letters outside A-Z are left as they are. *)
Definition lowerAscii (c : ascii) : ascii :=
  let n := nat_of_ascii c in
  if (65 <=? n) && (n <=? 90) then ascii_of_nat (n + 32) else c.

Fixpoint toLowerCase (s : string) : string :=
  match s with
  | EmptyString => EmptyString
  | String c s' => String (lowerAscii c) (toLowerCase s')
  end.

Inductive Error : Type :=
| TypeError
| DOMException
| MathjaxEditorError (message : string).

(** What a caller can hand to [setValue]: a string, a DOM node, [null] or
    [undefined], or any other value (one without a [nodeType]). *)
Inductive Value : Type :=
| VString (s : string)
| VNode (ref : NodeId)
| VNull
| VOther.

(* ===================================================================== *)
(** ** The editor's state *)
(* ===================================================================== *)

(** The serialisation [outerHTML] of a tree is represented by the structure
    it writes down. *)
Definition Markup := Shape.

Definition outerHTML (n : Node) : Markup := shape n.

(** Modelled from the spec: [toDisplay] (utils/to-display) is not in the
    sources; it turns the tree into the renderer's markup, with a
    placeholder for an empty document.  Its result is kept as the pair of
    its arguments. *)
Record Display : Type := toDisplay {
  displayed : Shape;
  placeholderText : string
}.

Inductive Event : Type :=
| EvFocus
| EvBlur
| EvUpdate (value : Markup)
| EvInput (input : jsstring).

Inductive Continuation : Type :=
| ScrollToCaretK.

(** A renderer round-trip in flight: [elementJax.setValue(..).update()]
    has been called and its promise has not resolved. *)
Record Job : Type := mkJob {
  ticket : nat;
  submitted : Display;
  thens : list Continuation
}.

Inductive Promise : Type :=
| Settled
| Pending (t : nat).

Inductive Target : Type := TDisplay | TInput | TWindow.

Inductive Handler : Type :=
| HandleClick | HandleInput | HandleKeydown | HandleFocus | HandleBlur
| HandleMouseenter | HandleMouseleave | HandleResize.

Record Listener : Type := listenerOf {
  target : Target;
  eventType : string;
  handler : Handler
}.

(** Modelled from the spec: the [Blinker] class is not in the sources; the
    spec gives its states. *)
Inductive Blinker : Type := Blinking | FrozenVisible | Stopped.

Definition timersPending (b : Blinker) : bool :=
  match b with Stopped => false | _ => true end.

Inductive Effect : Type :=
| Emit (e : Event)
| InputFocus
| ElValue (value : Markup)
| WrapperFix
| WrapperRelease
| TreeSetValue (root : NodeId)
| TreeUpdate
| JaxSetValueUpdate (t : nat) (d : Display)
| RenderedUpdate
| CursorUpdate
| ScrollTo
| ClassFocused (on : bool)
| CaretShown (on : bool)
| EmitterOn (type : string).

Record Options : Type := mkOptions {
  placeholder : string;
  allowNewlines : bool;
  readonly : bool
}.

Record Editor : Type := mkEditor {
  store : Forest;               (* every DOM tree alive *)
  value : NodeId;               (* this.$value *)
  position : option NodeId;     (* the cursor's position; None is null *)
  focused : bool;
  inputActive : bool;           (* this.$input is the active element *)
  mouseAtDisplay : bool;
  elementJax : bool;            (* this.elementJax is set *)
  options : Options;
  inputValue : jsstring;        (* this.$input.value *)
  listeners : list Listener;
  attached : bool;              (* this.$container is in the document *)
  blinker : Blinker;
  resizeArmed : bool;           (* the debounced handleResize is waiting *)
  pending : list Job;
  nextTicket : nat;
  display : option Display;     (* what the renderer last typeset *)
  geometry : option Display;    (* what the geometry map was built from *)
  log : list Effect
}.

Definition set_store (x : Forest) (s : Editor) : Editor :=
  mkEditor x (value s) (position s) (focused s) (inputActive s)
    (mouseAtDisplay s) (elementJax s) (options s) (inputValue s) (listeners s)
    (attached s) (blinker s) (resizeArmed s) (pending s) (nextTicket s)
    (display s) (geometry s) (log s).

Definition set_value (x : NodeId) (s : Editor) : Editor :=
  mkEditor (store s) x (position s) (focused s) (inputActive s)
    (mouseAtDisplay s) (elementJax s) (options s) (inputValue s) (listeners s)
    (attached s) (blinker s) (resizeArmed s) (pending s) (nextTicket s)
    (display s) (geometry s) (log s).

Definition set_position (x : option NodeId) (s : Editor) : Editor :=
  mkEditor (store s) (value s) x (focused s) (inputActive s)
    (mouseAtDisplay s) (elementJax s) (options s) (inputValue s) (listeners s)
    (attached s) (blinker s) (resizeArmed s) (pending s) (nextTicket s)
    (display s) (geometry s) (log s).

Definition set_focused (x : bool) (s : Editor) : Editor :=
  mkEditor (store s) (value s) (position s) x (inputActive s)
    (mouseAtDisplay s) (elementJax s) (options s) (inputValue s) (listeners s)
    (attached s) (blinker s) (resizeArmed s) (pending s) (nextTicket s)
    (display s) (geometry s) (log s).

Definition set_inputActive (x : bool) (s : Editor) : Editor :=
  mkEditor (store s) (value s) (position s) (focused s) x (mouseAtDisplay s)
    (elementJax s) (options s) (inputValue s) (listeners s) (attached s)
    (blinker s) (resizeArmed s) (pending s) (nextTicket s) (display s)
    (geometry s) (log s).

Definition set_mouseAtDisplay (x : bool) (s : Editor) : Editor :=
  mkEditor (store s) (value s) (position s) (focused s) (inputActive s) x
    (elementJax s) (options s) (inputValue s) (listeners s) (attached s)
    (blinker s) (resizeArmed s) (pending s) (nextTicket s) (display s)
    (geometry s) (log s).

Definition set_elementJax (x : bool) (s : Editor) : Editor :=
  mkEditor (store s) (value s) (position s) (focused s) (inputActive s)
    (mouseAtDisplay s) x (options s) (inputValue s) (listeners s) (attached s)
    (blinker s) (resizeArmed s) (pending s) (nextTicket s) (display s)
    (geometry s) (log s).

Definition set_inputValue (x : jsstring) (s : Editor) : Editor :=
  mkEditor (store s) (value s) (position s) (focused s) (inputActive s)
    (mouseAtDisplay s) (elementJax s) (options s) x (listeners s) (attached s)
    (blinker s) (resizeArmed s) (pending s) (nextTicket s) (display s)
    (geometry s) (log s).

Definition set_listeners (x : list Listener) (s : Editor) : Editor :=
  mkEditor (store s) (value s) (position s) (focused s) (inputActive s)
    (mouseAtDisplay s) (elementJax s) (options s) (inputValue s) x
    (attached s) (blinker s) (resizeArmed s) (pending s) (nextTicket s)
    (display s) (geometry s) (log s).

Definition set_attached (x : bool) (s : Editor) : Editor :=
  mkEditor (store s) (value s) (position s) (focused s) (inputActive s)
    (mouseAtDisplay s) (elementJax s) (options s) (inputValue s) (listeners s)
    x (blinker s) (resizeArmed s) (pending s) (nextTicket s) (display s)
    (geometry s) (log s).

Definition set_blinker (x : Blinker) (s : Editor) : Editor :=
  mkEditor (store s) (value s) (position s) (focused s) (inputActive s)
    (mouseAtDisplay s) (elementJax s) (options s) (inputValue s) (listeners s)
    (attached s) x (resizeArmed s) (pending s) (nextTicket s) (display s)
    (geometry s) (log s).

Definition set_resizeArmed (x : bool) (s : Editor) : Editor :=
  mkEditor (store s) (value s) (position s) (focused s) (inputActive s)
    (mouseAtDisplay s) (elementJax s) (options s) (inputValue s) (listeners s)
    (attached s) (blinker s) x (pending s) (nextTicket s) (display s)
    (geometry s) (log s).

Definition set_pending (x : list Job) (s : Editor) : Editor :=
  mkEditor (store s) (value s) (position s) (focused s) (inputActive s)
    (mouseAtDisplay s) (elementJax s) (options s) (inputValue s) (listeners s)
    (attached s) (blinker s) (resizeArmed s) x (nextTicket s) (display s)
    (geometry s) (log s).

Definition set_nextTicket (x : nat) (s : Editor) : Editor :=
  mkEditor (store s) (value s) (position s) (focused s) (inputActive s)
    (mouseAtDisplay s) (elementJax s) (options s) (inputValue s) (listeners s)
    (attached s) (blinker s) (resizeArmed s) (pending s) x (display s)
    (geometry s) (log s).

Definition set_display (x : option Display) (s : Editor) : Editor :=
  mkEditor (store s) (value s) (position s) (focused s) (inputActive s)
    (mouseAtDisplay s) (elementJax s) (options s) (inputValue s) (listeners s)
    (attached s) (blinker s) (resizeArmed s) (pending s) (nextTicket s) x
    (geometry s) (log s).

Definition set_geometry (x : option Display) (s : Editor) : Editor :=
  mkEditor (store s) (value s) (position s) (focused s) (inputActive s)
    (mouseAtDisplay s) (elementJax s) (options s) (inputValue s) (listeners s)
    (attached s) (blinker s) (resizeArmed s) (pending s) (nextTicket s)
    (display s) x (log s).

Definition set_log (x : list Effect) (s : Editor) : Editor :=
  mkEditor (store s) (value s) (position s) (focused s) (inputActive s)
    (mouseAtDisplay s) (elementJax s) (options s) (inputValue s) (listeners s)
    (attached s) (blinker s) (resizeArmed s) (pending s) (nextTicket s)
    (display s) (geometry s) x.

(** The document tree: the node [this.$value] refers to. *)
Definition document (s : Editor) : option Node := lookupF (value s) (store s).

(* ===================================================================== *)
(** ** Computations: state, and exceptions that keep the state reached *)
(* ===================================================================== *)

Inductive Outcome (A : Type) : Type :=
| Ret (a : A) (s : Editor)
| Throw (e : Error) (s : Editor).
Arguments Ret {A} a s.
Arguments Throw {A} e s.

Definition M (A : Type) : Type := Editor -> Outcome A.

Definition ret {A} (a : A) : M A := fun s => Ret a s.

Definition bind {A B} (c : M A) (k : A -> M B) : M B :=
  fun s => match c s with
           | Ret a s' => k a s'
           | Throw e s' => Throw e s'
           end.

Definition throw {A} (e : Error) : M A := fun s => Throw e s.

Definition gets {A} (f : Editor -> A) : M A := fun s => Ret (f s) s.

Definition modify_ (f : Editor -> Editor) : M unit := fun s => Ret tt (f s).

Definition final {A} (o : Outcome A) : Editor :=
  match o with Ret _ s => s | Throw _ s => s end.


Declare Scope editor_scope.
Delimit Scope editor_scope with editor.
Notation "x <- c1 ;; c2" := (bind c1 (fun x => c2))
  (at level 61, c1 at next level, right associativity) : editor_scope.
Notation "c1 ;; c2" := (bind c1 (fun _ => c2))
  (at level 61, right associativity) : editor_scope.
Open Scope editor_scope.

Definition effect (e : Effect) : M unit :=
  modify_ (fun s => set_log (e :: log s) s).

(** Following a reference; an identity without a node cannot arise from
    JavaScript, and is reported like a property access on [undefined]. *)
Definition deref (i : NodeId) : M Node :=
  s <- gets store ;;
  match lookupF i s with
  | Some n => ret n
  | None => throw TypeError
  end.

(* ===================================================================== *)
(** ** Imported helpers *)
(* ===================================================================== *)

(** Helpers the class imports whose code is not part of the sources and
    about which the specification is silent are left open. *)
Class Imports : Type := {
  (** utils/is-editable, applied to the cursor's position *)
  isEditable : Forest -> option NodeId -> bool;
  (** utils/to-dom: the parse of a markup string, [None] for [null] *)
  toDom : string -> option Shape;
  (** the structural rule: is this container a slot its parent requires *)
  requiredSlot : Forest -> NodeId -> bool;
  (** where [cursor.moveLeft()], [cursor.moveRight()] and
      [cursorMover.click(x, y)] put the cursor *)
  moveLeft : Editor -> option NodeId;
  moveRight : Editor -> option NodeId;
  click : Z -> Z -> Editor -> option NodeId;
  (** the converter [mml2Tex] *)
  mml2Tex : Node -> string
}.

Section Helpers.
Context {imports : Imports}.

(** Modelled from the spec: [lcc] (utils/lcc) is not in the sources; the
    class branches on node kind through it by comparing tag names in lower
    case.  With one argument it yields the lower-cased name. *)
Definition lcc (name : option string) : M string :=
  match name with
  | Some t => ret (toLowerCase t)
  | None => throw TypeError
  end.

(** [lcc(name, expected)] *)
Definition lccIs (name : option string) (expected : string) : M bool :=
  l <- lcc name ;;
  ret (String.eqb l expected).

(** Modelled from the spec: [createElement] (utils/create-element) is not
    in the sources; it makes a detached element with the given attributes. *)
Definition createElement (tag : string) (attrs : list (string * string))
  : M NodeId :=
  s <- gets store ;;
  let k := fresh s in
  modify_ (set_store (s ++ [Element k tag attrs []])) ;;
  ret k.

(** DOM insertion moves the node: it leaves its old place first.  A node
    cannot go below itself, and only elements take children. *)
Definition insertInto (place : Node -> list Node -> list Node)
  (parent el : NodeId) : M unit :=
  e <- deref el ;;
  p <- deref parent ;;
  match p with
  | Text _ _ => throw DOMException
  | Element _ _ _ _ =>
      if existsb (Nat.eqb parent) (ids e) then throw DOMException
      else
        modify_ (fun s =>
          set_store
            (modifyF parent
               (fun n => setChildNodes (place e (childNodes n)) n)
               (removeF el (store s))) s)
  end.

(** Modelled from the spec: [prependElement] (utils/prepend-element) is
    not in the sources; the new node becomes the first child. *)
Definition prependElement (parent el : NodeId) : M unit :=
  insertInto (fun e ks => e :: ks) parent el.

(** Modelled from the spec: [appendElement] (utils/append-element) is not
    in the sources; the new node becomes the last child. *)
Definition appendElement (parent el : NodeId) : M unit :=
  insertInto (fun e ks => ks ++ [e]) parent el.

(** Modelled from the spec: [appendElementAfter]
    (utils/append-element-after) is not in the sources; the new node is
    placed immediately after the reference node, among its siblings.  A
    reference node without a parent has no siblings to be placed among. *)
Definition appendElementAfter (ref el : NodeId) : M unit :=
  s <- gets store ;;
  match parentOf ref s with
  | None => throw TypeError
  | Some _ =>
      e <- deref el ;;
      if el =? ref then ret tt
      else if existsb (Nat.eqb ref) (ids e) then throw DOMException
      else
        match afterF ref e (removeF el s) with
        | Some s' => modify_ (set_store s')
        | None => throw TypeError
        end
  end.

(** Modelled from the spec: [getCleanCopy] (utils/get-clean-copy) is not
    in the sources; it returns a deep, independent copy: a new detached
    tree of the same structure. *)
Definition getCleanCopy (ref : NodeId) : M NodeId :=
  n <- deref ref ;;
  s <- gets store ;;
  let k := fresh s in
  modify_ (set_store (s ++ [fst (build k (shape n))])) ;;
  ret k.

(** Modelled from the spec: [listenElement] and [unlistenElement]
    (utils/listen-element, utils/unlisten-element) are not in the sources;
    they bind and unbind events: the registrations are kept in order, and
    unbinding removes the registration of that handler for that event on
    that target. *)
Definition listenElement (t : Target) (type : string) (h : Handler) : M unit :=
  modify_ (fun s => set_listeners (listeners s ++ [listenerOf t type h]) s).

Definition sameTarget (a b : Target) : bool :=
  match a, b with
  | TDisplay, TDisplay | TInput, TInput | TWindow, TWindow => true
  | _, _ => false
  end.

Definition sameHandler (a b : Handler) : bool :=
  match a, b with
  | HandleClick, HandleClick | HandleInput, HandleInput
  | HandleKeydown, HandleKeydown | HandleFocus, HandleFocus
  | HandleBlur, HandleBlur | HandleMouseenter, HandleMouseenter
  | HandleMouseleave, HandleMouseleave | HandleResize, HandleResize => true
  | _, _ => false
  end.

Definition registeredAs (t : Target) (type : string) (h : Handler)
  (l : Listener) : bool :=
  sameTarget (target l) t && String.eqb (eventType l) type
  && sameHandler (handler l) h.

Definition unlistenElement (t : Target) (type : string) (h : Handler)
  : M unit :=
  modify_ (fun s =>
    set_listeners (filter (fun l => negb (registeredAs t type h l))
                          (listeners s)) s).

(** Modelled from the spec: the [Cursor] class is not in the sources; its
    [setPosition] stores the position without validation and its
    [getPosition] returns it. *)
Definition getPosition : M (option NodeId) := gets position.

Definition setPosition (p : option NodeId) : M unit :=
  modify_ (set_position p).

(** Modelled from the spec: the [EventEmitter] class is not in the
    sources; [emitter.emit(type, ...)] is recorded in the effect log. *)
Definition emit (e : Event) : M unit := effect (Emit e).

End Helpers.

(* ===================================================================== *)
(** ** Structural edit operations *)
(* ===================================================================== *)

Section StructuralEdits.
Context {imports : Imports}.

(** The ancestors of [i] inside [n], nearest first. *)
Fixpoint ancestorsIn (i : NodeId) (n : Node) : option (list Node) :=
  if hasChild i n then Some [n] else
  match n with
  | Element _ _ _ ks =>
      option_map (fun a => a ++ [n])
        ((fix first (l : list Node) : option (list Node) :=
            match l with
            | [] => None
            | k :: l' =>
                match ancestorsIn i k with
                | Some a => Some a
                | None => first l'
                end
            end) ks)
  | Text _ _ => None
  end.

Definition ancestorsOf (i : NodeId) : Forest -> option (list Node) :=
  fix first (l : list Node) : option (list Node) :=
    match l with
    | [] => None
    | k :: l' =>
        match ancestorsIn i k with
        | Some a => Some a
        | None => first l'
        end
    end.

Fixpoint previousSibling (i : NodeId) (l : list Node) : option Node :=
  match l with
  | [] => None
  | a :: l' =>
      if nodeId a =? i then None
      else match l' with
           | b :: _ => if nodeId b =? i then Some a else previousSibling i l'
           | [] => None
           end
  end.

Fixpoint nextSibling (i : NodeId) (l : list Node) : option Node :=
  match l with
  | [] => None
  | a :: l' => if nodeId a =? i then hd_error l' else nextSibling i l'
  end.

(** Cascading removal: a container that the removal would empty goes as
    well, unless it is the root or a slot its parent requires.  Returns
    the topmost node to go and the ancestors that stay. *)
Fixpoint cascade (f : Forest) (root : NodeId) (victim : Node)
  (ancestors : list Node) : Node * list Node :=
  match ancestors with
  | q :: up =>
      if (List.length (childNodes q) =? 1) && negb (nodeId q =? root)
         && negb (requiredSlot f (nodeId q))
      then cascade f root q up
      else (victim, ancestors)
  | [] => (victim, [])
  end.

(** The element immediately before the caret, the one a backspace
    removes: the node the position refers to, with its ancestors, when it
    lies in the document below the root. *)
Definition elementBefore (root : NodeId) (pos : option NodeId) (f : Forest)
  : option (Node * list Node) :=
  match pos with
  | None => None
  | Some p =>
      match lookupF root f with
      | None => None
      | Some doc =>
          match lookup p doc, ancestorsIn p doc with
          | Some target, Some anc => Some (target, anc)
          | _, _ => None
          end
      end
  end.

(** The element immediately after the caret, the one a delete removes:
    the first child of the root at the start of the document, else the
    next sibling of the position's node. *)
Definition elementAfter (root : NodeId) (pos : option NodeId) (f : Forest)
  : option Node :=
  match lookupF root f with
  | None => None
  | Some doc =>
      match pos with
      | None => hd_error (childNodes doc)
      | Some p =>
          match ancestorsIn p doc with
          | Some (q :: _) => nextSibling p (childNodes q)
          | _ => None
          end
      end
  end.

(** Modelled from the spec: [applyBackspace] (utils/apply-backspace) is
    not in the sources.  It removes the node the position refers to,
    cascading through emptied containers, and returns the position of what
    is then before the caret: the previous sibling of what was removed,
    else the enclosing container, else none at the start of the document.
    With nothing to remove it returns the tree and the position as given. *)
Definition applyBackspace (root : NodeId) (pos : option NodeId) (f : Forest)
  : Forest * option NodeId :=
  match elementBefore root pos f with
  | None => (f, pos)
  | Some (target, anc) =>
      let '(victim, up) := cascade f root target anc in
      let before :=
        match up with
        | q :: _ =>
            match previousSibling (nodeId victim) (childNodes q) with
            | Some b => Some (nodeId b)
            | None => if nodeId q =? root then None else Some (nodeId q)
            end
        | [] => None
        end in
      (removeF (nodeId victim) f, before)
  end.

(** Modelled from the spec: [applyDelete] (utils/apply-delete) is not in
    the sources.  The mirror of [applyBackspace]: it removes the element
    after the caret.  The node before the caret stays, so its container is
    never emptied and the position is returned as given. *)
Definition applyDelete (root : NodeId) (pos : option NodeId) (f : Forest)
  : Forest * option NodeId :=
  match elementAfter root pos f with
  | None => (f, pos)
  | Some victim => (removeF (nodeId victim) f, pos)
  end.

End StructuralEdits.

(* ===================================================================== *)
(** ** The Editor class *)
(* ===================================================================== *)

Section EditorClass.
Context {imports : Imports}.

(** The options object of the constructor; [None] is a missing key. *)
Record RawOptions : Type := mkRawOptions {
  rawPlaceholder : option string;
  rawAllowNewlines : option bool;
  rawReadonly : option bool
}.

(** [constructor(selectors, options = {})].  The wrapper element and the
    initial, empty [math] element inside it are the first two nodes. *)
Definition constructor (o : RawOptions) : Editor :=
  let emptyState :=
    mkEditor [Element 0 "div" [] [Element 1 "math" [] []]] 1 None false false
      false false
      (mkOptions
         (match rawPlaceholder o with
          | Some EmptyString | None => "Start typing..."
          | Some p => p
          end)
         (match rawAllowNewlines o with Some b => b | None => false end)
         (match rawReadonly o with Some b => b | None => false end))
      [] [] true Blinking false [] 0 None None
      [CaretShown false] in
  final
    ((listenElement TDisplay "click" HandleClick ;;
      listenElement TInput "keyup" HandleInput ;;
      listenElement TInput "keydown" HandleInput ;;
      listenElement TInput "keydown" HandleKeydown ;;
      listenElement TInput "focus" HandleFocus ;;
      listenElement TInput "blur" HandleBlur ;;
      listenElement TDisplay "mouseenter" HandleMouseenter ;;
      listenElement TDisplay "mouseleave" HandleMouseleave ;;
      listenElement TDisplay "scroll" HandleResize ;;
      listenElement TWindow "resize" HandleResize) emptyState).

(** [handleFocus()] *)
Definition handleFocus : M unit :=
  emit EvFocus ;;
  modify_ (set_focused true) ;;
  effect (ClassFocused true) ;;
  effect (CaretShown true).

(** The focus event on the input: the registrations of [handleFocus] for
    it run in order.  [handleFocus] is the only handler the class binds
    to that event (line 85), and it does not throw. *)
Fixpoint focusEvent (ls : list Listener) : M unit :=
  match ls with
  | [] => ret tt
  | l :: ls' =>
      if registeredAs TInput "focus" HandleFocus l
      then handleFocus ;; focusEvent ls'
      else focusEvent ls'
  end.

(** [focus()], that is [this.$input.focus()].  An input that is in the
    document and is not the active element becomes the active element,
    and the browser dispatches the focus event before the call returns:
    the listeners bound to it run inside the call.  On an input that has
    the focus already, or that has left the document with its container,
    the call does nothing. *)
Definition focus : M unit :=
  effect InputFocus ;;
  there <- gets attached ;;
  active <- gets inputActive ;;
  if there && negb active
  then
    modify_ (set_inputActive true) ;;
    ls <- gets listeners ;;
    focusEvent ls
  else ret tt.

(** [scrollToCaret()] *)
Definition scrollToCaret : M unit := effect ScrollTo.

Definition run (k : Continuation) : M unit :=
  match k with ScrollToCaretK => scrollToCaret end.

Fixpoint runAll (ks : list Continuation) : M unit :=
  match ks with
  | [] => ret tt
  | k :: ks' => run k ;; runAll ks'
  end.

(** [promise.then(k)]: when the promise is settled [k] runs at the end of
    the current turn, which is where the calls below stand; else it runs
    when the round-trip the promise waits for resolves. *)
Definition then_ (p : Promise) (k : Continuation) : M unit :=
  match p with
  | Settled => run k
  | Pending t =>
      modify_ (fun s =>
        set_pending
          (map (fun j => if ticket j =? t
                         then mkJob (ticket j) (submitted j) (thens j ++ [k])
                         else j) (pending s)) s)
  end.

(** [getValue()] *)
Definition getValue : M NodeId :=
  v <- gets value ;;
  getCleanCopy v.

(** [elementJax.setValue(d).update()]: hands the markup to the renderer
    and returns the ticket of the round-trip. *)
Definition jaxSetValueUpdate (d : Display) : M nat :=
  t <- gets nextTicket ;;
  modify_ (fun s =>
    set_nextTicket (S t) (set_pending (pending s ++ [mkJob t d []]) s)) ;;
  effect (JaxSetValueUpdate t d) ;;
  ret t.

(** [update()], up to the renderer's promise. *)
Definition update : M Promise :=
  jax <- gets elementJax ;;
  if negb jax then ret Settled
  else
    c <- getValue ;;
    copy <- deref c ;;
    let value_ := outerHTML copy in
    effect WrapperFix ;;
    effect (ElValue value_) ;;
    emit (EvUpdate value_) ;;
    v <- gets value ;;
    effect (TreeSetValue v) ;;
    effect TreeUpdate ;;
    doc <- deref v ;;
    ph <- gets (fun s => placeholder (options s)) ;;
    t <- jaxSetValueUpdate (toDisplay (shape doc) ph) ;;
    ret (Pending t).

(** Modelled from the spec: [rendered.update()] (the [Rendered] class is
    not in the sources) rebuilds the geometry map from the rendered
    output. *)
Definition renderedUpdate : M unit :=
  modify_ (fun s => set_geometry (display s) s) ;;
  effect RenderedUpdate.

(** [cursor.update()] recomputes the caret rectangle. *)
Definition cursorUpdate : M unit := effect CursorUpdate.

(** The callback [update()] hands to the renderer's promise. *)
Definition updateThen (j : Job) : M unit :=
  effect WrapperRelease ;;
  renderedUpdate ;;
  cursorUpdate ;;
  runAll (thens j).

(** Modelled from the spec: the renderer is not in the sources.  When it
    finishes the round-trip with ticket [t] the promise resolves and the
    callback of [update()] runs.  Of the results in flight the renderer
    honours the last submitted one only (section 4.2): the output for
    what the round-trip submitted is in the display when no later
    round-trip has been submitted, and the result of a superseded
    round-trip is discarded, the display staying as it is. *)
Definition resolved (t : nat) : M unit :=
  js <- gets pending ;;
  match find (fun j => ticket j =? t) js with
  | None => ret tt
  | Some j =>
      modify_ (fun s =>
        set_display
          (if S t =? nextTicket s then Some (submitted j) else display s)
          (set_pending (filter (fun j' => negb (ticket j' =? t)) js) s)) ;;
      updateThen j
  end.

(** [getElementJax(this.$display).then(...)] of the constructor: the
    renderer has initialised. *)
Definition jaxReady : M unit :=
  modify_ (set_elementJax true) ;;
  _ <- update ;;
  ret tt.

(** [backspaceRemove()] *)
Definition backspaceRemove : M unit :=
  v <- gets value ;;
  p <- getPosition ;;
  s <- gets store ;;
  let '(s', p') := applyBackspace v p s in
  modify_ (set_store s') ;;
  setPosition p' ;;
  u <- update ;;
  then_ u ScrollToCaretK.

(** [deleteRemove()] *)
Definition deleteRemove : M unit :=
  v <- gets value ;;
  p <- getPosition ;;
  s <- gets store ;;
  let '(s', p') := applyDelete v p s in
  modify_ (set_store s') ;;
  setPosition p' ;;
  u <- update ;;
  then_ u ScrollToCaretK.

(** [insert($el, $moveTo = null)] *)
Definition insert (el : NodeId) (moveTo : option NodeId) : M unit :=
  position_ <- getPosition ;;
  ro <- gets (fun s => readonly (options s)) ;;
  s <- gets store ;;
  if ro && negb (isEditable s position_) then ret tt
  else
    match position_ with
    | None =>
        v <- gets value ;;
        prependElement v el
    | Some p =>
        n <- deref p ;;
        tag <- lcc (tagName n) ;;
        if String.eqb tag "mrow" then prependElement p el
        else if String.eqb tag "math" then
          v <- gets value ;;
          appendElement v el
        else appendElementAfter p el
    end ;;
    setPosition (Some (match moveTo with Some m => m | None => el end)) ;;
    focus ;;
    u <- update ;;
    then_ u ScrollToCaretK.

(** [insertNewline()] *)
Definition insertNewline : M unit :=
  allow <- gets (fun s => allowNewlines (options s)) ;;
  if negb allow then ret tt
  else
    position_ <- getPosition ;;
    elsewhere <-
      match position_ with
      | None => ret false
      | Some p =>
          n <- deref p ;;
          isMath <- lccIs (tagName n) "math" ;;
          if isMath then ret false
          else
            s <- gets store ;;
            match parentOf p s with
            | None => throw TypeError
            | Some q =>
                parentIsMath <- lccIs (tagName q) "math" ;;
                ret (negb parentIsMath)
            end
      end ;;
    if elsewhere then ret tt
    else
      mspace <- createElement "mspace" [("linebreak", "newline")] ;;
      insert mspace None.

(** [handleClick({ clientX, clientY })] *)
Definition handleClick (clientX clientY : Z) : M unit :=
  focus ;;
  modify_ (fun s => set_position (click clientX clientY s) s) ;;
  modify_ (set_blinker FrozenVisible).

(** [handleBlur()] *)
Definition handleBlur : M unit :=
  inside <- gets mouseAtDisplay ;;
  if inside then ret tt
  else
    emit EvBlur ;;
    modify_ (set_focused false) ;;
    effect (ClassFocused false) ;;
    effect (CaretShown false).

(** [handleInput()] *)
Definition handleInput : M unit :=
  raw <- gets inputValue ;;
  let input := trim raw in
  modify_ (set_inputValue []) ;;
  if negb (List.length input =? 0) then emit (EvInput input) else ret tt.

(** [handleMouseenter()] and [handleMouseleave()] *)
Definition handleMouseenter : M unit := modify_ (set_mouseAtDisplay true).

Definition handleMouseleave : M unit := modify_ (set_mouseAtDisplay false).

(** [handleKeydown(e)], on [e.which] *)
Definition handleKeydown (which : N) : M unit :=
  match which with
  | 8%N => backspaceRemove
  | 13%N => insertNewline
  | 37%N => modify_ (fun s => set_position (moveLeft s) s)
  | 39%N => modify_ (fun s => set_position (moveRight s) s)
  | 46%N => deleteRemove
  | _ => ret tt
  end.

(** [handleResize()], before the constructor wraps it in [debounce] *)
Definition handleResize : M unit :=
  _ <- update ;;
  ret tt.

(** [on(type, listener)] *)
Definition on (type : string) : M unit := effect (EmitterOn type).

(** [toString()] *)
Definition toString : M Markup :=
  c <- getValue ;;
  copy <- deref c ;;
  ret (outerHTML copy).

(** [toTex()] *)
Definition toTex : M string :=
  v <- gets value ;;
  n <- deref v ;;
  ret (mml2Tex n).

(** [setValue($value)] *)
Definition setValue (v : Value) : M unit :=
  v' <- match v with
        | VString str =>
            match toDom str with
            | None => ret VNull
            | Some parsed =>
                s <- gets store ;;
                let k := fresh s in
                modify_ (set_store (s ++ [fst (build k parsed)])) ;;
                ret (VNode k)
            end
        | _ => ret v
        end ;;
  node <- match v' with
          | VNode ref => n <- deref ref ;; ret (Some n)
          | VNull => throw TypeError
          | _ => ret None
          end ;;
  ok <- match node with
        | Some n =>
            if negb (nodeType n =? 1)%N then ret false
            else lccIs (tagName n) "math"
        | None => ret false
        end ;;
  if negb ok
  then throw (MathjaxEditorError
                "MathjaxEditor: the value must be an <math> element.")
  else
    match v' with
    | VNode ref => modify_ (set_value ref)
    | _ => ret tt
    end ;;
    setPosition None ;;
    _ <- update ;;
    ret tt.

(** [destroy()] *)
Definition destroy : M unit :=
  modify_ (set_blinker Stopped) ;;
  modify_ (set_attached false) ;;
  unlistenElement TWindow "resize" HandleResize.

End EditorClass.

(* ===================================================================== *)
(** ** Events and calls *)
(* ===================================================================== *)

Section Events.
Context {imports : Imports}.

Record DomEvent : Type := mkDomEvent {
  clientX : Z;
  clientY : Z;
  which : N
}.

(** What a registered listener runs.  The resize handler is registered
    wrapped in [debounce(.., 250)]: an event only arms its timer. *)
Definition handle (h : Handler) (e : DomEvent) : M unit :=
  match h with
  | HandleClick => handleClick (clientX e) (clientY e)
  | HandleInput => handleInput
  | HandleKeydown => handleKeydown (which e)
  | HandleFocus => handleFocus
  | HandleBlur => handleBlur
  | HandleMouseenter => handleMouseenter
  | HandleMouseleave => handleMouseleave
  | HandleResize => modify_ (set_resizeArmed true)
  end.

(** The debounce timer runs out. *)
Definition debounceElapsed : M unit :=
  armed <- gets resizeArmed ;;
  if armed then modify_ (set_resizeArmed false) ;; handleResize
  else ret tt.

(** The browser delivers an event to a target: the listeners registered
    for it run in registration order; an exception in one of them does
    not keep the others from running. *)
Fixpoint deliver (ls : list Listener) (t : Target) (type : string)
  (e : DomEvent) : M unit :=
  match ls with
  | [] => ret tt
  | l :: ls' =>
      if sameTarget (target l) t && String.eqb (eventType l) type
      then fun s => deliver ls' t type e (final (handle (handler l) e s))
      else deliver ls' t type e
  end.

(** The focus and blur events of the input come with a change of the
    active element: the input has become it, or has ceased to be it. *)
Definition activeAfter (t : Target) (type : string) (s : Editor) : Editor :=
  match t with
  | TInput =>
      if String.eqb type "focus" then set_inputActive true s
      else if String.eqb type "blur" then set_inputActive false s
      else s
  | _ => s
  end.

Definition dispatch (t : Target) (type : string) (e : DomEvent) : M unit :=
  modify_ (activeAfter t type) ;;
  ls <- gets listeners ;;
  deliver ls t type e.

(** The methods of the class, with their arguments, and the callbacks it
    leaves with the renderer and the debounce timer. *)
Inductive Method : Type :=
| CallHandleClick (x y : Z)
| CallHandleFocus
| CallHandleBlur
| CallHandleInput
| CallHandleMouseenter
| CallHandleMouseleave
| CallHandleKeydown (which : N)
| CallHandleResize
| CallScrollToCaret
| CallUpdate
| CallBackspaceRemove
| CallDeleteRemove
| CallInsert (el : NodeId) (moveTo : option NodeId)
| CallInsertNewline
| CallOn (type : string)
| CallFocus
| CallToString
| CallToTex
| CallGetValue
| CallSetValue (v : Value)
| CallDestroy
| CallbackJaxReady
| CallbackResolved (t : nat)
| CallbackDebounce.

Definition discard {A} (c : M A) : M unit := _ <- c ;; ret tt.

Definition invoke (m : Method) : M unit :=
  match m with
  | CallHandleClick x y => handleClick x y
  | CallHandleFocus => handleFocus
  | CallHandleBlur => handleBlur
  | CallHandleInput => handleInput
  | CallHandleMouseenter => handleMouseenter
  | CallHandleMouseleave => handleMouseleave
  | CallHandleKeydown w => handleKeydown w
  | CallHandleResize => handleResize
  | CallScrollToCaret => scrollToCaret
  | CallUpdate => discard update
  | CallBackspaceRemove => backspaceRemove
  | CallDeleteRemove => deleteRemove
  | CallInsert el moveTo => insert el moveTo
  | CallInsertNewline => insertNewline
  | CallOn type => on type
  | CallFocus => focus
  | CallToString => discard toString
  | CallToTex => discard toTex
  | CallGetValue => discard getValue
  | CallSetValue v => setValue v
  | CallDestroy => destroy
  | CallbackJaxReady => jaxReady
  | CallbackResolved t => resolved t
  | CallbackDebounce => debounceElapsed
  end.

End Events.

(* ===================================================================== *)
(** ** Worked instances *)
(* ===================================================================== *)

(** Helpers for the worked examples: no position counts as editable, the
    parser knows an empty document and a bare text, no container is a
    required slot, cursor moves leave the cursor where it is, and the
    converter yields the empty string. *)
Definition exampleImports : Imports := {|
  isEditable := fun _ _ => false;
  toDom := fun str =>
    if String.eqb str "<math></math>" then Some (SElement "math" [] [])
    else if String.eqb str "x" then Some (SText "x")
    else None;
  requiredSlot := fun _ _ => false;
  moveLeft := position;
  moveRight := position;
  click := fun _ _ => position;
  mml2Tex := fun _ => EmptyString
|}.

Definition noOptions : RawOptions := mkRawOptions None None None.

Definition readonlyOptions : RawOptions :=
  mkRawOptions None (Some true) (Some true).

(** A fresh editor, and one that is readonly and allows newlines. *)
Definition freshEditor : Editor := constructor noOptions.

Definition readonlyEditor : Editor := constructor readonlyOptions.

(* ===================================================================== *)
(** ** Notions the statements use *)
(* ===================================================================== *)

(** An element of document kind: an element node whose tag name is
    [math], in any case. *)
Definition isMathElement (n : Node) : bool :=
  (nodeType n =? 1)%N
  && match tagName n with
     | Some t => String.eqb (toLowerCase t) "math"
     | None => false
     end.

(** The node a value handed to [setValue] stands for, strings being
    parsed into a new tree first; [None] when it is no node at all. *)
Definition offered {imports : Imports} (v : Value) (st : Editor)
  : option Node :=
  match v with
  | VString str =>
      option_map (fun parsed => fst (build (fresh (store st)) parsed))
                 (toDom str)
  | VNode ref => lookupF ref (store st)
  | VNull | VOther => None
  end.

(** [setValue v] throws, and all it leaves behind is the detached tree of
    a parsed string, if any: the state is otherwise the one before, and
    the document tree [doc] is still in place. *)
Definition rejected {imports : Imports} (v : Value) (st : Editor)
  (doc : Node) : Prop :=
  exists e extra,
    setValue v st = Throw e (set_store (store st ++ extra) st)
    /\ document (set_store (store st ++ extra) st) = Some doc.

(** The state [update()] leaves when the renderer is there: a clean copy
    has been made and serialised, and a round-trip has been submitted. *)
Definition afterUpdate (st : Editor) (doc : Node) : Editor :=
  let t := nextTicket st in
  let d := toDisplay (shape doc) (placeholder (options st)) in
  let copy := fst (build (fresh (store st)) (shape doc)) in
  mkEditor (store st ++ [copy]) (value st) (position st) (focused st)
    (inputActive st) (mouseAtDisplay st) (elementJax st) (options st)
    (inputValue st) (listeners st) (attached st) (blinker st)
    (resizeArmed st) (pending st ++ [mkJob t d []]) (S t) (display st)
    (geometry st)
    (JaxSetValueUpdate t d :: TreeUpdate :: TreeSetValue (value st)
       :: Emit (EvUpdate (shape doc)) :: ElValue (shape doc)
       :: WrapperFix :: log st).

(** What the display holds once the round-trip [j] has resolved: its
    output when it is the last one submitted, else what it held. *)
Definition shownAfter (st : Editor) (j : Job) : option Display :=
  if S (ticket j) =? nextTicket st then Some (submitted j) else display st.

(** The state in which the round-trip [j] leaves the editor when it
    resolves: the geometry map is rebuilt from what the display then
    holds, the cursor is updated and the continuations of the promise
    have run. *)
Definition afterResolved (st : Editor) (j : Job) : Editor :=
  mkEditor (store st) (value st) (position st) (focused st)
    (inputActive st) (mouseAtDisplay st) (elementJax st) (options st)
    (inputValue st) (listeners st) (attached st) (blinker st)
    (resizeArmed st)
    (filter (fun j' => negb (ticket j' =? ticket j)) (pending st))
    (nextTicket st) (shownAfter st j) (shownAfter st j)
    (repeat ScrollTo (List.length (thens j))
       ++ CursorUpdate :: RenderedUpdate :: WrapperRelease :: log st).

(** The listeners the constructor registers on the display and on the
    input. *)
Definition elementListeners : list Listener :=
  [ listenerOf TDisplay "click" HandleClick;
    listenerOf TInput "keyup" HandleInput;
    listenerOf TInput "keydown" HandleInput;
    listenerOf TInput "keydown" HandleKeydown;
    listenerOf TInput "focus" HandleFocus;
    listenerOf TInput "blur" HandleBlur;
    listenerOf TDisplay "mouseenter" HandleMouseenter;
    listenerOf TDisplay "mouseleave" HandleMouseleave;
    listenerOf TDisplay "scroll" HandleResize ].

(** Every round-trip in flight has a ticket already given out. *)
Definition ticketsIssued (st : Editor) : Prop :=
  Forall (fun j => ticket j < nextTicket st) (pending st).

(** Two updates issued in a row, on an editor whose renderer is ready, the
    second after an [mi] element has been inserted; the second
    round-trip resolves first. *)
Definition outOfOrder : Editor :=
  final ((jaxReady ;;
          mi <- createElement "mi" [] ;;
          insert (imports := exampleImports) mi None ;;
          resolved 1 ;;
          resolved 0) freshEditor).

(** An update is in flight when the editor is destroyed, and resolves
    afterwards. *)
Definition tornDown : Editor := final ((jaxReady ;; destroy) freshEditor).

(** The renderer is ready and nothing has been typeset yet. *)
Definition readyEditor : Editor := set_elementJax true freshEditor.

(** The empty document of a fresh editor. *)
Definition emptyMath : Node := Element 1 "math" [] [].


Definition keyEvent (which : N) : DomEvent := mkDomEvent 0 0 which.

(** The children of the node bearing [i], and the children of its
    parent. *)
Definition children (i : NodeId) (f : Forest) : option (list Node) :=
  option_map childNodes (lookupF i f).

Definition siblings (i : NodeId) (f : Forest) : option (list Node) :=
  option_map childNodes (parentOf i f).

(** [e] is a new node for the editor: a detached tree that stands in the
    store by its root, between [f1] and [f2], and shares no identity with
    the other trees. *)
Definition newNode (e : Node) (f1 f2 : Forest) (st : Editor) : Prop :=
  store st = f1 ++ e :: f2
  /\ forall i, In i (ids e) -> ~ In i (forestIds (f1 ++ f2)).

(** The cursor is at no position, or at an element of [f] that is a row,
    a document node, or a node with a parent. *)
Definition placeable (pos : option NodeId) (f : Forest) : Prop :=
  match pos with
  | None => True
  | Some p =>
      exists t a ks,
        lookupF p f = Some (Element p t a ks)
        /\ (toLowerCase t = "mrow" \/ toLowerCase t = "math"
            \/ parentOf p f <> None)
  end.

(** Where [insert] puts the new node [e], going from [st] to [st']: first
    in the document without a position, first in a row, last in the
    document at the document node, and right after the position's node
    otherwise. *)
Definition placed (st : Editor) (e : Node) (st' : Editor) : Prop :=
  match position st with
  | None =>
      exists ks,
        children (value st) (store st) = Some ks
        /\ children (value st) (store st') = Some (e :: ks)
  | Some p =>
      match lookupF p (store st) with
      | Some (Element _ t _ _) =>
          if String.eqb (toLowerCase t) "mrow" then
            exists ks,
              children p (store st) = Some ks
              /\ children p (store st') = Some (e :: ks)
          else if String.eqb (toLowerCase t) "math" then
            exists ks,
              children (value st) (store st) = Some ks
              /\ children (value st) (store st') = Some (ks ++ [e])
          else
            exists ks1 q ks2,
              nodeId q = p
              /\ siblings p (store st) = Some (ks1 ++ q :: ks2)
              /\ siblings p (store st') = Some (ks1 ++ q :: e :: ks2)
      | _ => False
      end
  end.

(** The two halves of [insert]: placing the node, and what follows. *)
Definition insertPlace (el : NodeId) (position_ : option NodeId) : M unit :=
  match position_ with
  | None =>
      v <- gets value ;;
      prependElement v el
  | Some p =>
      n <- deref p ;;
      tag <- lcc (tagName n) ;;
      if String.eqb tag "mrow" then prependElement p el
      else if String.eqb tag "math" then
        v <- gets value ;;
        appendElement v el
      else appendElementAfter p el
  end.

Definition insertFinish (target : NodeId) : M unit :=
  setPosition (Some target) ;;
  focus ;;
  u <- update ;;
  then_ u ScrollToCaretK.


(** The cursor is at a node that is not a document node and whose parent
    is not a document node. *)
Definition elsewhere (st : Editor) : bool :=
  match position st with
  | None => false
  | Some p =>
      negb (match lookupF p (store st) with
            | Some n => isMathElement n
            | None => false
            end)
      && negb (match parentOf p (store st) with
               | Some q => isMathElement q
               | None => false
               end)
  end.


(** A fresh editor with a detached [mi] element the caller has made. *)
Definition editorWithNode : Editor :=
  final (createElement "mi" [] freshEditor).

Definition wrapper : Node := Element 0 "div" [] [emptyMath].

Definition newMi : Node := Element 2 "mi" [] [].

(** The two directions of removal, with the operation and the editor
    method of each. *)
Inductive Direction : Type := Backward | Forward.

Definition nothingToRemove {imports : Imports} (d : Direction)
  (root : NodeId) (pos : option NodeId) (f : Forest) : Prop :=
  match d with
  | Backward => elementBefore root pos f = None
  | Forward => elementAfter root pos f = None
  end.

Definition applyRemoval {imports : Imports} (d : Direction)
  : NodeId -> option NodeId -> Forest -> Forest * option NodeId :=
  match d with
  | Backward => applyBackspace
  | Forward => applyDelete
  end.

Definition removal {imports : Imports} (d : Direction) : M unit :=
  match d with
  | Backward => backspaceRemove
  | Forward => deleteRemove
  end.



(** Sample documents: three symbols in a row, and a row holding one. *)
Definition mi (k : NodeId) : Node := Element k "mi" [] [].

Definition threeSymbols : Forest :=
  [Element 0 "div" [] [Element 1 "math" [] [mi 2; mi 3; mi 4]]].

Definition rowOfOne : Forest :=
  [Element 0 "div" [] [Element 1 "math" [] [Element 2 "mrow" [] [mi 3]]]].

(** An editor on the three symbols, the cursor after the second, with a
    detached node the caller has made. *)
Definition symbolsEditor : Editor :=
  set_position (Some 3) (set_store (threeSymbols ++ [mi 9]) freshEditor).

(** [keeps f c]: running [c] does not change the observation [f] of the
    state, whether [c] returns or throws. *)
Definition keeps {A B} (f : Editor -> B) (c : M A) : Prop :=
  forall s, f (final (c s)) = f s.

(** When [g] keeps the identity of a node and keeps what lies below it
    within reach, whatever could be found before [modifyF j g] can be
    found after it. *)
Definition keepsReach (g : Node -> Node) : Prop :=
  (forall m, nodeId (g m) = nodeId m)
  /\ forall m i x, lookup i m = Some x -> exists x', lookup i (g m) = Some x'.

(** The same in a readonly editor that allows newlines. *)
Definition readonlySymbols : Editor :=
  set_position (Some 3) (set_store (threeSymbols ++ [mi 9]) readonlyEditor).

(** Induction over trees, with the hypothesis for every child. *)
Section NodeInduction.
Variable P : Node -> Prop.
Hypothesis P_element :
  forall i t a ks, Forall P ks -> P (Element i t a ks).
Hypothesis P_text : forall i d, P (Text i d).

Fixpoint Node_rect_all (n : Node) : P n :=
  match n with
  | Element i t a ks =>
      P_element i t a ks
        ((fix all (l : list Node) : Forall P l :=
            match l with
            | [] => Forall_nil P
            | k :: l' => Forall_cons k (Node_rect_all k) (all l')
            end) ks)
  | Text i d => P_text i d
  end.
End NodeInduction.

Section ShapeInduction.
Variable P : Shape -> Prop.
Hypothesis P_element : forall t a cs, Forall P cs -> P (SElement t a cs).
Hypothesis P_text : forall d, P (SText d).

Fixpoint Shape_rect_all (s : Shape) : P s :=
  match s with
  | SElement t a cs =>
      P_element t a cs
        ((fix all (l : list Shape) : Forall P l :=
            match l with
            | [] => Forall_nil P
            | c :: l' => Forall_cons c (Shape_rect_all c) (all l')
            end) cs)
  | SText d => P_text d
  end.
End ShapeInduction.

(* ===================================================================== *)
(** ** Notions for the rest of the class *)
(* ===================================================================== *)

(** An observation of the state that a setter does not reach. *)
Definition ignores {B X : Type} (f : Editor -> B)
  (set : X -> Editor -> Editor) : Prop :=
  forall x s, f (set x s) = f s.

(** Running [c] only adds trees at the end of the store. *)
Definition extends {A} (c : M A) : Prop :=
  forall s, exists extra, store (final (c s)) = store s ++ extra.

(** The keys [handleKeydown] has a case for. *)
Definition handledKey (which : N) : bool :=
  ((which =? 8) || (which =? 13) || (which =? 37) || (which =? 39)
   || (which =? 46))%N.

(** The methods that can change the document: the edits, [setValue], and
    a keydown of backspace, enter or delete. *)
Definition edits {imports : Imports} (m : Method) : bool :=
  match m with
  | CallInsert _ _ | CallInsertNewline | CallBackspaceRemove
  | CallDeleteRemove | CallSetValue _ => true
  | CallHandleKeydown w => ((w =? 8) || (w =? 13) || (w =? 46))%N
  | _ => false
  end.

(** The methods that can move the cursor: the edits, [setValue], a click
    and a keydown. *)
Definition movesCursor {imports : Imports} (m : Method) : bool :=
  match m with
  | CallInsert _ _ | CallInsertNewline | CallBackspaceRemove
  | CallDeleteRemove | CallSetValue _ | CallHandleClick _ _ => true
  | CallHandleKeydown w => handledKey w
  | _ => false
  end.

(** The last code unit of a string, and white space as the default. *)
Definition space : N := 32%N.

(** The focus event of the input reaches [handleFocus]: the input is in
    the document, it is not the active element, and [handleFocus] is
    bound to its focus event. *)
Definition takesFocus (s : Editor) : bool :=
  attached s && negb (inputActive s)
  && existsb (registeredAs TInput "focus" HandleFocus) (listeners s).

(** What a call of [focus()] adds to the effect log, newest first, with
    the listeners the constructor registers: the call itself, and before
    it returns the effects of [handleFocus] when the input takes the
    focus. *)
Definition focusLog (s : Editor) : list Effect :=
  if attached s && negb (inputActive s)
  then [CaretShown true; ClassFocused true; Emit EvFocus; InputFocus]
  else [InputFocus].

(** One keystroke over the input: the browser dispatches keydown, the
    text the key types then enters the input, and the browser dispatches
    keyup. *)
Definition keystroke {imports : Imports} (w : N) (typed : jsstring)
  : M unit :=
  dispatch TInput "keydown" (keyEvent w) ;;
  modify_ (fun s => set_inputValue (inputValue s ++ typed) s) ;;
  dispatch TInput "keyup" (keyEvent w).

(** The boundaries of the document.  For a backspace: the start, where
    the cursor has no position.  For a delete: the end, where the cursor
    is at the last child of the document, or has no position in a
    document without children. *)
Definition atBoundary (d : Direction) (doc : Node) (pos : option NodeId)
  : Prop :=
  match d with
  | Backward => pos = None
  | Forward =>
      match pos with
      | None => childNodes doc = []
      | Some p =>
          exists ks n,
            childNodes doc = ks ++ [n] /\ nodeId n = p
            /\ ~ In p (map nodeId ks)
      end
  end.

(** The same editor with the readonly option set to [b]. *)
Definition withReadonly (b : bool) (s : Editor) : Editor :=
  mkEditor (store s) (value s) (position s) (focused s) (inputActive s)
    (mouseAtDisplay s) (elementJax s)
    (mkOptions (placeholder (options s)) (allowNewlines (options s)) b)
    (inputValue s) (listeners s) (attached s) (blinker s) (resizeArmed s)
    (pending s) (nextTicket s) (display s) (geometry s) (log s).

(** The outcome [o] with [g] applied to the state it ends in. *)
Definition onState {A} (g : Editor -> Editor) (o : Outcome A) : Outcome A :=
  match o with
  | Ret a s => Ret a (g s)
  | Throw e s => Throw e (g s)
  end.

(** [oblivious c]: [c] does the same whatever the readonly option is, and
    leaves the option as it finds it. *)
Definition oblivious {A} (c : M A) : Prop :=
  forall b s, c (withReadonly b s) = onState (withReadonly b) (c s).

(* ===================================================================== *)
(** * Properties *)
(* ===================================================================== *)

(* ===================================================================== *)
(** ** What a computation leaves alone *)
(* ===================================================================== *)


Section Frame.
Context {B : Type} (f : Editor -> B).

Lemma keeps_ret {A} (a : A) : keeps f (ret a).
Proof. intro s. reflexivity. Qed.

Lemma keeps_throw {A} (e : Error) : keeps f (@throw A e).
Proof. intro s. reflexivity. Qed.

Lemma keeps_gets {A} (g : Editor -> A) : keeps f (gets g).
Proof. intro s. reflexivity. Qed.

Lemma keeps_modify (g : Editor -> Editor) :
  (forall s, f (g s) = f s) -> keeps f (modify_ g).
Proof. intros H s. apply H. Qed.

Lemma keeps_bind {A C} (c : M A) (k : A -> M C) :
  keeps f c -> (forall a, keeps f (k a)) -> keeps f (bind c k).
Proof.
  intros Hc Hk s. unfold bind.
  specialize (Hc s). destruct (c s) as [a s'|e s']; simpl in *.
  - rewrite Hk. exact Hc.
  - exact Hc.
Qed.

End Frame.

Ltac keeps_step :=
  match goal with
  | |- keeps _ (bind _ _) => apply keeps_bind; [ | intro ]
  | |- keeps _ (ret _) => apply keeps_ret
  | |- keeps _ (throw _) => apply keeps_throw
  | |- keeps _ (gets _) => apply keeps_gets
  | |- keeps _ (modify_ _) => apply keeps_modify; intros []; reflexivity
  | |- keeps _ (if ?b then _ else _) => destruct b
  | |- keeps _ (let '(_, _) := ?x in _) => destruct x
  | |- keeps _ (match ?x with _ => _ end) => destruct x
  end.

Ltac keeps_auto := repeat keeps_step.

Section InputSurface.
Context {imports : Imports}.

Lemma keeps_input_effect (e : Effect) : keeps inputValue (effect e).
Proof. unfold effect. keeps_auto. Qed.

Lemma keeps_input_deref i : keeps inputValue (deref i).
Proof. unfold deref. keeps_auto. Qed.

Lemma keeps_input_lcc t : keeps inputValue (lcc t).
Proof. unfold lcc. keeps_auto. Qed.

Lemma keeps_input_lccIs t x : keeps inputValue (lccIs t x).
Proof. unfold lccIs. keeps_auto. apply keeps_input_lcc. Qed.

Lemma keeps_input_insertInto place p el :
  keeps inputValue (insertInto place p el).
Proof.
  unfold insertInto. keeps_auto; apply keeps_input_deref.
Qed.

Lemma keeps_input_appendElementAfter r el :
  keeps inputValue (appendElementAfter r el).
Proof.
  unfold appendElementAfter. keeps_auto; apply keeps_input_deref.
Qed.

Lemma keeps_input_getCleanCopy r : keeps inputValue (getCleanCopy r).
Proof. unfold getCleanCopy. keeps_auto. apply keeps_input_deref. Qed.

Lemma keeps_input_run k : keeps inputValue (run k).
Proof. destruct k. apply keeps_input_effect. Qed.

Lemma keeps_input_runAll ks : keeps inputValue (runAll ks).
Proof.
  induction ks as [|k ks IH]; simpl.
  - apply keeps_ret.
  - apply keeps_bind; [apply keeps_input_run | intro; exact IH].
Qed.

Lemma keeps_input_then p k : keeps inputValue (then_ p k).
Proof.
  unfold then_. destruct p; [apply keeps_input_run | keeps_auto].
Qed.

Lemma keeps_input_focusEvent ls : keeps inputValue (focusEvent ls).
Proof.
  induction ls as [|l ls IH]; simpl; [apply keeps_ret|].
  destruct (registeredAs TInput "focus" HandleFocus l); [|exact IH].
  apply keeps_bind; [|intro; exact IH].
  unfold handleFocus, emit. keeps_auto; apply keeps_input_effect.
Qed.

Lemma keeps_input_focus : keeps inputValue focus.
Proof.
  unfold focus.
  keeps_auto;
    first [ apply keeps_input_effect | apply keeps_input_focusEvent ].
Qed.

Lemma keeps_input_update : keeps inputValue update.
Proof.
  unfold update, getValue, jaxSetValueUpdate, emit.
  keeps_auto;
    first [ apply keeps_input_effect | apply keeps_input_deref
          | apply keeps_input_getCleanCopy ].
Qed.

End InputSurface.

Create HintDb input_frame.
#[export] Hint Resolve keeps_input_effect keeps_input_deref keeps_input_lcc
  keeps_input_lccIs keeps_input_insertInto keeps_input_appendElementAfter
  keeps_input_getCleanCopy keeps_input_run keeps_input_runAll
  keeps_input_then keeps_input_update keeps_input_focus : input_frame.

Ltac input_frame := keeps_auto; auto with input_frame.

Section InputSurfaceMethods.
Context {imports : Imports}.

Lemma keeps_input_insert el moveTo : keeps inputValue (insert el moveTo).
Proof.
  unfold insert, prependElement, appendElement, getPosition, setPosition.
  input_frame.
Qed.

Lemma keeps_input_insertNewline : keeps inputValue insertNewline.
Proof.
  unfold insertNewline, createElement, getPosition.
  input_frame. apply keeps_input_insert.
Qed.

Lemma keeps_input_backspaceRemove : keeps inputValue backspaceRemove.
Proof.
  unfold backspaceRemove, getPosition, setPosition. input_frame.
Qed.

Lemma keeps_input_deleteRemove : keeps inputValue deleteRemove.
Proof.
  unfold deleteRemove, getPosition, setPosition. input_frame.
Qed.

Lemma keeps_input_setValue v : keeps inputValue (setValue v).
Proof.
  unfold setValue, setPosition. input_frame.
Qed.

Lemma keeps_input_resolved t : keeps inputValue (resolved t).
Proof.
  unfold resolved, updateThen, renderedUpdate, cursorUpdate. input_frame.
Qed.

Lemma keeps_input_handleKeydown w : keeps inputValue (handleKeydown w).
Proof.
  unfold handleKeydown.
  repeat match goal with
         | |- keeps _ (match ?x with _ => _ end) => destruct x
         end;
    first [ apply keeps_ret
          | apply keeps_input_backspaceRemove
          | apply keeps_input_deleteRemove
          | apply keeps_input_insertNewline
          | apply keeps_modify; intros []; reflexivity ].
Qed.

End InputSurfaceMethods.

(* ===================================================================== *)
(** ** The hidden input, the renderer check and the readonly check *)
(* ===================================================================== *)

Section Guards.
Context {imports : Imports}.

(** With the listeners the constructor registers, a keyup on the input
    runs [handleInput], and a keydown runs [handleInput] and then
    [handleKeydown]; the text of the input is empty afterwards. *)
Lemma keystroke_runs_handleInput (st : Editor) (o : RawOptions)
  (e : DomEvent) :
  listeners st = listeners (constructor o) ->
  final (dispatch TInput "keyup" e st) = final (handleInput st)
  /\ final (dispatch TInput "keydown" e st)
     = final (handleKeydown (which e) (final (handleInput st)))
  /\ inputValue (final (dispatch TInput "keydown" e st)) = [].
Proof.
  intro H. unfold dispatch. unfold bind, gets, modify_.
  cbn [activeAfter String.eqb Ascii.eqb Bool.eqb]. rewrite H.
  split; [reflexivity|]. split; [reflexivity|].
  simpl. rewrite keeps_input_handleKeydown.
  unfold handleInput, bind, gets, modify_, emit, effect, ret.
  destruct (trim (inputValue st)); destruct st; reflexivity.
Qed.


(** C8.  [handleInput], the keyup/keydown listener, empties the text of
    the hidden input and emits the raw-input event with the trimmed text
    exactly when that text is not empty; it changes nothing else.  No
    other method or callback of the class changes the text of the input.
    With the listeners the constructor registers, every keyup and keydown
    on the input runs it. *)
Theorem handleInput_clears_and_commits (st : Editor) :
  handleInput st =
    Ret tt
      (match trim (inputValue st) with
       | [] => set_inputValue [] st
       | c :: cs =>
           set_log (Emit (EvInput (c :: cs)) :: log st)
             (set_inputValue [] st)
       end)
  /\ (forall m : Method,
        inputValue (final (invoke m st)) =
          match m with
          | CallHandleInput => []
          | _ => inputValue st
          end)
  /\ forall (o : RawOptions) (e : DomEvent),
       listeners st = listeners (constructor o) ->
       final (dispatch TInput "keyup" e st) = final (handleInput st)
       /\ final (dispatch TInput "keydown" e st)
          = final (handleKeydown (which e) (final (handleInput st)))
       /\ inputValue (final (dispatch TInput "keydown" e st)) = [].
Proof.
  split; [|split; [|intros o e; apply keystroke_runs_handleInput]].
  - unfold handleInput, bind, gets, modify_, emit, effect, ret.
    destruct (trim (inputValue st)); reflexivity.
  - intro m.
    destruct m; simpl;
      try (match goal with
           | |- inputValue (final (?c st)) = inputValue st =>
               change (inputValue (final (c st)) = inputValue st);
               revert st;
               change (keeps inputValue c)
           end;
           first [ apply keeps_input_insert
                 | apply keeps_input_insertNewline
                 | apply keeps_input_backspaceRemove
                 | apply keeps_input_deleteRemove
                 | apply keeps_input_setValue
                 | apply keeps_input_resolved
                 | apply keeps_input_handleKeydown
                 | unfold handleClick, handleFocus, handleBlur,
                     handleMouseenter, handleMouseleave, handleResize,
                     scrollToCaret, discard, on, toString, toTex, getValue,
                     destroy, unlistenElement, jaxReady, debounceElapsed,
                     handleResize, emit;
                   input_frame ]);
      try reflexivity.
    unfold handleInput, bind, gets, modify_, emit, effect, ret.
    destruct (trim (inputValue st)); reflexivity.
Qed.

Lemma update_settled (st : Editor) :
  elementJax st = false -> update st = Ret Settled st.
Proof.
  intro H. unfold update, bind, gets. rewrite H. reflexivity.
Qed.

(** C7.  While [this.elementJax] is not set, [update()] resolves at once:
    it does not throw and leaves the whole state, effect log included, as
    it was: nothing is serialised, typeset or recomputed. *)
Theorem update_inert_without_renderer (st : Editor) :
  elementJax st = false -> update st = Ret Settled st.
Proof. exact (update_settled st). Qed.

(** C10.  In a readonly editor, with a cursor position that is not
    editable, [insert] returns with the state untouched: tree, cursor
    position and focus are as before. *)
Theorem insert_readonly_guard (st : Editor) (el : NodeId)
  (moveTo : option NodeId) :
  readonly (options st) = true ->
  isEditable (store st) (position st) = false ->
  insert el moveTo st = Ret tt st.
Proof.
  intros Hro Hed. unfold insert, getPosition. unfold bind, gets.
  cbv beta iota. rewrite Hro, Hed. reflexivity.
Qed.

End Guards.

Lemma update_inert_without_renderer_witness :
  update freshEditor = Ret Settled freshEditor.
Proof.
  apply update_inert_without_renderer. reflexivity.
Defined.

Lemma insert_readonly_guard_witness :
  insert (imports := exampleImports) 7 None readonlyEditor
  = Ret tt readonlyEditor.
Proof.
  apply (insert_readonly_guard (imports := exampleImports)); reflexivity.
Defined.

(* ===================================================================== *)
(** ** Facts about the store *)
(* ===================================================================== *)


Lemma lookup_element i j t a ks :
  lookup i (Element j t a ks) =
    if j =? i then Some (Element j t a ks) else lookupF i ks.
Proof. reflexivity. Qed.

Lemma lookup_root n : lookup (nodeId n) n = Some n.
Proof. destruct n; simpl; rewrite Nat.eqb_refl; reflexivity. Qed.

Lemma lookupF_outside i f : ~ In i (forestIds f) -> lookupF i f = None.
Proof.
  unfold forestIds.
  induction f as [|n f IH]; intro H; [reflexivity|].
  simpl in H. rewrite in_app_iff in H.
  assert (Hn : lookup i n = None).
  { assert (Hi : ~ In i (ids n)) by tauto. clear - Hi. revert Hi.
    induction n as [j t a ks IHks | j d] using Node_rect_all; intro Hi.
    - rewrite lookup_element. simpl in Hi.
      destruct (Nat.eqb_spec j i) as [->|Hne]; [tauto|].
      assert (Hks : ~ In i (flat_map ids ks)) by tauto. clear Hi Hne.
      induction IHks as [|k ks Hk _ IH']; [reflexivity|].
      simpl in Hks. rewrite in_app_iff in Hks. simpl.
      rewrite Hk by tauto. apply IH'. tauto.
    - simpl in *. destruct (Nat.eqb_spec j i); [tauto | reflexivity]. }
  simpl. rewrite Hn. apply IH. tauto.
Qed.

Lemma lookup_outside i n : ~ In i (ids n) -> lookup i n = None.
Proof.
  intro H. generalize (lookupF_outside i [n]). simpl.
  rewrite app_nil_r. intro L. specialize (L H).
  destruct (lookup i n); [discriminate | reflexivity].
Qed.

Lemma lookupF_app i f g :
  lookupF i (f ++ g) =
    match lookupF i f with Some r => Some r | None => lookupF i g end.
Proof.
  induction f as [|n f IH]; simpl; [reflexivity|].
  destruct (lookup i n); [reflexivity | exact IH].
Qed.

Lemma lookupF_app_found i f g n :
  lookupF i f = Some n -> lookupF i (f ++ g) = Some n.
Proof. intro H. rewrite lookupF_app, H. reflexivity. Qed.

Lemma list_max_bound (l : list nat) x : In x l -> x <= list_max l.
Proof.
  induction l as [|y l IH]; simpl; [tauto|].
  intros [->|H]; [lia | specialize (IH H); lia].
Qed.

Lemma fresh_outside f : ~ In (fresh f) (forestIds f).
Proof.
  intro H. apply list_max_bound in H. unfold fresh in H. lia.
Qed.


Lemma build_root k s : nodeId (fst (build k s)) = k.
Proof.
  destruct s; simpl; [|reflexivity].
  match goal with |- context [let '(_, _) := ?x in _] => destruct x end.
  reflexivity.
Qed.

Lemma lookupF_fresh f n :
  nodeId n = fresh f -> lookupF (fresh f) (f ++ [n]) = Some n.
Proof.
  intro H. rewrite lookupF_app, lookupF_outside by apply fresh_outside.
  simpl. rewrite <- H, lookup_root. reflexivity.
Qed.

Lemma build_element k t a cs :
  build k (SElement t a cs) =
    (Element k t a (fst (buildAll (S k) cs)), snd (buildAll (S k) cs)).
Proof.
  simpl. fold (buildAll (S k) cs). destruct (buildAll (S k) cs). reflexivity.
Qed.

Lemma buildAll_cons k c cs :
  buildAll k (c :: cs) =
    (fst (build k c) :: fst (buildAll (snd (build k c)) cs),
     snd (buildAll (snd (build k c)) cs)).
Proof.
  simpl. fold (buildAll). destruct (build k c) as [n k1]. simpl.
  destruct (buildAll k1 cs). reflexivity.
Qed.

(** A built tree has the shape it was built from. *)
Lemma shape_build s : forall k, shape (fst (build k s)) = s.
Proof.
  induction s as [t a cs IH | d] using Shape_rect_all; intro k;
    [|reflexivity].
  rewrite build_element. simpl. f_equal.
  generalize (S k) as k0.
  induction IH as [|c cs Hc _ IHcs]; intro k0; [reflexivity|].
  rewrite buildAll_cons. simpl. rewrite Hc, IHcs. reflexivity.
Qed.



(* ===================================================================== *)
(** ** [update()] *)
(* ===================================================================== *)

Lemma getCleanCopy_runs (st : Editor) (r : NodeId) (n : Node) :
  lookupF r (store st) = Some n ->
  getCleanCopy r st =
    Ret (fresh (store st))
        (set_store (store st ++ [fst (build (fresh (store st)) (shape n))])
                   st).
Proof.
  intro H. unfold getCleanCopy, deref. unfold bind, gets. cbv beta iota.
  rewrite H. reflexivity.
Qed.

Lemma update_with_renderer (st : Editor) (doc : Node) :
  elementJax st = true ->
  document st = Some doc ->
  update st = Ret (Pending (nextTicket st)) (afterUpdate st doc).
Proof.
  intros Hjax Hdoc. unfold document in Hdoc.
  destruct st as [s v p fo ac mo jax op iv ls at_ bl ra pe nt di ge lg].
  simpl in Hjax, Hdoc. subst jax.
  unfold afterUpdate, update, getValue, getCleanCopy, jaxSetValueUpdate,
    emit, effect, deref.
  unfold bind, gets, modify_, ret. simpl.
  rewrite Hdoc. simpl.
  rewrite lookupF_fresh by apply build_root. simpl.
  rewrite (lookupF_app_found _ _ _ _ Hdoc). simpl.
  unfold outerHTML. rewrite shape_build. reflexivity.
Qed.

Lemma lookupF_id i f n : lookupF i f = Some n -> nodeId n = i.
Proof.
  assert (H1 : forall m, lookup i m = Some n -> nodeId n = i).
  { induction m as [j t a ks IH | j d] using Node_rect_all.
    - rewrite lookup_element.
      destruct (Nat.eqb_spec j i) as [->|_].
      + intro E. inversion E. reflexivity.
      + induction IH as [|k ks Hk _ IH']; simpl; [discriminate|].
        destruct (lookup i k) eqn:Ek; [intro E; inversion E; subst|];
          auto.
    - simpl. destruct (Nat.eqb_spec j i) as [->|_]; [|discriminate].
      intro E. inversion E. reflexivity. }
  induction f as [|m f IH]; simpl; [discriminate|].
  destruct (lookup i m) eqn:Em; [intro E; inversion E; subst|]; eauto.
Qed.

(** [update()] always returns once the document is in the store, and
    leaves root, cursor and document tree as they were. *)
Lemma update_returns (st : Editor) (doc : Node) :
  document st = Some doc ->
  exists p st',
    update st = Ret p st' /\ value st' = value st
    /\ position st' = position st /\ document st' = Some doc
    /\ options st' = options st.
Proof.
  intro Hdoc. destruct (elementJax st) eqn:Hjax.
  - exists (Pending (nextTicket st)), (afterUpdate st doc).
    split; [apply update_with_renderer; assumption|].
    unfold document, afterUpdate. simpl.
    repeat split; try reflexivity.
    apply lookupF_app_found. exact Hdoc.
  - exists Settled, st.
    split; [apply update_settled; assumption|].
    repeat split; try reflexivity. exact Hdoc.
Qed.

(* ===================================================================== *)
(** ** [setValue] *)
(* ===================================================================== *)

(** Running the plumbing of a computation on a given state. *)
Ltac mrun :=
  cbv beta iota delta
    [bind gets modify_ ret throw setPosition getPosition effect emit
     scrollToCaret deref discard lcc lccIs].

Section SetValue.
Context {imports : Imports}.

(** The part of [setValue] after the check. *)
Lemma setValue_accepts (st : Editor) (n : Node) :
  lookupF (nodeId n) (store st) = Some n ->
  exists st',
    (modify_ (set_value (nodeId n)) ;;
     setPosition None ;;
     _ <- update ;;
     ret tt) st = Ret tt st'
    /\ value st' = nodeId n /\ document st' = Some n /\ position st' = None.
Proof.
  intro H.
  pose (s1 := set_position None (set_value (nodeId n) st)).
  assert (Hdoc : document s1 = Some n) by (destruct st; exact H).
  destruct (update_returns s1 n Hdoc) as (p & st' & Hu & Hv & Hp & Hd & _).
  exists st'. mrun. fold s1. rewrite Hu.
  repeat split; assumption.
Qed.

Lemma setValue_node (st : Editor) (ref : NodeId) (n : Node) :
  lookupF ref (store st) = Some n ->
  setValue (VNode ref) st =
    if isMathElement n
    then (modify_ (set_value ref) ;; setPosition None ;;
          _ <- update ;; ret tt) st
    else Throw (MathjaxEditorError
                  "MathjaxEditor: the value must be an <math> element.") st.
Proof.
  intro H. unfold setValue, isMathElement. mrun. rewrite H.
  destruct n as [i t a ks | i d]; simpl; [|reflexivity].
  destruct (String.eqb (toLowerCase t) "math"); reflexivity.
Qed.

Lemma setValue_string (st : Editor) (str : string) (parsed : Shape) :
  toDom str = Some parsed ->
  setValue (VString str) st =
    let n := fst (build (fresh (store st)) parsed) in
    let s1 := set_store (store st ++ [n]) st in
    if isMathElement n
    then (modify_ (set_value (nodeId n)) ;; setPosition None ;;
          _ <- update ;; ret tt) s1
    else Throw (MathjaxEditorError
                  "MathjaxEditor: the value must be an <math> element.") s1.
Proof.
  intro H. unfold setValue, isMathElement. rewrite H. mrun.
  replace (store (set_store _ st))
    with (store st ++ [fst (build (fresh (store st)) parsed)])
    by (destruct st; reflexivity).
  rewrite lookupF_fresh by apply build_root.
  rewrite build_root.
  destruct (fst (build (fresh (store st)) parsed)) as [i t a ks | i d];
    simpl; [|reflexivity].
  destruct (String.eqb (toLowerCase t) "math"); reflexivity.
Qed.

(** C2.  [setValue] parses a string first; when what it is given is not
    an element of document kind it throws, and the tree held before, the
    cursor and all the rest of the state stay as they were; when it is a
    [math] element, that element becomes the root and the cursor is
    reset. *)
Theorem setValue_all_or_nothing (v : Value) (st : Editor) (doc : Node) :
  document st = Some doc ->
  match offered v st with
  | Some n =>
      if isMathElement n
      then exists st',
             setValue v st = Ret tt st'
             /\ value st' = nodeId n /\ document st' = Some n
             /\ position st' = None
      else rejected v st doc
  | None => rejected v st doc
  end.
Proof.
  intro Hdoc.
  assert (Hsame : set_store (store st ++ []) st = st)
    by (rewrite app_nil_r; destruct st; reflexivity).
  assert (Hkeep : forall extra,
             document (set_store (store st ++ extra) st) = Some doc).
  { intro extra. unfold document in *. destruct st; simpl in *.
    apply lookupF_app_found. exact Hdoc. }
  destruct v as [str | ref | | ]; unfold offered, rejected.
  - (* a string *)
    destruct (toDom str) as [parsed|] eqn:Hparse; simpl.
    + rewrite (setValue_string st str parsed Hparse). cbv zeta.
      set (n := fst (build (fresh (store st)) parsed)).
      destruct (isMathElement n).
      * apply setValue_accepts.
        replace (store (set_store _ st)) with (store st ++ [n])
          by (destruct st; reflexivity).
        unfold n at 1. rewrite build_root.
        apply lookupF_fresh. apply build_root.
      * eexists. exists [n]. split; [reflexivity | apply Hkeep].
    + exists TypeError, []. rewrite Hsame. split; [|exact Hdoc].
      unfold setValue. rewrite Hparse. reflexivity.
  - (* a node *)
    destruct (lookupF ref (store st)) as [n|] eqn:Href.
    + rewrite (setValue_node st ref n Href).
      pose proof (lookupF_id _ _ _ Href) as Hid.
      destruct (isMathElement n).
      * rewrite <- Hid. apply setValue_accepts. rewrite Hid. exact Href.
      * eexists. exists []. rewrite Hsame. split; [reflexivity|exact Hdoc].
    + exists TypeError, []. rewrite Hsame. split; [|exact Hdoc].
      unfold setValue. mrun. rewrite Href. reflexivity.
  - exists TypeError, []. rewrite Hsame. split; [|exact Hdoc]. reflexivity.
  - eexists. exists []. rewrite Hsame. split; [reflexivity|exact Hdoc].
Qed.

End SetValue.

(* ===================================================================== *)
(** ** Renderer round-trips *)
(* ===================================================================== *)

Lemma repeat_shift {A} (x : A) (n : nat) (l : list A) :
  repeat x n ++ x :: l = x :: repeat x n ++ l.
Proof.
  induction n as [|n IH]; simpl; [reflexivity|]. rewrite IH. reflexivity.
Qed.

Lemma runAll_log (ks : list Continuation) (s : Editor) :
  runAll ks s = Ret tt (set_log (repeat ScrollTo (List.length ks) ++ log s) s).
Proof.
  revert s. induction ks as [|k ks IH]; intro s.
  - simpl. destruct s; reflexivity.
  - destruct k. simpl. mrun. rewrite IH.
    destruct s; simpl. unfold set_log; simpl.
    rewrite repeat_shift. reflexivity.
Qed.

Lemma find_ticket (t : nat) (js : list Job) (j : Job) :
  find (fun j' => ticket j' =? t) js = Some j -> ticket j = t.
Proof.
  intro H. apply find_some in H. destruct H as [_ H].
  apply Nat.eqb_eq. exact H.
Qed.

(** A round-trip that resolves is applied as it is: nothing compares it
    with what has been submitted since. *)
Lemma resolved_applies (st : Editor) (t : nat) (j : Job) :
  find (fun j' => ticket j' =? t) (pending st) = Some j ->
  resolved t st = Ret tt (afterResolved st j).
Proof.
  intro H. pose proof (find_ticket _ _ _ H) as Ht.
  unfold resolved, updateThen, renderedUpdate, cursorUpdate. mrun.
  rewrite H. rewrite runAll_log. subst t.
  destruct st; reflexivity.
Qed.

Lemma find_fresh_ticket (t : nat) (js more : list Job) :
  Forall (fun j => ticket j < t) js ->
  find (fun j' => ticket j' =? t) (js ++ more) =
  find (fun j' => ticket j' =? t) more.
Proof.
  induction 1 as [|j js Hj _ IH]; [reflexivity|].
  simpl. destruct (Nat.eqb_spec (ticket j) t); [lia | exact IH].
Qed.







Section RoundTrips.


(** C6, as the code has it.  On every editor [destroy()] stops the
    blinker, so that none of its timers is pending, takes the container
    out of the document and detaches the resize listener from the window,
    and changes nothing else.  There is no liveness flag: a round-trip in
    flight at the teardown resolves as any other, and its completion
    releases the wrapper, rebuilds the geometry map and updates the
    cursor. *)
Theorem destroy_tears_down (st : Editor) :
  let st' := final (destroy st) in
  destroy st
  = Ret tt
      (set_listeners
         (filter (fun l => negb (registeredAs TWindow "resize" HandleResize l))
                 (listeners st))
         (set_attached false (set_blinker Stopped st)))
  /\ timersPending (blinker st') = false
  /\ attached st' = false
  /\ (forall l,
        In l (listeners st') <->
        In l (listeners st)
        /\ registeredAs TWindow "resize" HandleResize l = false)
  /\ forall (t : nat) (j : Job),
       find (fun j' => ticket j' =? t) (pending st) = Some j ->
       resolved t st' = Ret tt (afterResolved st' j)
       /\ log (final (resolved t st'))
          = repeat ScrollTo (List.length (thens j))
              ++ CursorUpdate :: RenderedUpdate :: WrapperRelease :: log st.
Proof.
  cbv zeta. split; [reflexivity|].
  split; [reflexivity|]. split; [reflexivity|].
  split.
  { intro l. change (listeners (final (destroy st)))
      with (filter (fun l => negb (registeredAs TWindow "resize"
                                     HandleResize l)) (listeners st)).
    rewrite filter_In, negb_true_iff. reflexivity. }
  intros t j H.
  assert (Hrun : resolved t (final (destroy st))
                 = Ret tt (afterResolved (final (destroy st)) j))
    by (apply resolved_applies; exact H).
  split; [exact Hrun|]. rewrite Hrun. reflexivity.
Qed.

End RoundTrips.


Lemma destroy_tears_down_witness :
  log (final (resolved 0 (final (destroy (afterUpdate readyEditor
                                            emptyMath)))))
  = CursorUpdate :: RenderedUpdate :: WrapperRelease
      :: log (afterUpdate readyEditor emptyMath).
Proof.
  refine (proj2 (proj2 (proj2 (proj2 (proj2
    (destroy_tears_down (afterUpdate readyEditor emptyMath)))))
    0 (mkJob 0 (toDisplay (shape emptyMath) "Start typing...") [])
    eq_refl)).
Defined.

(** C6 fails as stated: after [destroy()] the nine listeners on the
    display and the input are still registered, a keyup on the input
    still runs [handleInput], and the round-trip that resolves after the
    teardown rebuilds the geometry map and updates the cursor. *)
Lemma teardown_counterexample :
  listeners tornDown = elementListeners
  /\ log (final (dispatch (imports := exampleImports) TInput "keyup"
                   (keyEvent 65) (set_inputValue [97%N] tornDown)))
       = Emit (EvInput [97%N]) :: log tornDown
  /\ geometry tornDown = None
  /\ geometry (final (resolved 0 tornDown))
       = Some (toDisplay (SElement "math" [] []) "Start typing...")
  /\ log (final (resolved 0 tornDown))
       = CursorUpdate :: RenderedUpdate :: WrapperRelease :: log tornDown.
Proof. vm_compute. repeat split. Qed.

(* ===================================================================== *)
(** ** Moving a detached node into a tree *)
(* ===================================================================== *)

Lemma lookupF_inside i f x : lookupF i f = Some x -> In i (forestIds f).
Proof.
  intro H. destruct (in_dec Nat.eq_dec i (forestIds f)) as [Hin|Hout];
    [exact Hin|].
  rewrite (lookupF_outside _ _ Hout) in H. discriminate.
Qed.

Lemma forestIds_app f g : forestIds (f ++ g) = forestIds f ++ forestIds g.
Proof. apply flat_map_app. Qed.

Lemma removeIn_element i j t a ks :
  removeIn i (Element j t a ks) = Element j t a (removeF i ks).
Proof. reflexivity. Qed.

Lemma removeF_outside i f : ~ In i (forestIds f) -> removeF i f = f.
Proof.
  assert (H1 : forall n, ~ In i (ids n) -> removeIn i n = n).
  { induction n as [j t a ks IH | j d] using Node_rect_all; intro H;
      [|reflexivity].
    rewrite removeIn_element. f_equal. simpl in H.
    assert (Hks : ~ In i (flat_map ids ks)) by tauto. clear H.
    induction IH as [|k ks Hk _ IH']; [reflexivity|].
    simpl in Hks. rewrite in_app_iff in Hks. simpl.
    destruct (Nat.eqb_spec (nodeId k) i) as [E|_].
    - exfalso. apply Hks. left. destruct k; simpl in *; tauto.
    - rewrite Hk, IH' by tauto. reflexivity. }
  unfold forestIds. induction f as [|n f IH]; intro H; [reflexivity|].
  simpl in H. rewrite in_app_iff in H. simpl.
  destruct (Nat.eqb_spec (nodeId n) i) as [E|_].
  - exfalso. apply H. left. destruct n; simpl in *; tauto.
  - rewrite H1, IH by tauto. reflexivity.
Qed.

Lemma removeF_app i f g : removeF i (f ++ g) = removeF i f ++ removeF i g.
Proof.
  induction f as [|n f IH]; [reflexivity|]. simpl.
  destruct (nodeId n =? i); [exact IH|]. rewrite IH. reflexivity.
Qed.

(** Taking a detached tree out of the store leaves the other trees. *)
Lemma removeF_detached e f1 f2 :
  ~ In (nodeId e) (forestIds (f1 ++ f2)) ->
  removeF (nodeId e) (f1 ++ e :: f2) = f1 ++ f2.
Proof.
  intro H. rewrite forestIds_app, in_app_iff in H.
  rewrite removeF_app. simpl. rewrite Nat.eqb_refl.
  rewrite !removeF_outside by tauto. reflexivity.
Qed.

Lemma lookupF_skip i e f1 f2 :
  ~ In i (ids e) -> lookupF i (f1 ++ e :: f2) = lookupF i (f1 ++ f2).
Proof.
  intro H. rewrite !lookupF_app. simpl.
  rewrite (lookup_outside _ _ H). reflexivity.
Qed.

Lemma lookupF_detached e f1 f2 :
  ~ In (nodeId e) (forestIds (f1 ++ f2)) ->
  lookupF (nodeId e) (f1 ++ e :: f2) = Some e.
Proof.
  intro H. rewrite forestIds_app, in_app_iff in H.
  rewrite lookupF_app, lookupF_outside by tauto.
  simpl. rewrite lookup_root. reflexivity.
Qed.

Lemma modify_element i g j t a ks :
  modify i g (Element j t a ks) =
    if j =? i then g (Element j t a ks)
    else Element j t a (modifyF i g ks).
Proof. reflexivity. Qed.

(** After [modifyF i g], the node bearing [i] is [g] of what it was. *)
Lemma lookupF_modifyF_same i g f :
  (forall m, nodeId (g m) = nodeId m) ->
  lookupF i (modifyF i g f) = option_map g (lookupF i f).
Proof.
  intro Hg.
  assert (H1 : forall n, lookup i (modify i g n) = option_map g (lookup i n)).
  { induction n as [j t a ks IH | j d] using Node_rect_all.
    - rewrite modify_element, lookup_element.
      destruct (Nat.eqb_spec j i) as [->|Hne].
      + generalize (lookup_root (g (Element i t a ks))).
        rewrite Hg. simpl. auto.
      + rewrite lookup_element.
        destruct (Nat.eqb_spec j i) as [|_]; [contradiction|].
        clear Hne. induction IH as [|k ks Hk _ IH']; [reflexivity|].
        simpl. rewrite Hk. destruct (lookup i k); [reflexivity | exact IH'].
    - simpl. destruct (Nat.eqb_spec j i) as [->|Hne]; simpl.
      + generalize (lookup_root (g (Text i d))).
        rewrite Hg. simpl. auto.
      + destruct (Nat.eqb_spec j i); [contradiction | reflexivity]. }
  induction f as [|n f IH]; [reflexivity|].
  simpl. rewrite H1. destruct (lookup i n); [reflexivity | exact IH].
Qed.


Lemma lookupF_modifyF_reach i j g f x :
  keepsReach g ->
  lookupF i f = Some x -> exists x', lookupF i (modifyF j g f) = Some x'.
Proof.
  intros [Hid Hreach].
  assert (H1 : forall n y, lookup i n = Some y ->
                           exists y', lookup i (modify j g n) = Some y').
  { induction n as [k t a ks IH | k d] using Node_rect_all; intros y Hy.
    - rewrite modify_element.
      destruct (Nat.eqb_spec k j) as [->|Hne]; [eapply Hreach; eauto|].
      rewrite lookup_element in *.
      destruct (k =? i); [eauto|].
      clear Hne. induction IH as [|c cs Hc _ IH']; [discriminate|].
      simpl in *. destruct (lookup i c) as [z|] eqn:Ec.
      + destruct (Hc z eq_refl) as [z' ->]. eauto.
      + destruct (lookup i (modify j g c)); eauto.
    - simpl. destruct (Nat.eqb_spec k j) as [->|Hne];
        [eapply Hreach; eauto | eauto]. }
  revert x. induction f as [|n f IH]; intros x Hx; [discriminate|].
  simpl in *. destruct (lookup i n) as [z|] eqn:En.
  - destruct (H1 n z En) as [z' ->]. eauto.
  - destruct (lookup i (modify j g n)); eauto.
Qed.

Lemma keepsReach_place (place : Node -> list Node -> list Node) (e : Node) :
  (forall ks i x, lookupF i ks = Some x ->
                  exists x', lookupF i (place e ks) = Some x') ->
  keepsReach (fun n => setChildNodes (place e (childNodes n)) n).
Proof.
  intro Hplace. split.
  - intros [j t a ks | j d]; reflexivity.
  - intros [j t a ks | j d] i x H; simpl setChildNodes; [|eauto].
    rewrite lookup_element in *.
    destruct (j =? i); [eauto|]. simpl childNodes. eapply Hplace; eauto.
Qed.

Lemma keepsReach_first e :
  keepsReach (fun n => setChildNodes (e :: childNodes n) n).
Proof.
  apply (keepsReach_place (fun e ks => e :: ks)).
  intros ks i x H. simpl. rewrite H. destruct (lookup i e); eauto.
Qed.

Lemma keepsReach_last e :
  keepsReach (fun n => setChildNodes (childNodes n ++ [e]) n).
Proof.
  apply (keepsReach_place (fun e ks => ks ++ [e])).
  intros ks i x H. rewrite (lookupF_app_found _ _ _ _ H). eauto.
Qed.

Lemma existsb_eqb_outside i l : ~ In i l -> existsb (Nat.eqb i) l = false.
Proof.
  intro H. destruct (existsb (Nat.eqb i) l) eqn:E; [|reflexivity].
  apply existsb_exists in E. destruct E as (x & Hx & Heq).
  apply Nat.eqb_eq in Heq. subst x. contradiction.
Qed.

Lemma parentIn_element i j t a ks :
  parentIn i (Element j t a ks) =
    if hasChild i (Element j t a ks) then Some (Element j t a ks)
    else parentOf i ks.
Proof. reflexivity. Qed.

Lemma afterIn_element r e j t a ks :
  afterIn r e (Element j t a ks) =
    if hasChild r (Element j t a ks)
    then option_map (Element j t a) (afterSibling r e ks)
    else option_map (Element j t a) (afterF r e ks).
Proof. reflexivity. Qed.

Lemma hasChild_inside i n : hasChild i n = true -> In i (ids n).
Proof.
  unfold hasChild. intro H. apply existsb_exists in H.
  destruct H as (k & Hk & E). apply Nat.eqb_eq in E.
  destruct n as [j t a ks | j d]; simpl in *; [|contradiction].
  right. apply in_flat_map. exists k. split; [exact Hk|].
  destruct k; simpl in *; tauto.
Qed.

Lemma parentOf_outside i f : ~ In i (forestIds f) -> parentOf i f = None.
Proof.
  assert (H1 : forall n, ~ In i (ids n) -> parentIn i n = None).
  { induction n as [j t a ks IH | j d] using Node_rect_all; intro H;
      [|reflexivity].
    rewrite parentIn_element.
    destruct (hasChild i (Element j t a ks)) eqn:Hc;
      [apply hasChild_inside in Hc; contradiction|].
    simpl in H. assert (Hks : ~ In i (flat_map ids ks)) by tauto.
    clear H Hc. induction IH as [|k ks Hk _ IH']; [reflexivity|].
    simpl in Hks. rewrite in_app_iff in Hks. simpl.
    rewrite Hk by tauto. apply IH'. tauto. }
  unfold forestIds. induction f as [|n f IH]; intro H; [reflexivity|].
  simpl in H. rewrite in_app_iff in H. simpl.
  rewrite H1 by tauto. apply IH. tauto.
Qed.

Lemma parentOf_app i f g :
  parentOf i (f ++ g) =
    match parentOf i f with Some r => Some r | None => parentOf i g end.
Proof.
  induction f as [|n f IH]; simpl; [reflexivity|].
  destruct (parentIn i n); [reflexivity | exact IH].
Qed.

Lemma parentOf_skip i e f1 f2 :
  ~ In i (ids e) -> parentOf i (f1 ++ e :: f2) = parentOf i (f1 ++ f2).
Proof.
  intro H. rewrite !parentOf_app.
  change (e :: f2) with ([e] ++ f2). rewrite parentOf_app.
  rewrite (parentOf_outside i [e]); [reflexivity|].
  simpl. rewrite app_nil_r. exact H.
Qed.

(** Among siblings, the new node lands right after the first one bearing
    the identity. *)
Lemma afterSibling_places r e ks :
  existsb (fun k => nodeId k =? r) ks = true ->
  exists ks1 p ks2,
    ks = ks1 ++ p :: ks2 /\ nodeId p = r
    /\ afterSibling r e ks = Some (ks1 ++ p :: e :: ks2).
Proof.
  induction ks as [|k ks IH]; simpl; [discriminate|].
  destruct (Nat.eqb_spec (nodeId k) r) as [E|_].
  - intros _. exists [], k, ks. repeat split. exact E.
  - simpl. intro H. destruct (IH H) as (ks1 & p & ks2 & -> & Hp & ->).
    exists (k :: ks1), p, ks2. repeat split. exact Hp.
Qed.

Lemma afterSibling_reach r e ks ks' i x :
  afterSibling r e ks = Some ks' ->
  lookupF i ks = Some x -> exists x', lookupF i ks' = Some x'.
Proof.
  revert ks'. induction ks as [|k ks IH]; intros ks' H Hx; [discriminate|].
  simpl in H, Hx. destruct (nodeId k =? r).
  - inversion H; subst. simpl.
    destruct (lookup i k); [eauto|].
    destruct (lookup i e); eauto.
  - destruct (afterSibling r e ks) as [l|]; [|discriminate].
    inversion H; subst. simpl.
    destruct (lookup i k); [eauto|]. eapply IH; eauto.
Qed.

Lemma afterIn_root r e n n' : afterIn r e n = Some n' -> nodeId n' = nodeId n.
Proof.
  destruct n as [j t a ks | j d]; [|discriminate].
  rewrite afterIn_element.
  destruct (hasChild r (Element j t a ks)).
  - destruct (afterSibling r e ks); [|discriminate].
    intro H. inversion H. reflexivity.
  - destruct (afterF r e ks); [|discriminate].
    intro H. inversion H. reflexivity.
Qed.

Lemma hasChild_roots i j t a ks j' t' a' ks' :
  map nodeId ks = map nodeId ks' ->
  hasChild i (Element j t a ks) = hasChild i (Element j' t' a' ks').
Proof.
  unfold hasChild. simpl. revert ks'.
  induction ks as [|k ks IH]; intros [|k' ks'] H; try discriminate;
    [reflexivity|].
  simpl in *. inversion H as [[Hk Hks]]. rewrite Hk, (IH ks' Hks).
  reflexivity.
Qed.

(** Where a node has a parent, [afterF] puts the new node right after it
    among the children of that parent; where it has none, [afterF] fails. *)
Lemma afterF_places r e f :
  match parentOf r f with
  | None => afterF r e f = None
  | Some q =>
      exists j t a ks1 p ks2 f',
        q = Element j t a (ks1 ++ p :: ks2) /\ nodeId p = r
        /\ afterF r e f = Some f'
        /\ map nodeId f' = map nodeId f
        /\ parentOf r f' = Some (Element j t a (ks1 ++ p :: e :: ks2))
  end.
Proof.
  assert (H1 : forall n,
    match parentIn r n with
    | None => afterIn r e n = None
    | Some q =>
        exists j t a ks1 p ks2 n',
          q = Element j t a (ks1 ++ p :: ks2) /\ nodeId p = r
          /\ afterIn r e n = Some n'
          /\ parentIn r n' = Some (Element j t a (ks1 ++ p :: e :: ks2))
    end).
  { induction n as [j t a ks IH | j d] using Node_rect_all; [|reflexivity].
    rewrite parentIn_element, afterIn_element.
    destruct (hasChild r (Element j t a ks)) eqn:Hc.
    - pose proof Hc as Hc'. unfold hasChild in Hc'. simpl in Hc'.
      destruct (afterSibling_places r e ks Hc')
        as (ks1 & p & ks2 & -> & Hp & ->).
      exists j, t, a, ks1, p, ks2. eexists. repeat split; [exact Hp|].
      rewrite parentIn_element.
      rewrite (hasChild_roots r j t a (ks1 ++ p :: e :: ks2)
                 j t a (ks1 ++ p :: [e] ++ ks2)) by reflexivity.
      unfold hasChild. simpl. rewrite existsb_app. simpl.
      rewrite Hp, Nat.eqb_refl. rewrite orb_true_r. reflexivity.
    - assert (Hks :
        match parentOf r ks with
        | None => afterF r e ks = None
        | Some q =>
            exists j0 t0 a0 ks1 p ks2 ks',
              q = Element j0 t0 a0 (ks1 ++ p :: ks2) /\ nodeId p = r
              /\ afterF r e ks = Some ks'
              /\ map nodeId ks' = map nodeId ks
              /\ parentOf r ks'
                 = Some (Element j0 t0 a0 (ks1 ++ p :: e :: ks2))
        end).
      { clear Hc. induction IH as [|c cs Hc _ IH']; [reflexivity|].
        simpl. destruct (parentIn r c) as [q|] eqn:Eq.
        - destruct Hc as (j0 & t0 & a0 & ks1 & p & ks2 & c' & -> & Hp
                          & Hc' & Hpar).
          exists j0, t0, a0, ks1, p, ks2, (c' :: cs).
          rewrite Hc'. simpl. rewrite Hpar.
          rewrite (afterIn_root _ _ _ _ Hc'). repeat split. exact Hp.
        - rewrite Hc. destruct (parentOf r cs) as [q|] eqn:Eq'.
          + destruct IH' as (j0 & t0 & a0 & ks1 & p & ks2 & cs' & -> & Hp
                             & Hcs' & Hroots & Hpar).
            exists j0, t0, a0, ks1, p, ks2, (c :: cs').
            fold (afterF r e cs). rewrite Hcs'. simpl.
            rewrite Eq, Hpar, Hroots. repeat split. exact Hp.
          + fold (afterF r e cs). rewrite IH'. reflexivity. }
      destruct (parentOf r ks) as [q|].
      + destruct Hks as (j0 & t0 & a0 & ks1 & p & ks2 & ks' & -> & Hp
                         & Hks' & Hroots & Hpar).
        exists j0, t0, a0, ks1, p, ks2. eexists.
        rewrite Hks'. simpl. repeat split; [exact Hp|].
        rewrite parentIn_element.
        rewrite (hasChild_roots r j t a ks' j t a ks Hroots), Hc.
        exact Hpar.
      + rewrite Hks. reflexivity. }
  induction f as [|n f IH]; [reflexivity|].
  simpl. specialize (H1 n). destruct (parentIn r n) as [q|] eqn:Eq.
  - destruct H1 as (j0 & t0 & a0 & ks1 & p & ks2 & n' & -> & Hp & Hn' & Hpar).
    exists j0, t0, a0, ks1, p, ks2, (n' :: f).
    rewrite Hn'. simpl. rewrite Hpar, (afterIn_root _ _ _ _ Hn').
    repeat split. exact Hp.
  - rewrite H1. destruct (parentOf r f) as [q|] eqn:Eq'.
    + destruct IH as (j0 & t0 & a0 & ks1 & p & ks2 & f' & -> & Hp & Hf'
                      & Hroots & Hpar).
      exists j0, t0, a0, ks1, p, ks2, (n :: f').
      fold (afterF r e f). rewrite Hf'. simpl.
      rewrite Eq, Hpar, Hroots. repeat split. exact Hp.
    + fold (afterF r e f). rewrite IH. reflexivity.
Qed.

(** Whatever could be found before [afterF] can be found after it. *)
Lemma afterF_reach r e i f f' x :
  afterF r e f = Some f' ->
  lookupF i f = Some x -> exists x', lookupF i f' = Some x'.
Proof.
  assert (H1 : forall n n' y,
             afterIn r e n = Some n' -> lookup i n = Some y ->
             exists y', lookup i n' = Some y').
  { induction n as [j t a ks IH | j d] using Node_rect_all;
      intros n' y Hn Hy; [|discriminate].
    rewrite afterIn_element in Hn. rewrite lookup_element in Hy.
    destruct (hasChild r (Element j t a ks)).
    - destruct (afterSibling r e ks) as [ks'|] eqn:Eks; [|discriminate].
      inversion Hn; subst. rewrite lookup_element.
      destruct (j =? i); [eauto|].
      eapply afterSibling_reach; eauto.
    - destruct (afterF r e ks) as [ks'|] eqn:Eks; [|discriminate].
      inversion Hn; subst. rewrite lookup_element.
      destruct (j =? i); [eauto|]. clear Hn.
      revert ks' Eks y Hy.
      induction IH as [|c cs Hc _ IH']; intros ks' Eks y Hy;
        [discriminate|].
      simpl in Eks, Hy.
      destruct (afterIn r e c) as [c'|] eqn:Ec.
      + inversion Eks; subst. simpl.
        destruct (lookup i c) as [z|] eqn:Ez.
        * destruct (Hc c' z eq_refl eq_refl) as [z' ->]. eauto.
        * destruct (lookup i c'); eauto.
      + fold (afterF r e cs) in Eks.
        destruct (afterF r e cs) as [cs'|] eqn:Ecs; [|discriminate].
        inversion Eks; subst. simpl.
        destruct (lookup i c); [eauto|]. eapply IH'; eauto. }
  revert f' x. induction f as [|n f IH]; intros f' x Hf Hx; [discriminate|].
  simpl in Hf, Hx.
  destruct (afterIn r e n) as [n'|] eqn:En.
  - inversion Hf; subst. simpl.
    destruct (lookup i n) as [z|] eqn:Ez.
    + destruct (H1 n n' z En Ez) as [z' ->]. eauto.
    + destruct (lookup i n'); eauto.
  - fold (afterF r e f) in Hf.
    destruct (afterF r e f) as [f0|] eqn:Ef; [|discriminate].
    inversion Hf; subst. simpl.
    destruct (lookup i n); [eauto|]. eapply IH; eauto.
Qed.

Lemma parentOf_app_found i f g q :
  parentOf i f = Some q -> parentOf i (f ++ g) = Some q.
Proof. intro H. rewrite parentOf_app, H. reflexivity. Qed.

(* ===================================================================== *)
(** ** [insert] *)
(* ===================================================================== *)

Section Insert.
Context {imports : Imports}.

Lemma insert_halves (el : NodeId) (moveTo : option NodeId) (st : Editor) :
  insert el moveTo st =
    if readonly (options st) && negb (isEditable (store st) (position st))
    then Ret tt st
    else (insertPlace el (position st) ;;
          insertFinish (match moveTo with Some m => m | None => el end)) st.
Proof.
  unfold insert. unfold bind at 1 2 3. unfold getPosition, gets.
  destruct (readonly (options st)
            && negb (isEditable (store st) (position st)));
    reflexivity.
Qed.

Lemma set_store_store f st : store (set_store f st) = f.
Proof. destruct st; reflexivity. Qed.

(** [handleFocus()], and the focus event: they write the focused flag
    and the effect log, and nothing else. *)
Lemma handleFocus_runs (s : Editor) :
  handleFocus s
  = Ret tt
      (set_log (CaretShown true :: ClassFocused true :: Emit EvFocus
                  :: log s)
         (set_focused true s)).
Proof. destruct s; reflexivity. Qed.

Lemma focusEvent_frame (ls : list Listener) (s : Editor) :
  exists fo lg, focusEvent ls s = Ret tt (set_log lg (set_focused fo s)).
Proof.
  revert s. induction ls as [|l ls IH]; intro s; simpl.
  - exists (focused s), (log s). destruct s; reflexivity.
  - destruct (registeredAs TInput "focus" HandleFocus l); [|apply IH].
    unfold bind at 1. rewrite handleFocus_runs.
    destruct (IH (set_log (CaretShown true :: ClassFocused true
                             :: Emit EvFocus :: log s)
                    (set_focused true s))) as (fo & lg & H).
    exists fo, lg. rewrite H. destruct s; reflexivity.
Qed.

(** [focus()] never throws; it writes the focused flag, the active
    element and the effect log, and nothing else. *)
Lemma focus_frame (s : Editor) :
  exists fo ac lg,
    focus s = Ret tt (set_log lg (set_inputActive ac (set_focused fo s))).
Proof.
  unfold focus. mrun.
  replace (attached (set_log (InputFocus :: log s) s)) with (attached s)
    by (destruct s; reflexivity).
  replace (inputActive (set_log (InputFocus :: log s) s))
    with (inputActive s) by (destruct s; reflexivity).
  destruct (attached s && negb (inputActive s)).
  - match goal with
    | |- context [focusEvent ?ls ?s0] =>
        destruct (focusEvent_frame ls s0) as (fo & lg & H); rewrite H
    end.
    exists fo, true, lg. destruct s; reflexivity.
  - exists (focused s), (inputActive s), (InputFocus :: log s).
    destruct s; reflexivity.
Qed.

(** What follows the placement always returns, with the cursor on its
    target; it adds at most a detached copy to the store. *)
Lemma insertFinish_returns (s1 : Editor) (doc : Node) (m : NodeId) :
  document s1 = Some doc ->
  exists st' extra,
    insertFinish m s1 = Ret tt st'
    /\ position st' = Some m /\ value st' = value s1
    /\ store st' = store s1 ++ extra.
Proof.
  intro Hdoc. unfold insertFinish. mrun.
  destruct (focus_frame (set_position (Some m) s1)) as (fo & ac & lg & Hf).
  rewrite Hf.
  set (s2 := set_log lg _).
  assert (Hdoc2 : document s2 = Some doc) by (destruct s1; exact Hdoc).
  destruct (elementJax s2) eqn:Hjax.
  - rewrite (update_with_renderer s2 doc Hjax Hdoc2).
    eexists. exists [fst (build (fresh (store s2)) (shape doc))].
    split; [reflexivity|]. destruct s1; repeat split.
  - rewrite (update_settled s2 Hjax).
    eexists. exists []. split; [reflexivity|].
    destruct s1; simpl. rewrite app_nil_r. repeat split.
Qed.

(** Placing a new node below an element of the store. *)
Lemma insertInto_new (place : Node -> list Node -> list Node)
  (st : Editor) (e : Node) (f1 f2 : Forest) (parent : NodeId)
  (t : string) (a : list (string * string)) (ks : list Node) :
  newNode e f1 f2 st ->
  lookupF parent (f1 ++ f2) = Some (Element parent t a ks) ->
  insertInto place parent (nodeId e) st =
    Ret tt
      (set_store
         (modifyF parent
            (fun n => setChildNodes (place e (childNodes n)) n) (f1 ++ f2))
         st).
Proof.
  intros [Hstore Hnew] Hparent.
  assert (Hout : ~ In parent (ids e)).
  { intro Hin. apply (Hnew parent Hin). eapply lookupF_inside; eauto. }
  assert (Hroot : ~ In (nodeId e) (forestIds (f1 ++ f2))).
  { apply Hnew. destruct e; simpl; auto. }
  unfold insertInto. mrun. rewrite Hstore.
  rewrite (lookupF_detached e f1 f2 Hroot). rewrite Hstore.
  rewrite (lookupF_skip parent e f1 f2 Hout), Hparent.
  rewrite (existsb_eqb_outside _ _ Hout).
  rewrite Hstore, (removeF_detached e f1 f2 Hroot). reflexivity.
Qed.

(** Placing a new node after a node of the store that has a parent. *)
Lemma appendElementAfter_new (st : Editor) (e : Node) (f1 f2 : Forest)
  (p : NodeId) (n q : Node) :
  newNode e f1 f2 st ->
  lookupF p (f1 ++ f2) = Some n ->
  parentOf p (f1 ++ f2) = Some q ->
  exists f',
    afterF p e (f1 ++ f2) = Some f'
    /\ appendElementAfter p (nodeId e) st = Ret tt (set_store f' st).
Proof.
  intros [Hstore Hnew] Hp Hq.
  assert (Hout : ~ In p (ids e)).
  { intro Hin. apply (Hnew p Hin). eapply lookupF_inside; eauto. }
  assert (Hroot : ~ In (nodeId e) (forestIds (f1 ++ f2))).
  { apply Hnew. destruct e; simpl; auto. }
  pose proof (afterF_places p e (f1 ++ f2)) as Hplaces.
  rewrite Hq in Hplaces.
  destruct Hplaces as (j & t & a & ks1 & c & ks2 & f' & _ & _ & Hf' & _).
  exists f'. split; [exact Hf'|].
  unfold appendElementAfter. mrun. rewrite Hstore.
  rewrite (parentOf_skip p e f1 f2 Hout), Hq. rewrite ?Hstore.
  rewrite (lookupF_detached e f1 f2 Hroot). rewrite ?Hstore.
  destruct (Nat.eqb_spec (nodeId e) p) as [E|_].
  { exfalso. apply Hout. rewrite <- E. destruct e; simpl; auto. }
  rewrite (existsb_eqb_outside _ _ Hout).
  rewrite (removeF_detached e f1 f2 Hroot), Hf'. reflexivity.
Qed.

End Insert.

Lemma children_placed (place : Node -> list Node -> list Node)
  (p : NodeId) t a ks (f extra : Forest) (e : Node) :
  lookupF p f = Some (Element p t a ks) ->
  children p
    (modifyF p (fun n => setChildNodes (place e (childNodes n)) n) f
       ++ extra)
  = Some (place e ks).
Proof.
  intro H. unfold children.
  rewrite (lookupF_app_found _ _ _ (Element p t a (place e ks)));
    [reflexivity|].
  rewrite lookupF_modifyF_same, H; [reflexivity|].
  intros [? ? ? ?|? ?]; reflexivity.
Qed.

Section InsertPlacement.
Context {imports : Imports}.

(** C1, as the code has it.  When the readonly check lets the call
    through, [insert] of a new node puts it first inside the row the
    cursor is at, last in the document when the cursor is at the document
    node, first in the document when there is no position, and right
    after the position's node otherwise; the cursor then is at [moveTo]
    when one is given, else at the new node. *)
Theorem insert_places_new_node (st : Editor) (e : Node) (f1 f2 : Forest)
  (moveTo : option NodeId) (rt : string) (ra : list (string * string))
  (rks : list Node) :
  readonly (options st) && negb (isEditable (store st) (position st))
    = false ->
  newNode e f1 f2 st ->
  lookupF (value st) (f1 ++ f2) = Some (Element (value st) rt ra rks) ->
  placeable (position st) (f1 ++ f2) ->
  exists st',
    insert (nodeId e) moveTo st = Ret tt st'
    /\ position st'
       = Some (match moveTo with Some m => m | None => nodeId e end)
    /\ placed st e st'.
Proof.
  intros Hguard Hnew Hroot Hpos.
  pose proof Hnew as [Hstore Hdisj].
  assert (Hskip : forall i x, lookupF i (f1 ++ f2) = Some x ->
                              lookupF i (store st) = Some x).
  { intros i x Hx. rewrite Hstore, lookupF_skip; [exact Hx|].
    intro Hin. apply (Hdisj i Hin). eapply lookupF_inside; eauto. }
  set (m := match moveTo with Some m => m | None => nodeId e end).
  rewrite insert_halves, Hguard. unfold placed.
  (* the end of the call, once the node is placed in [s1] *)
  assert (Hfinish : forall s1 Q,
    (exists doc, document s1 = Some doc) ->
    (forall st' extra,
        store st' = store s1 ++ extra -> value st' = value s1 -> Q st') ->
    exists st',
      insertFinish m s1 = Ret tt st' /\ position st' = Some m /\ Q st').
  { intros s1 Q [doc Hdoc] HQ.
    destruct (insertFinish_returns s1 doc m Hdoc)
      as (st' & extra & Hrun & Hp & Hv & Hs).
    exists st'. repeat split; eauto. }
  destruct (position st) as [p|] eqn:Epos.
  - (* at a node *)
    destruct Hpos as (t & a & ks & Hp & Hkind).
    rewrite (Hskip _ _ Hp).
    unfold bind at 1. unfold insertPlace. mrun.
    rewrite (Hskip _ _ Hp). cbn [tagName]. cbv beta iota.
    destruct (String.eqb_spec (toLowerCase t) "mrow") as [Emrow|Nmrow];
      [|destruct (String.eqb_spec (toLowerCase t) "math") as [Emath|Nmath]].
    + (* a row: first inside it *)
      unfold prependElement.
      rewrite (insertInto_new _ st e f1 f2 p t a ks Hnew Hp).
      apply Hfinish.
      * unfold document. rewrite set_store_store.
        replace (value (set_store _ st)) with (value st)
          by (destruct st; reflexivity).
        eapply lookupF_modifyF_reach; [apply keepsReach_first | eauto].
      * intros st' extra Hs _. exists ks.
        split; [unfold children; rewrite (Hskip _ _ Hp); reflexivity|].
        rewrite Hs, set_store_store.
        apply (children_placed (fun e0 l => e0 :: l) _ _ _ _ _ _ _ Hp).
    + (* the document node: last in the document *)
      unfold appendElement.
      rewrite (insertInto_new _ st e f1 f2 (value st) rt ra rks Hnew Hroot).
      apply Hfinish.
      * unfold document. rewrite set_store_store.
        replace (value (set_store _ st)) with (value st)
          by (destruct st; reflexivity).
        eapply lookupF_modifyF_reach; [apply keepsReach_last | eauto].
      * intros st' extra Hs _. exists rks.
        split; [unfold children; rewrite (Hskip _ _ Hroot); reflexivity|].
        rewrite Hs, set_store_store.
        apply (children_placed (fun e0 l => l ++ [e0]) _ _ _ _ _ _ _ Hroot).
    + (* any other node: right after it *)
      destruct Hkind as [E|[E|Hparent]]; try contradiction.
      destruct (parentOf p (f1 ++ f2)) as [q|] eqn:Eq; [|contradiction].
      destruct (appendElementAfter_new st e f1 f2 p _ q Hnew Hp Eq)
        as (f' & Hf' & Hrun).
      rewrite Hrun.
      pose proof (afterF_places p e (f1 ++ f2)) as Hplaces.
      rewrite Eq in Hplaces.
      destruct Hplaces
        as (j & t0 & a0 & ks1 & c & ks2 & f0 & -> & Hc & Hf0 & _ & Hpar).
      rewrite Hf' in Hf0. inversion Hf0; subst f0. clear Hf0.
      apply Hfinish.
      * unfold document. rewrite set_store_store.
        replace (value (set_store _ st)) with (value st)
          by (destruct st; reflexivity).
        eapply afterF_reach; eauto.
      * intros st' extra Hs _. exists ks1, c, ks2. unfold siblings.
        split; [exact Hc|]. split.
        -- rewrite Hstore, parentOf_skip, Eq; [reflexivity|].
           intro Hin. apply (Hdisj p Hin). eapply lookupF_inside; eauto.
        -- rewrite Hs, set_store_store.
           rewrite (parentOf_app_found _ _ _ _ Hpar). reflexivity.
  - (* no position: first in the document *)
    unfold bind at 1. unfold insertPlace. mrun.
    unfold prependElement.
    rewrite (insertInto_new _ st e f1 f2 (value st) rt ra rks Hnew Hroot).
    apply Hfinish.
    + unfold document. rewrite set_store_store.
      replace (value (set_store _ st)) with (value st)
        by (destruct st; reflexivity).
      eapply lookupF_modifyF_reach; [apply keepsReach_first | eauto].
    + intros st' extra Hs _. exists rks.
      split; [unfold children; rewrite (Hskip _ _ Hroot); reflexivity|].
      rewrite Hs, set_store_store.
      apply (children_placed (fun e0 l => e0 :: l) _ _ _ _ _ _ _ Hroot).
Qed.

End InsertPlacement.

Lemma insert_places_new_node_witness :
  exists st',
    insert (imports := exampleImports) 2 None editorWithNode = Ret tt st'
    /\ position st' = Some 2
    /\ placed editorWithNode newMi st'.
Proof.
  apply (insert_places_new_node (imports := exampleImports)
           editorWithNode newMi [wrapper] [] None "math" [] []).
  - reflexivity.
  - split; [reflexivity|].
    intros i Hi. simpl in Hi. simpl. lia.
  - reflexivity.
  - exact I.
Defined.

(** C1 fails as stated: in a readonly editor where the position is not
    editable, [insert] of a new node returns with the new node still
    detached, the symbols of the document as they were and the cursor
    where it was, after the second symbol. *)
Lemma insert_readonly_counterexample :
  position readonlySymbols = Some 3
  /\ insert (imports := exampleImports) 9 None readonlySymbols
     = Ret tt readonlySymbols
  /\ siblings 3
       (store (final (insert (imports := exampleImports) 9 None
                        readonlySymbols)))
     = Some [mi 2; mi 3; mi 4]
  /\ position
       (final (insert (imports := exampleImports) 9 None readonlySymbols))
     <> Some 9.
Proof. vm_compute. repeat split. discriminate. Qed.

(* ===================================================================== *)
(** ** [insertNewline] *)
(* ===================================================================== *)

Section InsertNewline.
Context {imports : Imports}.



End InsertNewline.



(* ===================================================================== *)
(** ** The document outlasts the removal of what is inside it *)
(* ===================================================================== *)

(** The identities strictly below a node. *)
Lemma ids_below n : ids n = nodeId n :: flat_map ids (childNodes n).
Proof. destruct n; reflexivity. Qed.

Lemma lookup_missing i n : lookup i n = None -> ~ In i (ids n).
Proof.
  induction n as [j t a ks IH | j d] using Node_rect_all.
  - rewrite lookup_element. destruct (Nat.eqb_spec j i) as [|Hne];
      [discriminate|].
    intros H [E|Hin]; [contradiction|].
    induction IH as [|k ks Hk _ IH']; [exact Hin|].
    simpl in H, Hin. rewrite in_app_iff in Hin.
    destruct (lookup i k) eqn:Ek; [discriminate|].
    destruct Hin as [Hin|Hin]; [exact (Hk eq_refl Hin) | exact (IH' H Hin)].
  - simpl. destruct (Nat.eqb_spec j i); [discriminate|].
    intros _ [E|[]]. contradiction.
Qed.

(** A node found inside another brings its identities along. *)
Lemma lookup_below i n x :
  lookup i n = Some x ->
  incl (flat_map ids (childNodes x)) (flat_map ids (childNodes n))
  /\ (x = n \/ In (nodeId x) (flat_map ids (childNodes n))).
Proof.
  revert x. induction n as [j t a ks IH | j d] using Node_rect_all;
    intros x H.
  - rewrite lookup_element in H. destruct (j =? i).
    + inversion H; subst. split; [apply incl_refl | left; reflexivity].
    + simpl childNodes.
      assert (Hks : incl (flat_map ids (childNodes x)) (flat_map ids ks)
                    /\ In (nodeId x) (flat_map ids ks)).
      { induction IH as [|k ks Hk _ IH']; [discriminate|].
        simpl in H. destruct (lookup i k) as [y|] eqn:Ek.
        - inversion H; subst y. destruct (Hk x eq_refl) as [Hinc Hroot].
          simpl. split.
          + intros z Hz. apply in_app_iff. left.
            rewrite ids_below. right. apply Hinc. exact Hz.
          + apply in_app_iff. left. rewrite ids_below.
            destruct Hroot as [->|Hr]; [left; reflexivity | right; exact Hr].
        - destruct (IH' H) as [Hinc Hroot].
          simpl. split.
          + intros z Hz. apply in_app_iff. right. apply Hinc. exact Hz.
          + apply in_app_iff. right. exact Hroot. }
      destruct Hks as [Hinc Hroot]. split; [exact Hinc | right; exact Hroot].
  - simpl in H. destruct (j =? i); [|discriminate].
    inversion H; subst. split; [apply incl_refl | left; reflexivity].
Qed.

Lemma lookupF_below i f x :
  lookupF i f = Some x -> incl (ids x) (forestIds f).
Proof.
  unfold forestIds. induction f as [|n f IH]; [discriminate|].
  simpl. destruct (lookup i n) as [y|] eqn:En.
  - intro H. inversion H; subst y. intros z Hz. apply in_app_iff. left.
    destruct (lookup_below _ _ _ En) as [Hinc Hroot].
    rewrite ids_below in Hz. rewrite ids_below.
    destruct Hz as [<-|Hz]; [|right; apply Hinc; exact Hz].
    destruct Hroot as [->|Hr]; [left; reflexivity | right; exact Hr].
  - intros H z Hz. apply in_app_iff. right. exact (IH H z Hz).
Qed.

Lemma removeF_ids v f x :
  In x (forestIds (removeF v f)) -> In x (forestIds f).
Proof.
  assert (H1 : forall n, In x (ids (removeIn v n)) -> In x (ids n)).
  { induction n as [j t a ks IH | j d] using Node_rect_all; [|auto].
    rewrite removeIn_element. simpl. intros [E|H]; [left; exact E|].
    right. induction IH as [|k ks Hk _ IH']; [exact H|].
    simpl in H. simpl. rewrite in_app_iff.
    destruct (nodeId k =? v); [right; exact (IH' H)|].
    simpl in H. rewrite in_app_iff in H.
    destruct H as [H|H]; [left; exact (Hk H) | right; exact (IH' H)]. }
  unfold forestIds. induction f as [|n f IH]; [auto|].
  simpl. rewrite in_app_iff.
  destruct (nodeId n =? v); [intro H; right; exact (IH H)|].
  simpl. rewrite in_app_iff.
  intros [H|H]; [left; exact (H1 n H) | right; exact (IH H)].
Qed.

(** With distinct identities in the store, a node is still found after
    something strictly below it has been removed. *)
Lemma lookupF_survives r v f doc :
  NoDup (forestIds f) ->
  lookupF r f = Some doc ->
  In v (flat_map ids (childNodes doc)) ->
  exists doc', lookupF r (removeF v f) = Some doc'.
Proof.
  assert (H1 : forall n x,
             NoDup (ids n) -> lookup r n = Some x ->
             In v (flat_map ids (childNodes x)) ->
             exists x', lookup r (removeIn v n) = Some x').
  { induction n as [j t a ks IH | j d] using Node_rect_all;
      intros x Hnd Hx Hv.
    - rewrite removeIn_element, lookup_element.
      rewrite lookup_element in Hx.
      destruct (j =? r); [eauto|].
      simpl in Hnd. apply NoDup_cons_iff in Hnd. destruct Hnd as [_ Hnd].
      revert Hnd Hx. induction IH as [|k ks Hk _ IH']; intros Hnd Hx;
        [discriminate|].
      simpl in Hnd, Hx. apply NoDup_app_remove_l in Hnd as Hnd2.
      apply NoDup_app_remove_r in Hnd as Hnd1.
      destruct (lookup r k) as [y|] eqn:Ek.
      + inversion Hx; subst y.
        destruct (lookup_below _ _ _ Ek) as [Hinc _].
        simpl. destruct (Nat.eqb_spec (nodeId k) v) as [E|_].
        * exfalso. rewrite ids_below in Hnd1.
          apply NoDup_cons_iff in Hnd1. destruct Hnd1 as [Hout _].
          apply Hout. rewrite E. apply Hinc. exact Hv.
        * simpl. destruct (Hk x Hnd1 eq_refl Hv) as [x' ->]. eauto.
      + simpl. destruct (Nat.eqb_spec (nodeId k) v) as [E|_].
        * apply IH'; assumption.
        * simpl.
          destruct (lookup r (removeIn v k)); [eauto|].
          apply IH'; assumption.
    - simpl in *. destruct (j =? r); [eauto | discriminate]. }
  unfold forestIds. induction f as [|n f IH]; intros Hnd Hdoc Hv;
    [discriminate|].
  simpl in Hnd, Hdoc. apply NoDup_app_remove_l in Hnd as Hnd2.
  apply NoDup_app_remove_r in Hnd as Hnd1.
  destruct (lookup r n) as [y|] eqn:En.
  - inversion Hdoc; subst y.
    destruct (lookup_below _ _ _ En) as [Hinc _].
    simpl. destruct (Nat.eqb_spec (nodeId n) v) as [E|_].
    + exfalso. rewrite ids_below in Hnd1.
      apply NoDup_cons_iff in Hnd1. destruct Hnd1 as [Hout _].
      apply Hout. rewrite E. apply Hinc. exact Hv.
    + simpl. destruct (H1 n doc Hnd1 En Hv) as [x' ->]. eauto.
  - simpl. destruct (Nat.eqb_spec (nodeId n) v) as [E|_].
    + exfalso.
      assert (Hvf : In v (forestIds f)).
      { apply (lookupF_below _ _ _ Hdoc). rewrite ids_below. right.
        exact Hv. }
      rewrite ids_below in Hnd. simpl in Hnd.
      apply NoDup_cons_iff in Hnd. destruct Hnd as [Hout _].
      apply Hout. apply in_app_iff. right. rewrite E. exact Hvf.
    + simpl. destruct (lookup r (removeIn v n)); [eauto|].
      apply IH; assumption.
Qed.

Lemma child_below k n :
  In k (childNodes n) -> In (nodeId k) (flat_map ids (childNodes n)).
Proof.
  intro H. apply in_flat_map. exists k. split; [exact H|].
  rewrite ids_below. left. reflexivity.
Qed.

Lemma hasChild_below i n :
  hasChild i n = true -> In i (flat_map ids (childNodes n)).
Proof.
  unfold hasChild. intro H. apply existsb_exists in H.
  destruct H as (k & Hk & E). apply Nat.eqb_eq in E. subst i.
  apply child_below. exact Hk.
Qed.

Lemma ancestorsIn_element i j t a ks :
  ancestorsIn i (Element j t a ks) =
    if hasChild i (Element j t a ks) then Some [Element j t a ks]
    else option_map (fun l => l ++ [Element j t a ks]) (ancestorsOf i ks).
Proof. reflexivity. Qed.

(** Every ancestor is the node searched or lies strictly below it, and
    so do its children and the node whose ancestors they are. *)
Lemma ancestorsIn_below p n anc :
  ancestorsIn p n = Some anc ->
  In p (flat_map ids (childNodes n))
  /\ forall q, In q anc ->
       incl (flat_map ids (childNodes q)) (flat_map ids (childNodes n))
       /\ (q = n \/ In (nodeId q) (flat_map ids (childNodes n))).
Proof.
  revert anc. induction n as [j t a ks IH | j d] using Node_rect_all;
    intros anc H; [|discriminate].
  rewrite ancestorsIn_element in H.
  destruct (hasChild p (Element j t a ks)) eqn:Hc.
  - inversion H; subst. split; [apply hasChild_below; exact Hc|].
    intros q [<-|[]]. split; [apply incl_refl | left; reflexivity].
  - destruct (ancestorsOf p ks) as [l|] eqn:El; [|discriminate].
    inversion H; subst anc. clear H Hc. simpl childNodes.
    assert (Hks : In p (flat_map ids ks)
                  /\ forall q, In q l ->
                       incl (flat_map ids (childNodes q)) (flat_map ids ks)
                       /\ In (nodeId q) (flat_map ids ks)).
    { revert l El. induction IH as [|k ks Hk _ IH']; intros l El;
        [discriminate|].
      simpl in El. destruct (ancestorsIn p k) as [l0|] eqn:Ek.
      - inversion El; subst l0. destruct (Hk l eq_refl) as [Hp Hq].
        simpl. split.
        + apply in_app_iff. left. rewrite ids_below. right. exact Hp.
        + intros q Hin. destruct (Hq q Hin) as [Hinc Hroot]. split.
          * intros z Hz. apply in_app_iff. left. rewrite ids_below.
            right. apply Hinc. exact Hz.
          * apply in_app_iff. left. rewrite ids_below.
            destruct Hroot as [->|Hr]; [left; reflexivity | right; exact Hr].
      - destruct (IH' l El) as [Hp Hq]. simpl. split.
        + apply in_app_iff. right. exact Hp.
        + intros q Hin. destruct (Hq q Hin) as [Hinc Hroot]. split.
          * intros z Hz. apply in_app_iff. right. apply Hinc. exact Hz.
          * apply in_app_iff. right. exact Hroot. }
    destruct Hks as [Hp Hq]. split; [exact Hp|].
    intros q Hin. apply in_app_iff in Hin. destruct Hin as [Hin|[<-|[]]].
    + destruct (Hq q Hin) as [Hinc Hroot].
      split; [exact Hinc | right; exact Hroot].
    + split; [apply incl_refl | left; reflexivity].
Qed.

Lemma nextSibling_in i l x : nextSibling i l = Some x -> In x l.
Proof.
  induction l as [|a l IH]; [discriminate|]. simpl.
  destruct (nodeId a =? i).
  - destruct l as [|b l']; [discriminate|]. simpl.
    intro H. inversion H. right. left. reflexivity.
  - intro H. right. exact (IH H).
Qed.


(* ===================================================================== *)
(** ** Removal *)
(* ===================================================================== *)

Section Removal.
Context {imports : Imports}.

(** [update().then(this.scrollToCaret)] returns once the document is in
    the store, and adds at most a detached copy to the store. *)
Lemma update_then_returns (s : Editor) (doc : Node) :
  document s = Some doc ->
  exists st' extra,
    (u <- update ;; then_ u ScrollToCaretK) s = Ret tt st'
    /\ position st' = position s /\ value st' = value s
    /\ store st' = store s ++ extra.
Proof.
  intro Hdoc. mrun.
  destruct (elementJax s) eqn:Hjax.
  - rewrite (update_with_renderer s doc Hjax Hdoc).
    eexists. exists [fst (build (fresh (store s)) (shape doc))].
    split; [reflexivity|]. destruct s; repeat split.
  - rewrite (update_settled s Hjax).
    eexists. exists []. split; [reflexivity|].
    destruct s; simpl. rewrite app_nil_r. repeat split.
Qed.

Lemma set_same (st : Editor) :
  set_position (position st) (set_store (store st) st) = st.
Proof. destruct st; reflexivity. Qed.

(** At the start of the document there is nothing before the caret, and
    in an empty document there is nothing after it. *)
Lemma nothing_before_start (root : NodeId) (f : Forest) :
  elementBefore root None f = None.
Proof. reflexivity. Qed.

Lemma nothing_after_in_empty (root : NodeId) (f : Forest) t a :
  lookupF root f = Some (Element root t a []) ->
  elementAfter root None f = None.
Proof. intro H. unfold elementAfter. rewrite H. reflexivity. Qed.

(** What a cascade removes is the node it starts from or one of its
    ancestors other than the root. *)
Lemma cascade_victim f root victim anc v up :
  cascade f root victim anc = (v, up) ->
  v = victim \/ (In v anc /\ nodeId v <> root).
Proof.
  revert victim. induction anc as [|q anc IH]; intros victim H.
  - inversion H. left. reflexivity.
  - simpl in H.
    destruct (Nat.eqb_spec (nodeId q) root) as [E|Hne].
    + rewrite andb_false_r in H. simpl in H. inversion H. left. reflexivity.
    + destruct ((List.length (childNodes q) =? 1) && negb false
                && negb (requiredSlot f (nodeId q))).
      * destruct (IH q H) as [->|[Hin Hr]]; right.
        -- split; [left; reflexivity | exact Hne].
        -- split; [right; exact Hin | exact Hr].
      * inversion H. left. reflexivity.
Qed.

(** With distinct identities in the store and the document in it, the
    removals return. *)
Lemma removal_returns (d : Direction) (st : Editor) (doc : Node) :
  NoDup (forestIds (store st)) ->
  document st = Some doc ->
  exists st', removal d st = Ret tt st'.
Proof.
  intros Hnd Hdoc. unfold document in Hdoc.
  pose proof (lookupF_id _ _ _ Hdoc) as Hroot.
  assert (Hrun : forall s' p',
             (exists doc', lookupF (value st) s' = Some doc') ->
             exists st',
               (modify_ (set_store s') ;; setPosition p' ;;
                u <- update ;; then_ u ScrollToCaretK) st = Ret tt st').
  { intros s' p' [doc' Hdoc'].
    destruct (update_then_returns (set_position p' (set_store s' st)) doc')
      as (st' & _ & Hrun & _).
    { unfold document. destruct st; exact Hdoc'. }
    exists st'. exact Hrun. }
  assert (Hgone : forall v,
             In v (flat_map ids (childNodes doc)) ->
             exists doc', lookupF (value st) (removeF v (store st))
                          = Some doc').
  { intros v Hv. eapply lookupF_survives; eauto. }
  destruct d; simpl removal.
  - (* backspace *)
    unfold backspaceRemove. unfold bind at 1 2 3. unfold getPosition, gets.
    unfold applyBackspace, elementBefore.
    destruct (position st) as [p|]; [|apply Hrun; eauto].
    rewrite Hdoc.
    destruct (lookup p doc) as [target|] eqn:Et; [|apply Hrun; eauto].
    destruct (ancestorsIn p doc) as [anc|] eqn:Ea; [|apply Hrun; eauto].
    destruct (cascade (store st) (value st) target anc) as [v up] eqn:Ec.
    apply Hrun. apply Hgone.
    destruct (ancestorsIn_below _ _ _ Ea) as [Hp Hq].
    destruct (cascade_victim _ _ _ _ _ _ Ec) as [->|[Hin Hne]].
    + assert (E : nodeId target = p).
      { apply (lookupF_id p [doc]). simpl. rewrite Et. reflexivity. }
      rewrite E. exact Hp.
    + destruct (Hq v Hin) as [_ [->|Hb]]; [contradiction | exact Hb].
  - (* delete *)
    unfold deleteRemove. unfold bind at 1 2 3. unfold getPosition, gets.
    unfold applyDelete, elementAfter. rewrite Hdoc.
    destruct (position st) as [p|].
    + destruct (ancestorsIn p doc) as [[|q anc]|] eqn:Ea;
        try (apply Hrun; eauto).
      destruct (nextSibling p (childNodes q)) as [v|] eqn:En;
        [|apply Hrun; eauto].
      apply Hrun. apply Hgone.
      destruct (ancestorsIn_below _ _ _ Ea) as [_ Hq].
      destruct (Hq q (or_introl eq_refl)) as [Hinc _].
      apply Hinc. apply child_below. eapply nextSibling_in; eauto.
    + destruct (childNodes doc) as [|v ks] eqn:Ek; simpl;
        [apply Hrun; eauto|].
      apply Hrun. apply Hgone. rewrite ?Ek. simpl.
      apply in_app_iff. left. rewrite ids_below. left. reflexivity.
Qed.

Lemma removeIn_ids v n x : In x (ids (removeIn v n)) -> In x (ids n).
Proof.
  destruct n as [j t a ks | j d]; [|auto].
  rewrite removeIn_element. simpl.
  intros [E|H]; [left; exact E | right; exact (removeF_ids v ks x H)].
Qed.

Lemma lookup_removeIn_none r v n :
  lookup r n = None -> lookup r (removeIn v n) = None.
Proof.
  intro H. apply lookup_outside. intro Hin.
  exact (lookup_missing _ _ H (removeIn_ids _ _ _ Hin)).
Qed.

(** With distinct identities in the store, a node found before
    something strictly below it is removed is found afterwards without
    it. *)
Lemma lookupF_removeF r v f doc :
  NoDup (forestIds f) ->
  lookupF r f = Some doc ->
  In v (flat_map ids (childNodes doc)) ->
  lookupF r (removeF v f) = Some (removeIn v doc).
Proof.
  assert (HF : forall ks x,
             Forall (fun n => forall x, NoDup (ids n) ->
                                lookup r n = Some x ->
                                In v (flat_map ids (childNodes x)) ->
                                lookup r (removeIn v n)
                                = Some (removeIn v x)) ks ->
             NoDup (forestIds ks) -> lookupF r ks = Some x ->
             In v (flat_map ids (childNodes x)) ->
             lookupF r (removeF v ks) = Some (removeIn v x)).
  { intros ks x IH. induction IH as [|k ks Hk _ IH']; intros Hnd Hx Hv;
      [discriminate|].
    unfold forestIds in Hnd. simpl in Hnd, Hx.
    apply NoDup_app_remove_l in Hnd as Hnd2.
    apply NoDup_app_remove_r in Hnd as Hnd1.
    destruct (lookup r k) as [y|] eqn:Ek.
    - inversion Hx; subst y.
      destruct (lookup_below _ _ _ Ek) as [Hinc _].
      simpl. destruct (Nat.eqb_spec (nodeId k) v) as [E|_].
      + exfalso. rewrite ids_below in Hnd1.
        apply NoDup_cons_iff in Hnd1. destruct Hnd1 as [Hout _].
        apply Hout. rewrite E. apply Hinc. exact Hv.
      + simpl. rewrite (Hk x Hnd1 eq_refl Hv). reflexivity.
    - simpl. destruct (Nat.eqb_spec (nodeId k) v) as [E|_].
      + apply IH'; assumption.
      + simpl. rewrite (lookup_removeIn_none _ _ _ Ek).
        apply IH'; assumption. }
  assert (H1 : forall n x,
             NoDup (ids n) -> lookup r n = Some x ->
             In v (flat_map ids (childNodes x)) ->
             lookup r (removeIn v n) = Some (removeIn v x)).
  { induction n as [j t a ks IH | j d] using Node_rect_all;
      intros x Hnd Hx Hv.
    - rewrite removeIn_element, lookup_element.
      rewrite lookup_element in Hx.
      destruct (j =? r).
      + inversion Hx. rewrite removeIn_element. reflexivity.
      + simpl in Hnd. apply NoDup_cons_iff in Hnd. destruct Hnd as [_ Hnd].
        apply HF; assumption.
    - simpl in *. destruct (j =? r); [|discriminate].
      inversion Hx. reflexivity. }
  intros Hnd Hdoc Hv. apply HF; try assumption.
  apply Forall_forall. intros n _. apply H1.
Qed.

Lemma lookupF_nodup r f x :
  NoDup (forestIds f) -> lookupF r f = Some x -> NoDup (ids x).
Proof.
  assert (HF : forall ks,
             Forall (fun n => forall x, NoDup (ids n) ->
                                lookup r n = Some x -> NoDup (ids x)) ks ->
             NoDup (forestIds ks) -> lookupF r ks = Some x ->
             NoDup (ids x)).
  { intros ks IH. induction IH as [|k ks Hk _ IH']; intros Hnd Hx;
      [discriminate|].
    unfold forestIds in Hnd. simpl in Hnd, Hx.
    apply NoDup_app_remove_l in Hnd as Hnd2.
    apply NoDup_app_remove_r in Hnd as Hnd1.
    destruct (lookup r k) as [y|] eqn:Ek.
    - inversion Hx; subst y. exact (Hk x Hnd1 eq_refl).
    - apply IH'; assumption. }
  assert (H1 : forall n y, NoDup (ids n) -> lookup r n = Some y ->
                           NoDup (ids y)).
  { induction n as [j t a ks IH | j d] using Node_rect_all;
      intros y Hnd Hy.
    - rewrite lookup_element in Hy. destruct (j =? r).
      + inversion Hy; subst. exact Hnd.
      + simpl in Hnd. apply NoDup_cons_iff in Hnd. destruct Hnd as [_ Hnd].
        clear HF.
        induction IH as [|k ks Hk _ IH']; [discriminate|].
        unfold forestIds in Hnd. simpl in Hnd, Hy.
        apply NoDup_app_remove_l in Hnd as Hnd2.
        apply NoDup_app_remove_r in Hnd as Hnd1.
        destruct (lookup r k) as [z|] eqn:Ek.
        * inversion Hy; subst z. exact (Hk y Hnd1 eq_refl).
        * apply IH'; assumption.
    - simpl in Hy. destruct (j =? r); [|discriminate].
      inversion Hy; subst. exact Hnd. }
  intros Hnd Hx. apply (HF f); try assumption.
  apply Forall_forall. intros n _ y. apply H1.
Qed.

Lemma roots_below ks p : In p (map nodeId ks) -> In p (forestIds ks).
Proof.
  intro H. apply in_map_iff in H. destruct H as (k & <- & Hk).
  apply in_flat_map. exists k. split; [exact Hk|].
  rewrite ids_below. left. reflexivity.
Qed.

Lemma child_unique ks1 n ks2 :
  NoDup (forestIds (ks1 ++ n :: ks2)) ->
  ~ In (nodeId n) (forestIds (ks1 ++ ks2)).
Proof.
  rewrite !forestIds_app. unfold forestIds at 2. simpl.
  rewrite ids_below. simpl. intro H.
  apply NoDup_remove_2 in H. intro Hin. apply H.
  rewrite !in_app_iff in *. tauto.
Qed.

Lemma previousSibling_at p ks1 n ks2 :
  nodeId n = p -> ~ In p (map nodeId ks1) ->
  previousSibling p (ks1 ++ n :: ks2) = hd_error (rev ks1).
Proof.
  intros Hn. induction ks1 as [|a ks1 IH]; intro Hout.
  - simpl. rewrite Hn, Nat.eqb_refl. reflexivity.
  - simpl in Hout.
    assert (Ha : nodeId a <> p) by tauto.
    assert (Hout' : ~ In p (map nodeId ks1)) by tauto.
    specialize (IH Hout').
    cbn [app previousSibling].
    destruct (Nat.eqb_spec (nodeId a) p); [contradiction|].
    destruct ks1 as [|b ks1].
    + simpl. rewrite Hn, Nat.eqb_refl. reflexivity.
    + cbn [app]. cbn [app] in IH.
      destruct (Nat.eqb_spec (nodeId b) p) as [E|_];
        [exfalso; apply Hout'; left; exact E|].
      rewrite IH. cbn [rev].
      destruct (rev ks1 ++ [b]) as [|x l] eqn:E;
        [destruct (rev ks1); discriminate | reflexivity].
Qed.

Lemma nextSibling_at p ks1 n ks2 :
  nodeId n = p -> ~ In p (map nodeId ks1) ->
  nextSibling p (ks1 ++ n :: ks2) = hd_error ks2.
Proof.
  intros Hn. induction ks1 as [|a ks1 IH]; intro Hout; simpl.
  - rewrite Hn, Nat.eqb_refl. reflexivity.
  - simpl in Hout. destruct (Nat.eqb_spec (nodeId a) p); [tauto|].
    apply IH. tauto.
Qed.

Lemma hasChild_at p j t a ks1 n ks2 :
  nodeId n = p -> hasChild p (Element j t a (ks1 ++ n :: ks2)) = true.
Proof.
  intro Hn. unfold hasChild. simpl. rewrite existsb_app. simpl.
  rewrite Hn, Nat.eqb_refl. apply orb_true_r.
Qed.

(** Past a boundary of the document there is nothing to remove. *)
Lemma boundary_nothing (d : Direction) (st : Editor) (doc : Node) :
  document st = Some doc ->
  atBoundary d doc (position st) ->
  nothingToRemove d (value st) (position st) (store st).
Proof.
  unfold document. intros Hdoc Hb. destruct d; simpl in *.
  - rewrite Hb. reflexivity.
  - unfold elementAfter. rewrite Hdoc.
    destruct (position st) as [p|]; [|rewrite Hb; reflexivity].
    destruct Hb as (ks & n & Hks & Hn & Hout).
    destruct doc as [j t a cs | j x]; simpl in Hks;
      [|destruct ks; discriminate].
    subst cs. rewrite ancestorsIn_element, (hasChild_at p) by exact Hn.
    cbn [childNodes]. rewrite (nextSibling_at p) by assumption.
    reflexivity.
Qed.

(** What the editor is left with by a removal, given what the operation
    returns. *)
Lemma removal_runs (d : Direction) (st : Editor) (s' : Forest)
  (p' : option NodeId) (doc' : Node) :
  applyRemoval d (value st) (position st) (store st) = (s', p') ->
  lookupF (value st) s' = Some doc' ->
  exists st',
    removal d st = Ret tt st'
    /\ document st' = Some doc' /\ position st' = p'.
Proof.
  intros Hop Hdoc'.
  destruct (update_then_returns (set_position p' (set_store s' st)) doc')
    as (st' & extra & Hrun & Hp & Hv & Hs).
  { unfold document. destruct st; exact Hdoc'. }
  exists st'. split.
  - rewrite <- Hrun.
    destruct d; simpl in Hop; simpl removal;
      [unfold backspaceRemove | unfold deleteRemove];
      unfold bind at 1 2 3; unfold getPosition, gets;
      rewrite Hop; unfold bind at 1 2; unfold setPosition, modify_;
      reflexivity.
  - split; [|rewrite Hp; destruct st; reflexivity].
    unfold document. rewrite Hv, Hs.
    replace (value (set_position p' (set_store s' st))) with (value st)
      by (destruct st; reflexivity).
    replace (store (set_position p' (set_store s' st))) with s'
      by (destruct st; reflexivity).
    apply lookupF_app_found. exact Hdoc'.
Qed.

(** What the operations do at a child of the document. *)
Lemma applyRemoval_child (d : Direction) (root : NodeId) (f : Forest)
  (t : string) (a : list (string * string)) (ks1 : list Node) (n : Node)
  (ks2 : list Node) :
  NoDup (forestIds f) ->
  lookupF root f = Some (Element root t a (ks1 ++ n :: ks2)) ->
  exists f',
    applyRemoval d root (Some (nodeId n)) f
    = (f', match d with
           | Backward => option_map nodeId (hd_error (rev ks1))
           | Forward => Some (nodeId n)
           end)
    /\ lookupF root f'
       = Some (Element root t a
                 (match d with
                  | Backward => ks1 ++ ks2
                  | Forward => ks1 ++ n :: tl ks2
                  end)).
Proof.
  intros Hnd Hdoc.
  set (doc := Element root t a (ks1 ++ n :: ks2)) in *.
  pose proof (lookupF_nodup _ _ _ Hnd Hdoc) as Hnd'.
  simpl in Hnd'. apply NoDup_cons_iff in Hnd'. destruct Hnd' as [Hr Hks].
  fold (forestIds (ks1 ++ n :: ks2)) in Hr, Hks.
  pose proof (child_unique _ _ _ Hks) as Hout.
  assert (Hout1 : ~ In (nodeId n) (map nodeId ks1)).
  { intro H. apply Hout. rewrite forestIds_app. apply in_app_iff. left.
    apply roots_below. exact H. }
  assert (Hne : root <> nodeId n).
  { intro E. apply Hr. rewrite forestIds_app. apply in_app_iff. right.
    unfold forestIds. simpl. apply in_app_iff. left.
    rewrite ids_below. left. symmetry. exact E. }
  assert (Hanc : ancestorsIn (nodeId n) doc = Some [doc]).
  { unfold doc. rewrite ancestorsIn_element, hasChild_at; reflexivity. }
  destruct d; simpl applyRemoval.
  - (* backspace *)
    assert (Hlook : lookup (nodeId n) doc = Some n).
    { unfold doc. rewrite lookup_element.
      destruct (Nat.eqb_spec root (nodeId n)); [contradiction|].
      apply lookupF_detached. exact Hout. }
    unfold applyBackspace, elementBefore. rewrite Hdoc, Hlook, Hanc.
    unfold cascade, doc. cbn [nodeId childNodes]. rewrite Nat.eqb_refl.
    rewrite andb_false_r. cbn [andb nodeId childNodes].
    rewrite (previousSibling_at (nodeId n)) by (reflexivity || exact Hout1).
    rewrite Nat.eqb_refl.
    eexists. split; [reflexivity|].
    rewrite (lookupF_removeF _ _ _ _ Hnd Hdoc).
    + unfold doc. rewrite removeIn_element, removeF_detached by exact Hout.
      reflexivity.
    + apply child_below. simpl. apply in_app_iff. right. left. reflexivity.
  - (* delete *)
    unfold applyDelete, elementAfter. rewrite Hdoc, Hanc.
    unfold doc at 1. cbn [childNodes].
    rewrite (nextSibling_at (nodeId n)) by (reflexivity || exact Hout1).
    destruct ks2 as [|m ks2]; cbn [hd_error tl].
    + exists f. split; [reflexivity | exact Hdoc].
    + eexists. split; [reflexivity|].
      rewrite (lookupF_removeF _ _ _ _ Hnd Hdoc).
      * unfold doc. rewrite removeIn_element.
        change (ks1 ++ n :: m :: ks2) with (ks1 ++ [n] ++ m :: ks2).
        rewrite app_assoc, removeF_detached.
        -- rewrite <- app_assoc. reflexivity.
        -- rewrite <- app_assoc.
           change (ks1 ++ n :: m :: ks2)
             with (ks1 ++ [n] ++ m :: ks2) in Hks.
           rewrite app_assoc in Hks.
           pose proof (child_unique _ _ _ Hks) as H.
           rewrite <- app_assoc in H. exact H.
      * apply child_below. simpl. apply in_app_iff. right. right. left.
        reflexivity.
Qed.

(** C4.  [backspaceRemove] and [deleteRemove] return without an error
    on every store with distinct identities that holds the document,
    wherever the cursor is.  Past a boundary of the document (a backspace
    with the cursor at the start, a delete with the cursor at the last
    child of the document or in a document without children) the
    operations return the tree and the position they were given, and the
    document and the cursor of the editor are as before.  Off the
    boundary they do remove: at a child of the document a backspace takes
    out that child and leaves the cursor at the child before it, or at no
    position when it was the first, and a delete takes out the child
    after it and leaves the cursor where it is. *)
Theorem removal_past_boundary (d : Direction) (st : Editor) (doc : Node) :
  document st = Some doc ->
  (NoDup (forestIds (store st)) -> exists st', removal d st = Ret tt st')
  /\ (atBoundary d doc (position st) ->
      applyRemoval d (value st) (position st) (store st)
        = (store st, position st)
      /\ exists st',
           removal d st = Ret tt st'
           /\ document st' = Some doc /\ position st' = position st)
  /\ (NoDup (forestIds (store st)) ->
      forall t a ks1 n ks2,
        doc = Element (value st) t a (ks1 ++ n :: ks2) ->
        position st = Some (nodeId n) ->
        exists st',
          removal d st = Ret tt st'
          /\ document st'
             = Some (Element (value st) t a
                       (match d with
                        | Backward => ks1 ++ ks2
                        | Forward => ks1 ++ n :: tl ks2
                        end))
          /\ position st'
             = match d with
               | Backward => option_map nodeId (hd_error (rev ks1))
               | Forward => Some (nodeId n)
               end).
Proof.
  intro Hdoc.
  split; [intro Hnd; exact (removal_returns d st doc Hnd Hdoc)|].
  split.
  - intro Hb. pose proof (boundary_nothing d st doc Hdoc Hb) as Hnothing.
    assert (Hop : applyRemoval d (value st) (position st) (store st)
                  = (store st, position st)).
    { destruct d; simpl in *.
      - unfold applyBackspace. rewrite Hnothing. reflexivity.
      - unfold applyDelete. rewrite Hnothing. reflexivity. }
    split; [exact Hop|].
    exact (removal_runs d st _ _ doc Hop Hdoc).
  - intros Hnd t a ks1 n ks2 -> Hpos.
    destruct (applyRemoval_child d (value st) (store st) t a ks1 n ks2
                Hnd Hdoc) as (f' & Hop & Hdoc').
    rewrite <- Hpos in Hop at 1.
    destruct (removal_runs d st _ _ _ Hop Hdoc') as (st' & Hrun & Hd & Hp).
    exists st'. split; [exact Hrun|]. split; [exact Hd | exact Hp].
Qed.

End Removal.

Lemma removal_past_boundary_witness :
  (exists st',
      removal (imports := exampleImports) Forward
        (set_position (Some 4) symbolsEditor) = Ret tt st'
      /\ document st' = Some (Element 1 "math" [] [mi 2; mi 3; mi 4])
      /\ position st' = Some 4)
  /\ exists st',
       removal (imports := exampleImports) Backward symbolsEditor
         = Ret tt st'
       /\ document st' = Some (Element 1 "math" [] [mi 2; mi 4])
       /\ position st' = Some 2.
Proof.
  split.
  - destruct (removal_past_boundary (imports := exampleImports) Forward
                (set_position (Some 4) symbolsEditor)
                (Element 1 "math" [] [mi 2; mi 3; mi 4]) eq_refl)
      as (_ & Hb & _).
    apply Hb. exists [mi 2; mi 3], (mi 4).
    split; [reflexivity|]. split; [reflexivity|].
    simpl. intros [H|[H|[]]]; discriminate H.
  - destruct (removal_past_boundary (imports := exampleImports) Backward
                symbolsEditor (Element 1 "math" [] [mi 2; mi 3; mi 4])
                eq_refl) as (_ & _ & Hc).
    apply (Hc ltac:(vm_compute; repeat (constructor; [simpl; lia|]);
                    constructor)
              "math" [] [mi 2] (mi 3) [mi 4] eq_refl eq_refl).
Defined.

(* ===================================================================== *)
(** ** [getValue] *)
(* ===================================================================== *)

Lemma modifyF_outside i g f : ~ In i (forestIds f) -> modifyF i g f = f.
Proof.
  assert (H1 : forall n, ~ In i (ids n) -> modify i g n = n).
  { induction n as [j t a ks IH | j d] using Node_rect_all; intro H.
    - rewrite modify_element. simpl in H.
      destruct (Nat.eqb_spec j i) as [->|_]; [tauto|].
      f_equal. assert (Hks : ~ In i (flat_map ids ks)) by tauto. clear H.
      induction IH as [|k ks Hk _ IH']; [reflexivity|].
      simpl in Hks. rewrite in_app_iff in Hks. simpl.
      fold (modifyF i g ks). rewrite Hk, IH' by tauto. reflexivity.
    - simpl in *. destruct (Nat.eqb_spec j i); [tauto | reflexivity]. }
  unfold forestIds, modifyF. induction f as [|n f IH]; intro H;
    [reflexivity|].
  simpl in H. rewrite in_app_iff in H. simpl.
  rewrite H1, IH by tauto. reflexivity.
Qed.


Lemma getValue_copies (st : Editor) (doc : Node) :
  document st = Some doc ->
  getValue st =
    Ret (fresh (store st))
      (set_store (store st ++ [fst (build (fresh (store st)) (shape doc))])
                 st).
Proof.
  intro H. unfold getValue. unfold bind, gets.
  apply getCleanCopy_runs. exact H.
Qed.

Section GetValue.
Context {imports : Imports}.


End GetValue.



Lemma setValue_all_or_nothing_witness :
  rejected (imports := exampleImports) (VString "x") freshEditor emptyMath.
Proof.
  exact (setValue_all_or_nothing (imports := exampleImports)
           (VString "x") freshEditor emptyMath eq_refl).
Defined.

(* ===================================================================== *)
(** ** Worked examples *)
(* ===================================================================== *)

Example trim_both_ends :
  trim [32; 9; 97; 32; 98; 160; 10]%N = [97; 32; 98]%N.
Proof. reflexivity. Qed.

Example lower_case_tag : toLowerCase "MaTh" = "math".
Proof. reflexivity. Qed.

Example backspace_middle :
  applyBackspace (imports := exampleImports) 1 (Some 3) threeSymbols
  = ([Element 0 "div" [] [Element 1 "math" [] [mi 2; mi 4]]], Some 2).
Proof. reflexivity. Qed.

Example backspace_cascades :
  applyBackspace (imports := exampleImports) 1 (Some 3) rowOfOne
  = ([Element 0 "div" [] [Element 1 "math" [] []]], None).
Proof. reflexivity. Qed.

Example delete_next :
  applyDelete 1 (Some 2) threeSymbols
  = ([Element 0 "div" [] [Element 1 "math" [] [mi 2; mi 4]]], Some 2).
Proof. reflexivity. Qed.

Example delete_at_end :
  applyDelete 1 (Some 4) threeSymbols = (threeSymbols, Some 4).
Proof. reflexivity. Qed.

Example insert_after_symbol :
  children 1
    (store (final (insert (imports := exampleImports) 9 None symbolsEditor)))
  = Some [mi 2; mi 3; mi 9; mi 4].
Proof. reflexivity. Qed.

Example insert_at_document_node :
  children 1
    (store (final (insert (imports := exampleImports) 9 None
                     (set_position (Some 1) symbolsEditor))))
  = Some [mi 2; mi 3; mi 4; mi 9].
Proof. reflexivity. Qed.

Example insert_without_position :
  children 1
    (store (final (insert (imports := exampleImports) 9 (Some 4)
                     (set_position None symbolsEditor))))
  = Some [mi 9; mi 2; mi 3; mi 4]
  /\ position (final (insert (imports := exampleImports) 9 (Some 4)
                        (set_position None symbolsEditor)))
     = Some 4.
Proof. split; reflexivity. Qed.

Example setValue_parses_string :
  option_map shape
    (document (final (setValue (imports := exampleImports)
                        (VString "<math></math>") symbolsEditor)))
  = Some (SElement "math" [] [])
  /\ position (final (setValue (imports := exampleImports)
                        (VString "<math></math>") symbolsEditor))
     = None.
Proof. split; reflexivity. Qed.

(** The scenario of two updates whose round-trips resolve in the
    opposite order, run from the constructor on: the geometry map is the
    one of the document with the [mi] element, which the second call
    submitted. *)
Example geometry_after_reordering :
  option_map shape (document outOfOrder)
    = Some (SElement "math" [] [SElement "mi" [] []])
  /\ geometry outOfOrder
     = Some (toDisplay (SElement "math" [] [SElement "mi" [] []])
               "Start typing...")
  /\ pending outOfOrder = [].
Proof. vm_compute. repeat split. Qed.

(* ===================================================================== *)
(** * The rest of the class *)
(* ===================================================================== *)

(* ===================================================================== *)
(** ** Which method writes what *)
(* ===================================================================== *)

Ltac ignore_setters :=
  intros;
  repeat match goal with
         | H : ignores ?f ?set |- context [?f (?set _ _)] => rewrite (H _ _)
         end;
  reflexivity.

Ltac frame_step :=
  match goal with
  | |- keeps _ (bind _ _) => apply keeps_bind; [ | intro ]
  | |- keeps _ (ret _) => apply keeps_ret
  | |- keeps _ (throw _) => apply keeps_throw
  | |- keeps _ (gets _) => apply keeps_gets
  | |- keeps _ (modify_ _) => apply keeps_modify; ignore_setters
  | |- keeps _ (if ?b then _ else _) => destruct b
  | |- keeps _ (let '(_, _) := ?x in _) => destruct x
  | |- keeps _ (match ?x with _ => _ end) => destruct x
  end.

Ltac frame := repeat frame_step.

Section Writes.
Context {imports : Imports} {B : Type} (f : Editor -> B).
Hypothesis Hstore : ignores f set_store.
Hypothesis Hvalue : ignores f set_value.
Hypothesis Hposition : ignores f set_position.
Hypothesis Hfocused : ignores f set_focused.
Hypothesis Hactive : ignores f set_inputActive.
Hypothesis Hmouse : ignores f set_mouseAtDisplay.
Hypothesis Hjax : ignores f set_elementJax.
Hypothesis Hinput : ignores f set_inputValue.
Hypothesis Hlisteners : ignores f set_listeners.
Hypothesis Hattached : ignores f set_attached.
Hypothesis Hblinker : ignores f set_blinker.
Hypothesis Harmed : ignores f set_resizeArmed.
Hypothesis Hpending : ignores f set_pending.
Hypothesis Hticket : ignores f set_nextTicket.
Hypothesis Hdisplay : ignores f set_display.
Hypothesis Hgeometry : ignores f set_geometry.
Hypothesis Hlog : ignores f set_log.

Lemma frame_effect e : keeps f (effect e).
Proof. unfold effect. frame. Qed.

Lemma frame_deref i : keeps f (deref i).
Proof. unfold deref. frame. Qed.

Lemma frame_lcc t : keeps f (lcc t).
Proof. unfold lcc. frame. Qed.

Lemma frame_lccIs t x : keeps f (lccIs t x).
Proof. unfold lccIs. frame. apply frame_lcc. Qed.

Lemma frame_createElement t a : keeps f (createElement t a).
Proof. unfold createElement. frame. Qed.

Lemma frame_insertInto place p el : keeps f (insertInto place p el).
Proof. unfold insertInto. frame; apply frame_deref. Qed.

Lemma frame_appendElementAfter r el : keeps f (appendElementAfter r el).
Proof. unfold appendElementAfter. frame; apply frame_deref. Qed.

Lemma frame_getCleanCopy r : keeps f (getCleanCopy r).
Proof. unfold getCleanCopy. frame. apply frame_deref. Qed.

Lemma frame_run k : keeps f (run k).
Proof. destruct k. apply frame_effect. Qed.

Lemma frame_runAll ks : keeps f (runAll ks).
Proof.
  induction ks as [|k ks IH]; simpl.
  - apply keeps_ret.
  - apply keeps_bind; [apply frame_run | intro; exact IH].
Qed.

Lemma frame_then p k : keeps f (then_ p k).
Proof. unfold then_. destruct p; [apply frame_run | frame]. Qed.

Lemma frame_update : keeps f update.
Proof.
  unfold update, getValue, jaxSetValueUpdate, emit.
  frame;
    first [ apply frame_effect | apply frame_deref
          | apply frame_getCleanCopy ].
Qed.

Lemma frame_handleFocus : keeps f handleFocus.
Proof. unfold handleFocus, emit. frame; apply frame_effect. Qed.

Lemma frame_focusEvent ls : keeps f (focusEvent ls).
Proof.
  induction ls as [|l ls IH]; simpl; [apply keeps_ret|].
  destruct (registeredAs TInput "focus" HandleFocus l); [|exact IH].
  apply keeps_bind; [apply frame_handleFocus | intro; exact IH].
Qed.

Lemma frame_focus : keeps f focus.
Proof.
  unfold focus.
  frame; first [ apply frame_effect | apply frame_focusEvent ].
Qed.

Lemma frame_insert el moveTo : keeps f (insert el moveTo).
Proof.
  unfold insert, prependElement, appendElement, getPosition, setPosition.
  frame;
    first [ apply frame_effect | apply frame_deref | apply frame_lcc
          | apply frame_insertInto | apply frame_appendElementAfter
          | apply frame_update | apply frame_then | apply frame_focus ].
Qed.

Lemma frame_insertPlace el pos : keeps f (insertPlace el pos).
Proof.
  unfold insertPlace, prependElement, appendElement.
  frame;
    first [ apply frame_deref | apply frame_lcc | apply frame_insertInto
          | apply frame_appendElementAfter ].
Qed.

Lemma frame_insertNewline : keeps f insertNewline.
Proof.
  unfold insertNewline, getPosition.
  frame;
    first [ apply frame_deref | apply frame_lccIs
          | apply frame_createElement | apply frame_insert ].
Qed.

Lemma frame_backspaceRemove : keeps f backspaceRemove.
Proof.
  unfold backspaceRemove, getPosition, setPosition.
  frame; first [ apply frame_update | apply frame_then ].
Qed.

Lemma frame_deleteRemove : keeps f deleteRemove.
Proof.
  unfold deleteRemove, getPosition, setPosition.
  frame; first [ apply frame_update | apply frame_then ].
Qed.

Lemma frame_setValue v : keeps f (setValue v).
Proof.
  unfold setValue, setPosition.
  frame; first [ apply frame_deref | apply frame_lccIs | apply frame_update ].
Qed.

Lemma frame_resolved t : keeps f (resolved t).
Proof.
  unfold resolved, updateThen, renderedUpdate, cursorUpdate.
  frame; first [ apply frame_effect | apply frame_runAll ].
Qed.

Lemma frame_handleClick x y : keeps f (handleClick x y).
Proof. unfold handleClick. frame. apply frame_focus. Qed.

Lemma frame_handleBlur : keeps f handleBlur.
Proof. unfold handleBlur, emit. frame; apply frame_effect. Qed.

Lemma frame_handleInput : keeps f handleInput.
Proof. unfold handleInput, emit. frame. apply frame_effect. Qed.

Lemma frame_handleKeydown w : keeps f (handleKeydown w).
Proof.
  unfold handleKeydown.
  repeat match goal with
         | |- keeps _ (match ?x with _ => _ end) => destruct x
         end;
    first [ apply keeps_ret
          | apply frame_backspaceRemove
          | apply frame_deleteRemove
          | apply frame_insertNewline
          | apply keeps_modify; ignore_setters ].
Qed.

Lemma frame_destroy : keeps f destroy.
Proof. unfold destroy, unlistenElement. frame. Qed.

Lemma frame_jaxReady : keeps f jaxReady.
Proof. unfold jaxReady. frame. apply frame_update. Qed.

Lemma frame_handleResize : keeps f handleResize.
Proof. unfold handleResize. frame. apply frame_update. Qed.

Lemma frame_debounceElapsed : keeps f debounceElapsed.
Proof. unfold debounceElapsed. frame. apply frame_handleResize. Qed.

Lemma frame_toString : keeps f toString.
Proof.
  unfold toString, getValue.
  frame; first [ apply frame_deref | apply frame_getCleanCopy ].
Qed.

Lemma frame_toTex : keeps f toTex.
Proof. unfold toTex. frame. apply frame_deref. Qed.

Lemma frame_getValue : keeps f getValue.
Proof. unfold getValue. frame. apply frame_getCleanCopy. Qed.

End Writes.

Ltac field := intros ? []; reflexivity.

(** Turning a statement about a field after a call into a frame
    statement, and closing it with the lemma of the method called. *)
Ltac as_frame :=
  match goal with
  | |- ?f (final (?c ?st)) = ?f ?st =>
      revert st; change (keeps f c)
  end.

Ltac by_frame :=
  as_frame; unfold discard, on, scrollToCaret, handleMouseenter,
    handleMouseleave;
  first [ apply frame_handleClick | apply frame_handleFocus
        | apply frame_focus
        | apply frame_handleBlur | apply frame_handleInput
        | apply frame_handleKeydown | apply frame_handleResize
        | apply frame_backspaceRemove | apply frame_deleteRemove
        | apply frame_insert | apply frame_insertNewline
        | apply frame_setValue | apply frame_destroy
        | apply frame_jaxReady | apply frame_resolved
        | apply frame_debounceElapsed | apply frame_effect
        | apply keeps_modify; intros []; reflexivity
        | apply keeps_bind;
          [ first [ apply frame_update | apply frame_toString
                  | apply frame_toTex | apply frame_getValue ]
          | intro; apply keeps_ret ] ];
  try field.

Section Fields.
Context {imports : Imports}.

(** X1.  No method and no callback of the class changes the options the
    editor was constructed with. *)
Theorem options_fixed (m : Method) (st : Editor) :
  options (final (invoke m st)) = options st.
Proof. destruct m; cbn [invoke]; by_frame. Qed.

Lemma root_kept (m : Method) (st : Editor) :
  match m with
  | CallSetValue _ => True
  | _ => value (final (invoke m st)) = value st
  end.
Proof. destruct m; cbn [invoke]; try exact I; by_frame. Qed.

(** X2.  The root reference [this.$value] is replaced by [setValue] and
    by nothing else. *)
Theorem root_replaced_only_by_setValue (m : Method) (st : Editor) :
  match m with
  | CallSetValue _ => True
  | _ => value (final (invoke m st)) = value st
  end.
Proof. exact (root_kept m st). Qed.

(** X3.  [this.elementJax] is set by the callback of [getElementJax] and
    is never unset: once the renderer is ready it stays ready. *)
Theorem renderer_flag (m : Method) (st : Editor) :
  elementJax (final (invoke m st)) =
    match m with
    | CallbackJaxReady => true
    | _ => elementJax st
    end.
Proof.
  destruct m; cbn [invoke]; try by_frame.
  unfold jaxReady. unfold bind at 1. unfold modify_.
  change (elementJax (final ((_ <- update ;; ret tt)
                               (set_elementJax true st))) = true).
  transitivity (elementJax (set_elementJax true st));
    [|destruct st; reflexivity].
  generalize (set_elementJax true st). intro s.
  by_frame.
Qed.

Lemma focusEvent_focused (ls : list Listener) (s : Editor) :
  focused (final (focusEvent ls s))
  = existsb (registeredAs TInput "focus" HandleFocus) ls || focused s.
Proof.
  revert s. induction ls as [|l ls IH]; intro s; simpl; [reflexivity|].
  destruct (registeredAs TInput "focus" HandleFocus l); simpl; [|apply IH].
  unfold bind at 1. rewrite handleFocus_runs, IH.
  destruct s; simpl. apply orb_true_r.
Qed.

(** [focus()] leaves [focused] set exactly when it was set or the focus
    event reaches [handleFocus]. *)
Lemma focus_focused (s : Editor) :
  focused (final (focus s)) = takesFocus s || focused s.
Proof.
  unfold focus, takesFocus. mrun.
  replace (attached (set_log (InputFocus :: log s) s)) with (attached s)
    by (destruct s; reflexivity).
  replace (inputActive (set_log (InputFocus :: log s) s))
    with (inputActive s) by (destruct s; reflexivity).
  destruct (attached s && negb (inputActive s)); simpl.
  - rewrite focusEvent_focused. destruct s; reflexivity.
  - destruct s; reflexivity.
Qed.

Lemma insertFinish_focused (m : NodeId) (s : Editor) :
  focused (final (insertFinish m s)) = takesFocus s || focused s.
Proof.
  unfold insertFinish. unfold bind at 1 2. unfold setPosition, modify_.
  destruct (focus_frame (set_position (Some m) s)) as (fo & ac & lg & Hf).
  pose proof (focus_focused (set_position (Some m) s)) as Hfo.
  rewrite Hf in *. cbn [final] in Hfo.
  replace (takesFocus (set_position (Some m) s)) with (takesFocus s) in Hfo
    by (destruct s; reflexivity).
  replace (focused (set_position (Some m) s)) with (focused s) in Hfo
    by (destruct s; reflexivity).
  rewrite <- Hfo.
  generalize (set_log lg (set_inputActive ac
                (set_focused fo (set_position (Some m) s)))).
  intro s'.
  change (focused (final ((u <- update ;; then_ u ScrollToCaretK) s'))
          = focused s').
  revert s'. change (keeps focused (u <- update ;; then_ u ScrollToCaretK)).
  apply keeps_bind; [apply frame_update | intro; apply frame_then];
    intros ? []; reflexivity.
Qed.

(** An [insert] leaves [focused] as it was, or set when its call of
    [focus()] brings the focus event to [handleFocus]. *)
Lemma insert_focused el moveTo (st : Editor) :
  focused (final (insert el moveTo st)) = focused st
  \/ takesFocus st = true /\ focused (final (insert el moveTo st)) = true.
Proof.
  remember (focused (final (insert el moveTo st))) as r eqn:Er.
  rewrite insert_halves in Er.
  destruct (readonly (options st)
            && negb (isEditable (store st) (position st)));
    [left; exact Er|].
  unfold bind at 1 in Er.
  assert (Hfo : focused (final (insertPlace el (position st) st))
                = focused st)
    by (apply frame_insertPlace; intros ? []; reflexivity).
  assert (Htf : takesFocus (final (insertPlace el (position st) st))
                = takesFocus st)
    by (apply frame_insertPlace; intros ? []; reflexivity).
  destruct (insertPlace el (position st) st) as [[] s1|e s1];
    cbn [final] in *; [|left; rewrite Er; exact Hfo].
  rewrite insertFinish_focused, Htf, Hfo in Er.
  destruct (takesFocus st); [right; split; [reflexivity|exact Er]|].
  left. exact Er.
Qed.

Lemma insertNewline_focused (st : Editor) :
  focused (final (insertNewline st)) = focused st
  \/ takesFocus st = true /\ focused (final (insertNewline st)) = true.
Proof.
  remember (focused (final (insertNewline st))) as r eqn:Er.
  unfold insertNewline in Er. unfold bind at 1 in Er. unfold gets in Er.
  destruct (allowNewlines (options st)); cbn [negb] in Er;
    [|left; exact Er].
  unfold bind at 1 2 in Er. unfold getPosition, gets in Er.
  match type of Er with
  | context [match ?c st with _ => _ end] =>
      assert (Hc : forall b s1, c st = Ret b s1 -> s1 = st);
      [|assert (Ht : forall e s1, c st = Throw e s1 -> s1 = st);
        [|destruct (c st) as [b s1|e s1] eqn:E]]
  end.
  - intros b s1. destruct (position st) as [p|]; mrun;
      [|intro H; inversion H; reflexivity].
    destruct (lookupF p (store st)) as [n|]; [|discriminate].
    destruct (tagName n) as [t|]; [|discriminate].
    destruct (String.eqb (toLowerCase t) "math");
      [intro H; inversion H; reflexivity|].
    destruct (parentOf p (store st)) as [q|]; [|discriminate].
    destruct (tagName q); [|discriminate].
    intro H; inversion H; reflexivity.
  - intros e s1. destruct (position st) as [p|]; mrun; [|discriminate].
    destruct (lookupF p (store st)) as [n|];
      [|intro H; inversion H; reflexivity].
    destruct (tagName n) as [t|]; [|intro H; inversion H; reflexivity].
    destruct (String.eqb (toLowerCase t) "math"); [discriminate|].
    destruct (parentOf p (store st)) as [q|];
      [|intro H; inversion H; reflexivity].
    destruct (tagName q); [discriminate|].
    intro H; inversion H; reflexivity.
  - rewrite (Hc b s1 eq_refl) in Er. destruct b; [left; exact Er|].
    unfold bind at 1 in Er. unfold createElement at 1 in Er.
    cbv beta iota delta [bind gets modify_ ret] in Er.
    match type of Er with
    | context [insert ?k None ?s2] =>
        destruct (insert_focused k None s2) as [H|[H1 H2]];
        [left; rewrite Er, H; destruct st; reflexivity
        |right; split;
         [rewrite <- H1; destruct st; reflexivity
         |rewrite Er; exact H2]]
    end.
  - left. rewrite (Ht e s1 eq_refl) in Er. exact Er.
Qed.

(** X4.  [this.focused] is set by [handleFocus] and cleared by
    [handleBlur], which leaves it alone while the pointer is over the
    display, and by no other code.  [this.$input.focus()] dispatches the
    focus event before it returns, so [handleFocus] also runs inside
    [focus()], inside [handleClick] and inside an [insert] that gets as
    far as its call of [focus()]: they end with the flag set when the
    input is in the document, is not the active element and
    [handleFocus] is bound to its focus event, and leave the flag as it
    was otherwise.  [mouseAtDisplay] is written by the two pointer
    handlers only. *)
Theorem focus_flags (m : Method) (st : Editor) :
  let st' := final (invoke m st) in
  match m with
  | CallHandleFocus => focused st' = true
  | CallHandleBlur => focused st' = mouseAtDisplay st && focused st
  | CallFocus | CallHandleClick _ _ =>
      focused st' = takesFocus st || focused st
  | CallInsert _ _ | CallInsertNewline | CallHandleKeydown _ =>
      focused st' = focused st
      \/ takesFocus st = true /\ focused st' = true
  | _ => focused st' = focused st
  end
  /\ mouseAtDisplay st' =
       match m with
       | CallHandleMouseenter => true
       | CallHandleMouseleave => false
       | _ => mouseAtDisplay st
       end.
Proof.
  cbv zeta. split.
  - destruct m; cbn [invoke]; try by_frame.
    + (* handleClick *)
      unfold handleClick. unfold bind at 1.
      destruct (focus_frame st) as (fo & ac & lg & Hf).
      pose proof (focus_focused st) as Hfo. rewrite Hf in *.
      cbn [final] in Hfo. rewrite <- Hfo. reflexivity.
    + destruct st; reflexivity.
    + destruct st as [? ? ? ? ? mo]; destruct mo; reflexivity.
    + (* handleKeydown *)
      match goal with
      | |- context [handleKeydown ?w] =>
          destruct (N.eq_dec w 13%N) as [->|N13]
      end; [apply insertNewline_focused|].
      left. as_frame.
      unfold handleKeydown.
      repeat match goal with
             | |- keeps _ (match ?x with _ => _ end) => destruct x
             end;
        first [ congruence
              | apply keeps_ret
              | apply frame_backspaceRemove; intros ? []; reflexivity
              | apply frame_deleteRemove; intros ? []; reflexivity
              | apply keeps_modify; intros []; reflexivity ].
    + apply insert_focused.
    + apply insertNewline_focused.
    + apply focus_focused.
  - destruct m; cbn [invoke]; try by_frame; destruct st; reflexivity.
Qed.

(** Keys without a case in [handleKeydown] do nothing. *)
Lemma handleKeydown_unhandled (w : N) (st : Editor) :
  handledKey w = false -> handleKeydown w st = Ret tt st.
Proof.
  unfold handledKey, handleKeydown.
  destruct w as [|p]; [reflexivity|].
  do 7 (try (destruct p as [p|p|]; simpl; try reflexivity;
             try discriminate)).
Qed.

(** X5.  The cursor is moved by the edits, by [setValue], by a click and
    by a keydown with a case of its own, and by nothing else: updates,
    focus changes, input, reads and teardown leave it where it is, and a
    keydown of any other key returns with the whole state as it was. *)
Theorem cursor_moved_only_by (m : Method) (st : Editor) :
  (if movesCursor m then True
   else position (final (invoke m st)) = position st)
  /\ forall w : N,
       handledKey w = false -> invoke (CallHandleKeydown w) st = Ret tt st.
Proof.
  split; [|intros w Hk; apply handleKeydown_unhandled; exact Hk].
  destruct m; cbn [movesCursor invoke]; try exact I; try by_frame.
  match goal with
  | |- context [handledKey ?w] => destruct (handledKey w) eqn:Hk
  end; [exact I|].
  rewrite (handleKeydown_unhandled _ _ Hk). reflexivity.
Qed.

End Fields.

(* ===================================================================== *)
(** ** Methods that do not edit *)
(* ===================================================================== *)

Lemma extends_ret {A} (a : A) : extends (ret a).
Proof. intro s. exists []. simpl. rewrite app_nil_r. reflexivity. Qed.

Lemma extends_throw {A} (e : Error) : extends (@throw A e).
Proof. intro s. exists []. simpl. rewrite app_nil_r. reflexivity. Qed.

Lemma extends_gets {A} (g : Editor -> A) : extends (gets g).
Proof. intro s. exists []. simpl. rewrite app_nil_r. reflexivity. Qed.

Lemma extends_modify (g : Editor -> Editor) :
  (forall s, store (g s) = store s) -> extends (modify_ g).
Proof.
  intros H s. exists []. simpl. rewrite H, app_nil_r. reflexivity.
Qed.

Lemma extends_bind {A C} (c : M A) (k : A -> M C) :
  extends c -> (forall a, extends (k a)) -> extends (bind c k).
Proof.
  intros Hc Hk s. unfold bind.
  destruct (Hc s) as [x Hx]. destruct (c s) as [a s'|e s']; simpl in *.
  - destruct (Hk a s') as [y Hy]. exists (x ++ y).
    rewrite Hy, Hx, app_assoc. reflexivity.
  - exists x. exact Hx.
Qed.

Ltac extends_step :=
  match goal with
  | |- extends (bind _ _) => apply extends_bind; [ | intro ]
  | |- extends (ret _) => apply extends_ret
  | |- extends (throw _) => apply extends_throw
  | |- extends (gets _) => apply extends_gets
  | |- extends (modify_ _) => apply extends_modify; intros []; reflexivity
  | |- extends (if ?b then _ else _) => destruct b
  | |- extends (match ?x with _ => _ end) => destruct x
  end.

Ltac extends_auto := repeat extends_step.

Lemma extends_effect e : extends (effect e).
Proof. unfold effect. extends_auto. Qed.

Lemma extends_deref i : extends (deref i).
Proof. unfold deref. extends_auto. Qed.

Lemma extends_getCleanCopy r : extends (getCleanCopy r).
Proof.
  intro s. unfold getCleanCopy, deref. mrun.
  destruct (lookupF r (store s)) as [n|].
  - eexists. cbn [final]. rewrite set_store_store. reflexivity.
  - exists []. simpl. rewrite app_nil_r. reflexivity.
Qed.

Lemma extends_runAll ks : extends (runAll ks).
Proof.
  induction ks as [|k ks IH]; simpl; [apply extends_ret|].
  apply extends_bind; [destruct k; apply extends_effect | intro; exact IH].
Qed.

Lemma extends_update : extends update.
Proof.
  unfold update, getValue, jaxSetValueUpdate, emit.
  extends_auto;
    first [ apply extends_effect | apply extends_deref
          | apply extends_getCleanCopy ].
Qed.

Lemma extends_focus : extends focus.
Proof.
  intro s. destruct (focus_frame s) as (fo & ac & lg & H). rewrite H.
  exists []. destruct s; simpl. rewrite app_nil_r. reflexivity.
Qed.

Section NonEdits.
Context {imports : Imports}.

(** The methods that do not edit only add detached trees to the store,
    and leave the root reference as it is. *)
Lemma nonedit_extends (m : Method) :
  edits m = false -> extends (invoke m).
Proof.
  destruct m; cbn [edits invoke]; intro He; try discriminate;
    unfold discard, handleClick, handleFocus, handleBlur, handleInput,
      handleMouseenter, handleMouseleave, handleResize, scrollToCaret, on,
      toString, toTex, getValue, destroy, unlistenElement, jaxReady,
      debounceElapsed, handleResize, resolved, updateThen, renderedUpdate,
      cursorUpdate, emit;
    try (extends_auto;
         first [ apply extends_effect | apply extends_deref
               | apply extends_getCleanCopy | apply extends_update
               | apply extends_runAll | apply extends_focus ]).
  (* a keydown that is not backspace, enter or delete *)
  unfold handleKeydown.
  match goal with
  | |- extends (match ?w with _ => _ end) => rename w into w0
  end.
  destruct w0 as [|p]; [apply extends_ret|].
  do 7 (try (destruct p as [p|p|]; simpl in He; try discriminate;
             try apply extends_ret;
             try (apply extends_modify; intros []; reflexivity))).
Qed.

(** X6.  Every method and callback other than the edits ([insert],
    [insertNewline], [backspaceRemove], [deleteRemove], a keydown of
    backspace, enter or delete) and [setValue] leaves the document tree
    as it is: updating, serialising, copying, focusing, clicking, arrow
    keys, resolving a render and tearing down never change it. *)
Theorem nonediting_methods_keep_document (m : Method) (st : Editor)
  (doc : Node) :
  document st = Some doc ->
  edits m = false ->
  document (final (invoke m st)) = Some doc.
Proof.
  intros Hdoc He.
  destruct (nonedit_extends m He st) as [extra Hs].
  assert (Hv : value (final (invoke m st)) = value st).
  { pose proof (root_kept m st) as H.
    destruct m; try exact H; discriminate He. }
  unfold document. rewrite Hv, Hs. apply lookupF_app_found. exact Hdoc.
Qed.

End NonEdits.

Lemma nonediting_methods_keep_document_witness :
  document (final (invoke (imports := exampleImports) CallUpdate readyEditor))
  = Some emptyMath.
Proof.
  apply (nonediting_methods_keep_document (imports := exampleImports));
    reflexivity.
Defined.

(* ===================================================================== *)
(** ** Focus and the pointer *)
(* ===================================================================== *)

(** X7.  A blur that arrives while the pointer is over the display is
    dropped: after [handleMouseenter], [handleBlur] emits nothing and
    leaves [focused] as it was; after [handleMouseleave] it emits [blur],
    clears [focused], removes the class and hides the caret. *)
Theorem blur_respects_pointer (st : Editor) :
  handleBlur (final (handleMouseenter st))
    = Ret tt (set_mouseAtDisplay true st)
  /\ handleBlur (final (handleMouseleave st))
     = Ret tt
         (set_log (CaretShown false :: ClassFocused false :: Emit EvBlur
                     :: log st)
            (set_focused false (set_mouseAtDisplay false st))).
Proof. split; destruct st; reflexivity. Qed.

(* ===================================================================== *)
(** ** Trimming the input *)
(* ===================================================================== *)

Lemma trimStart_split (s : jsstring) :
  exists ws, s = ws ++ trimStart s /\ forallb isWhiteSpace ws = true.
Proof.
  induction s as [|c s IH]; [exists []; split; reflexivity|].
  simpl. destruct (isWhiteSpace c) eqn:Hc.
  - destruct IH as (ws & Hs & Hws). exists (c :: ws). split.
    + simpl. rewrite <- Hs. reflexivity.
    + simpl. rewrite Hc, Hws. reflexivity.
  - exists []. split; reflexivity.
Qed.

Lemma trimStart_head (s : jsstring) :
  isWhiteSpace (hd space (trimStart s)) = false \/ trimStart s = [].
Proof.
  induction s as [|c s IH]; [right; reflexivity|].
  simpl. destruct (isWhiteSpace c) eqn:Hc; [exact IH|].
  left. exact Hc.
Qed.

Lemma trimStart_fixed (s : jsstring) :
  isWhiteSpace (hd space s) = false -> trimStart s = s.
Proof.
  destruct s as [|c s]; [reflexivity|]. simpl. intros ->. reflexivity.
Qed.

Lemma forallb_rev {A} (p : A -> bool) (l : list A) :
  forallb p (rev l) = forallb p l.
Proof.
  induction l as [|a l IH]; [reflexivity|].
  simpl. rewrite forallb_app, IH. simpl. rewrite andb_true_r.
  apply andb_comm.
Qed.

Lemma trimEnd_split (s : jsstring) :
  exists ws, s = trimEnd s ++ ws /\ forallb isWhiteSpace ws = true.
Proof.
  unfold trimEnd. destruct (trimStart_split (rev s)) as (ws & Hs & Hws).
  exists (rev ws). split.
  - rewrite <- rev_app_distr, <- Hs, rev_involutive. reflexivity.
  - rewrite forallb_rev. exact Hws.
Qed.

Lemma hd_app {A} (d : A) (l l' : list A) :
  l <> [] -> hd d (l ++ l') = hd d l.
Proof. destruct l; [contradiction | reflexivity]. Qed.

Lemma last_rev_hd {A} (d : A) (l : list A) : last (rev l) d = hd d l.
Proof.
  destruct l as [|a l]; [reflexivity|]. simpl. apply last_last.
Qed.

(** What [trim] returns is the string between two runs of white space,
    and it neither starts nor ends with white space. *)
Lemma trim_spec (s : jsstring) :
  (exists ws1 ws2,
      s = ws1 ++ trim s ++ ws2
      /\ forallb isWhiteSpace ws1 = true
      /\ forallb isWhiteSpace ws2 = true)
  /\ (trim s = []
      \/ (isWhiteSpace (hd space (trim s)) = false
          /\ isWhiteSpace (last (trim s) space) = false)).
Proof.
  unfold trim.
  destruct (trimStart_split s) as (ws1 & Hs1 & Hws1).
  destruct (trimEnd_split (trimStart s)) as (ws2 & Hs2 & Hws2).
  split.
  - exists ws1, ws2. rewrite <- Hs2. auto.
  - destruct (trimEnd (trimStart s)) as [|c u] eqn:Eu; [left; reflexivity|].
    right. split.
    + destruct (trimStart_head s) as [Hh|He].
      * rewrite Hs2 in Hh. simpl in Hh. exact Hh.
      * rewrite He in Hs2. discriminate Hs2.
    + rewrite <- Eu. unfold trimEnd. rewrite last_rev_hd.
      destruct (trimStart_head (rev (trimStart s))) as [Hh|He];
        [exact Hh|].
      unfold trimEnd in Eu. rewrite He in Eu. discriminate Eu.
Qed.

Lemma trim_fixed (s : jsstring) :
  isWhiteSpace (hd space s) = false ->
  isWhiteSpace (last s space) = false ->
  trim s = s.
Proof.
  intros Hh Hl. unfold trim, trimEnd. rewrite (trimStart_fixed s Hh).
  rewrite trimStart_fixed; [apply rev_involutive|].
  rewrite <- last_rev_hd, rev_involutive. exact Hl.
Qed.

Lemma trim_idempotent (s : jsstring) : trim (trim s) = trim s.
Proof.
  destruct (trim_spec s) as [_ [E|[Hh Hl]]].
  - rewrite E. reflexivity.
  - apply trim_fixed; assumption.
Qed.



(* ===================================================================== *)
(** ** Keystrokes *)
(* ===================================================================== *)

Lemma handleInput_on_empty (s : Editor) :
  inputValue s = [] -> handleInput s = Ret tt s.
Proof.
  intro H. unfold handleInput. mrun. rewrite H. destruct s; simpl in *.
  subst. reflexivity.
Qed.

Section KeystrokeOnce.
Context {imports : Imports}.

Lemma deliver_returns (ls : list Listener) (t : Target) (type : string)
  (e : DomEvent) (s : Editor) :
  deliver ls t type e s = Ret tt (final (deliver ls t type e s)).
Proof.
  revert s. induction ls as [|l ls IH]; intro s; simpl; [reflexivity|].
  destruct (sameTarget (target l) t && String.eqb (eventType l) type);
    apply IH.
Qed.

Lemma dispatch_returns (t : Target) (type : string) (e : DomEvent)
  (s : Editor) :
  dispatch t type e s = Ret tt (final (dispatch t type e s)).
Proof. unfold dispatch. mrun. apply deliver_returns. Qed.

Lemma handleInput_runs (s : Editor) :
  handleInput s
  = Ret tt
      (match trim (inputValue s) with
       | [] => set_inputValue [] s
       | c :: cs =>
           set_log (Emit (EvInput (c :: cs)) :: log s) (set_inputValue [] s)
       end).
Proof.
  unfold handleInput, bind, gets, modify_, emit, effect, ret.
  destruct (trim (inputValue s)); reflexivity.
Qed.

(** X9.  [handleInput] is bound to keydown and to keyup, yet the text a
    key types is committed once, by the keyup.  With the listeners the
    constructor registers and the input empty, the keydown of a key
    without a case of its own changes nothing; the text then enters the
    input, and the keyup emits it, trimmed, as one raw-input event
    (none when it is all white space) and empties the input.  A further
    [handleInput] finds the input empty and does nothing. *)
Theorem keystroke_commits_once (st : Editor) (o : RawOptions) (w : N)
  (typed : jsstring) :
  listeners st = listeners (constructor o) ->
  inputValue st = [] ->
  handledKey w = false ->
  dispatch TInput "keydown" (keyEvent w) st = Ret tt st
  /\ keystroke w typed st
     = Ret tt
         (match trim typed with
          | [] => st
          | c :: cs => set_log (Emit (EvInput (c :: cs)) :: log st) st
          end)
  /\ handleInput (final (keystroke w typed st))
     = Ret tt (final (keystroke w typed st)).
Proof.
  intros Hl Hin Hk.
  assert (Hdown : dispatch TInput "keydown" (keyEvent w) st = Ret tt st).
  { rewrite dispatch_returns. f_equal.
    destruct (keystroke_runs_handleInput st o (keyEvent w) Hl)
      as (_ & -> & _).
    rewrite (handleInput_on_empty st Hin). cbn [final which keyEvent].
    rewrite (handleKeydown_unhandled _ _ Hk). reflexivity. }
  assert (Hrun : keystroke w typed st
                 = Ret tt
                     (match trim typed with
                      | [] => st
                      | c :: cs =>
                          set_log (Emit (EvInput (c :: cs)) :: log st) st
                      end)).
  { unfold keystroke. unfold bind at 1. rewrite Hdown.
    unfold bind at 1. unfold modify_. rewrite Hin. cbn [app].
    rewrite dispatch_returns. f_equal.
    destruct (keystroke_runs_handleInput (set_inputValue typed st) o
                (keyEvent w)) as (-> & _);
      [destruct st; exact Hl|].
    rewrite handleInput_runs. cbn [final].
    replace (inputValue (set_inputValue typed st)) with typed
      by (destruct st; reflexivity).
    destruct (trim typed); destruct st; simpl in *; subst; reflexivity. }
  split; [exact Hdown|]. split; [exact Hrun|].
  rewrite Hrun. cbn [final]. apply handleInput_on_empty.
  destruct (trim typed); destruct st; exact Hin.
Qed.

End KeystrokeOnce.

Lemma keystroke_commits_once_witness :
  keystroke (imports := exampleImports) 65 [97%N] freshEditor
  = Ret tt (set_log (Emit (EvInput [97%N]) :: log freshEditor) freshEditor).
Proof.
  exact (proj1 (proj2 (keystroke_commits_once (imports := exampleImports)
                         freshEditor noOptions 65 [97%N]
                         eq_refl eq_refl eq_refl))).
Defined.

(* ===================================================================== *)
(** ** The constructor *)
(* ===================================================================== *)

(** X10.  Whatever the options, a constructed editor has a placeholder
    that is not empty: a missing or empty one becomes the default text,
    any other is kept.  It allows newlines and is readonly only when
    asked to, holds an empty [math] document with no cursor position and
    no focus, has the ten listeners registered, and is inert: until the
    renderer is ready [update()] does nothing.  When the renderer is
    ready the first update submits the empty document with that
    placeholder, which is what the display holds once it resolves. *)
Theorem constructor_defaults (o : RawOptions) :
  let shown :=
    toDisplay (SElement "math" [] [])
      (placeholder (options (constructor o))) in
  placeholder (options (constructor o)) <> ""
  /\ (forall p, rawPlaceholder o = Some p -> p <> "" ->
                placeholder (options (constructor o)) = p)
  /\ (rawPlaceholder o = None \/ rawPlaceholder o = Some "" ->
      placeholder (options (constructor o)) = "Start typing...")
  /\ allowNewlines (options (constructor o))
     = match rawAllowNewlines o with Some b => b | None => false end
  /\ readonly (options (constructor o))
     = match rawReadonly o with Some b => b | None => false end
  /\ document (constructor o) = Some (Element 1 "math" [] [])
  /\ position (constructor o) = None
  /\ focused (constructor o) = false
  /\ listeners (constructor o)
     = elementListeners ++ [listenerOf TWindow "resize" HandleResize]
  /\ update (constructor o) = Ret Settled (constructor o)
  /\ pending (final (jaxReady (constructor o))) = [mkJob 0 shown []]
  /\ display (final (resolved 0 (final (jaxReady (constructor o)))))
     = Some shown.
Proof.
  cbv zeta.
  assert (Hopts : options (constructor o)
                  = mkOptions
                      (match rawPlaceholder o with
                       | Some EmptyString | None => "Start typing..."
                       | Some p => p
                       end)
                      (match rawAllowNewlines o with
                       | Some b => b
                       | None => false
                       end)
                      (match rawReadonly o with
                       | Some b => b
                       | None => false
                       end)) by reflexivity.
  split.
  { rewrite Hopts. cbn [placeholder].
    destruct (rawPlaceholder o) as [[|c p]|]; discriminate. }
  split.
  { rewrite Hopts. cbn [placeholder].
    intros p -> Hne. destruct p; [contradiction | reflexivity]. }
  split.
  { rewrite Hopts. cbn [placeholder]. intros [->| ->]; reflexivity. }
  split; [rewrite Hopts; reflexivity|].
  split; [rewrite Hopts; reflexivity|].
  do 4 (split; [reflexivity|]).
  split; [apply update_settled; reflexivity|].
  split; vm_compute; reflexivity.
Qed.

(* ===================================================================== *)
(** ** Serialising *)
(* ===================================================================== *)

Lemma toString_runs (st : Editor) (doc : Node) :
  document st = Some doc ->
  toString st =
    Ret (shape doc)
      (set_store (store st ++ [fst (build (fresh (store st)) (shape doc))])
                 st).
Proof.
  intro Hdoc. unfold toString. unfold bind at 1.
  rewrite (getValue_copies st doc Hdoc). mrun.
  rewrite set_store_store.
  rewrite lookupF_fresh by apply build_root.
  unfold outerHTML. rewrite shape_build. reflexivity.
Qed.

(** X11.  On every editor [toString()] returns the serialisation of the
    document and leaves the document and the cursor as they are; with
    the renderer ready, [update()] writes that same value to the
    textarea, emits it as the [update] event and then hands the display
    markup of the document, with the placeholder, to the renderer. *)
Theorem toString_matches_update_event (st : Editor) (doc : Node) :
  document st = Some doc ->
  (exists s1,
     toString st = Ret (outerHTML doc) s1
     /\ document s1 = Some doc
     /\ position s1 = position st)
  /\ (elementJax st = true ->
      exists s2,
        update st = Ret (Pending (nextTicket st)) s2
        /\ log s2 =
             JaxSetValueUpdate (nextTicket st)
               (toDisplay (shape doc) (placeholder (options st)))
             :: TreeUpdate :: TreeSetValue (value st)
             :: Emit (EvUpdate (outerHTML doc)) :: ElValue (outerHTML doc)
             :: WrapperFix :: log st).
Proof.
  intro Hdoc. split.
  - eexists. split; [apply toString_runs; exact Hdoc|].
    split; [|destruct st; reflexivity].
    unfold document in *. rewrite set_store_store.
    replace (value (set_store _ st)) with (value st)
      by (destruct st; reflexivity).
    apply lookupF_app_found. exact Hdoc.
  - intro Hjax. exists (afterUpdate st doc).
    split; [apply update_with_renderer; assumption | reflexivity].
Qed.

Lemma toString_matches_update_event_witness :
  (exists s1,
     toString readyEditor = Ret (SElement "math" [] []) s1
     /\ document s1 = Some emptyMath
     /\ position s1 = None)
  /\ exists s2,
       update readyEditor = Ret (Pending 0) s2
       /\ log s2 =
            JaxSetValueUpdate 0
              (toDisplay (SElement "math" [] []) "Start typing...")
            :: TreeUpdate :: TreeSetValue 1
            :: Emit (EvUpdate (SElement "math" [] []))
            :: ElValue (SElement "math" [] [])
            :: WrapperFix :: log readyEditor.
Proof.
  destruct (toString_matches_update_event readyEditor emptyMath eq_refl)
    as [H1 H2].
  split; [exact H1 | exact (H2 eq_refl)].
Defined.

Section SetThenRead.
Context {imports : Imports}.

(** X12.  What [setValue] accepts is what [toString()] returns next: the
    serialisation of the node given, or of the tree parsed from the
    string given; and after the [setValue] the cursor has no position. *)
Theorem setValue_toString_roundtrip (v : Value) (st : Editor) (n : Node) :
  offered v st = Some n ->
  isMathElement n = true ->
  (exists s1 s2,
      setValue v st = Ret tt s1
      /\ position s1 = None
      /\ toString s1 = Ret (outerHTML n) s2)
  /\ forall str parsed,
       v = VString str -> toDom str = Some parsed -> outerHTML n = parsed.
Proof.
  intros Hoff Hmath. split.
  - assert (Hacc : forall s0,
               lookupF (nodeId n) (store s0) = Some n ->
               exists s1 s2,
                 (modify_ (set_value (nodeId n)) ;; setPosition None ;;
                  _ <- update ;; ret tt) s0 = Ret tt s1
                 /\ position s1 = None
                 /\ toString s1 = Ret (outerHTML n) s2).
    { intros s0 H0.
      destruct (setValue_accepts s0 n H0) as (s1 & Hrun & _ & Hdoc & Hpos).
      exists s1. eexists. split; [exact Hrun|]. split; [exact Hpos|].
      apply toString_runs. exact Hdoc. }
    destruct v as [str | ref | | ]; simpl in Hoff; try discriminate.
    + destruct (toDom str) as [parsed|] eqn:Hparse; [|discriminate].
      simpl in Hoff. inversion Hoff as [Hn].
      rewrite (setValue_string st str parsed Hparse). cbv zeta.
      rewrite Hn, Hmath. apply Hacc.
      rewrite set_store_store. rewrite <- Hn at 1. rewrite build_root.
      rewrite <- Hn. apply lookupF_fresh. apply build_root.
    + rewrite (setValue_node st ref n Hoff), Hmath.
      pose proof (lookupF_id _ _ _ Hoff) as Hid. rewrite <- Hid.
      apply Hacc. rewrite Hid. exact Hoff.
  - intros str parsed -> Hparse. simpl in Hoff. rewrite Hparse in Hoff.
    simpl in Hoff. inversion Hoff. unfold outerHTML. apply shape_build.
Qed.

End SetThenRead.

Lemma setValue_toString_roundtrip_witness :
  exists s1 s2,
    setValue (imports := exampleImports) (VString "<math></math>")
      symbolsEditor = Ret tt s1
    /\ position s1 = None
    /\ toString s1 = Ret (SElement "math" [] []) s2.
Proof.
  apply (proj1 (setValue_toString_roundtrip (imports := exampleImports)
                  (VString "<math></math>") symbolsEditor
                  (Element 10 "math" [] []) eq_refl eq_refl)).
Defined.

(* ===================================================================== *)
(** ** Resizing *)
(* ===================================================================== *)

Lemma debounce_idle (s : Editor) :
  resizeArmed s = false -> debounceElapsed s = Ret tt s.
Proof. intro H. unfold debounceElapsed. mrun. rewrite H. reflexivity. Qed.

Section Resizing.
Context {imports : Imports}.

(** X13.  [handleResize] is debounced: with the listeners the constructor
    registers, a resize of the window only arms the timer, further
    resize and scroll events before the timer runs change nothing, the
    timer then runs [update()] once, on the state as it was, and a timer
    that finds nothing armed does nothing. *)
Theorem resize_debounced (st : Editor) (o : RawOptions) (e1 e2 : DomEvent) :
  listeners st = listeners (constructor o) ->
  resizeArmed st = false ->
  final (dispatch TWindow "resize" e1 st) = set_resizeArmed true st
  /\ final (dispatch TDisplay "scroll" e2 (set_resizeArmed true st))
     = set_resizeArmed true st
  /\ final (dispatch TWindow "resize" e2 (set_resizeArmed true st))
     = set_resizeArmed true st
  /\ final (debounceElapsed (set_resizeArmed true st)) = final (update st)
  /\ debounceElapsed (final (debounceElapsed (set_resizeArmed true st)))
     = Ret tt (final (debounceElapsed (set_resizeArmed true st))).
Proof.
  assert (Hupd : forall s, resizeArmed (final (update s)) = resizeArmed s)
    by (intro s; as_frame; apply frame_update; field).
  intros Hl Harmed.
  assert (Hl' : listeners (set_resizeArmed true st)
                = listeners (constructor o))
    by (destruct st; exact Hl).
  assert (Hback : set_resizeArmed false (set_resizeArmed true st) = st)
    by (destruct st; simpl in *; subst; reflexivity).
  assert (Hrun : final (debounceElapsed (set_resizeArmed true st))
                 = final (update st)).
  { unfold debounceElapsed, handleResize. mrun.
    replace (resizeArmed (set_resizeArmed true st)) with true
      by (destruct st; reflexivity).
    rewrite Hback. destruct (update st); reflexivity. }
  split; [unfold dispatch, bind, gets, modify_; cbn [activeAfter];
          rewrite Hl; reflexivity|].
  split; [unfold dispatch, bind, gets, modify_; cbn [activeAfter];
          rewrite Hl'; destruct st; reflexivity|].
  split; [unfold dispatch, bind, gets, modify_; cbn [activeAfter];
          rewrite Hl'; destruct st; reflexivity|].
  split; [exact Hrun|].
  apply debounce_idle. rewrite Hrun, Hupd. exact Harmed.
Qed.

(** X14.  After [destroy()] a resize of the window no longer reaches the
    editor, where before it armed the debounced update. *)
Theorem destroy_stops_window_resize (st : Editor) (o : RawOptions)
  (e : DomEvent) :
  listeners st = listeners (constructor o) ->
  final (dispatch TWindow "resize" e st) = set_resizeArmed true st
  /\ dispatch TWindow "resize" e (final (destroy st))
     = Ret tt (final (destroy st)).
Proof.
  intro Hl. split.
  - unfold dispatch, bind, gets, modify_. cbn [activeAfter].
    rewrite Hl. reflexivity.
  - unfold dispatch, bind, gets, modify_. cbn [activeAfter].
    replace (listeners (final (destroy st))) with elementListeners;
      [reflexivity|].
    unfold destroy, unlistenElement. mrun.
    destruct st; simpl in *. subst. reflexivity.
Qed.

End Resizing.

Lemma resize_debounced_witness :
  final (debounceElapsed (set_resizeArmed true readyEditor))
  = final (update readyEditor).
Proof.
  exact (proj1 (proj2 (proj2 (proj2
    (resize_debounced (imports := exampleImports) readyEditor noOptions
       (keyEvent 0) (keyEvent 0) eq_refl eq_refl))))).
Defined.

Lemma destroy_stops_window_resize_witness :
  dispatch (imports := exampleImports) TWindow "resize" (keyEvent 0)
    (final (destroy freshEditor))
  = Ret tt (final (destroy freshEditor)).
Proof.
  exact (proj2 (destroy_stops_window_resize (imports := exampleImports)
                  freshEditor noOptions (keyEvent 0) eq_refl)).
Defined.

(* ===================================================================== *)
(** ** What an insertion sets off *)
(* ===================================================================== *)

Lemma then_on_fresh_ticket (t : nat) (d : Display) (js : list Job)
  (k : Continuation) :
  Forall (fun j => ticket j < t) js ->
  map (fun j => if ticket j =? t
                then mkJob (ticket j) (submitted j) (thens j ++ [k])
                else j) (js ++ [mkJob t d []])
  = js ++ [mkJob t d [k]].
Proof.
  intro H. rewrite map_app. simpl. rewrite Nat.eqb_refl. f_equal.
  induction H as [|j js Hj _ IH]; [reflexivity|].
  simpl. destruct (Nat.eqb_spec (ticket j) t); [lia|]. rewrite IH.
  reflexivity.
Qed.

Lemma then_pending_fresh (s : Editor) (t : nat) (d : Display)
  (k : Continuation) (js : list Job) :
  pending s = js ++ [mkJob t d []] ->
  Forall (fun j => ticket j < t) js ->
  then_ (Pending t) k s = Ret tt (set_pending (js ++ [mkJob t d [k]]) s).
Proof.
  intros Hp H. unfold then_, modify_.
  rewrite Hp, then_on_fresh_ticket by exact H. reflexivity.
Qed.

Section InsertSetsOff.
Context {imports : Imports}.

(** The first half of [insert] returns, with the document in the store. *)
Lemma insertPlace_returns (st : Editor) (e : Node) (f1 f2 : Forest)
  (rt : string) (ra : list (string * string)) (rks : list Node) :
  newNode e f1 f2 st ->
  lookupF (value st) (f1 ++ f2) = Some (Element (value st) rt ra rks) ->
  placeable (position st) (f1 ++ f2) ->
  exists f' doc1,
    insertPlace (nodeId e) (position st) st = Ret tt (set_store f' st)
    /\ lookupF (value st) f' = Some doc1.
Proof.
  intros Hnew Hroot Hpos. pose proof Hnew as [Hstore Hdisj].
  assert (Hskip : forall i x, lookupF i (f1 ++ f2) = Some x ->
                              lookupF i (store st) = Some x).
  { intros i x Hx. rewrite Hstore, lookupF_skip; [exact Hx|].
    intro Hin. apply (Hdisj i Hin). eapply lookupF_inside; eauto. }
  unfold insertPlace.
  destruct (position st) as [p|].
  - destruct Hpos as (t & a & ks & Hp & Hkind). mrun.
    rewrite (Hskip _ _ Hp). cbn [tagName]. cbv beta iota.
    destruct (String.eqb_spec (toLowerCase t) "mrow") as [Emrow|Nmrow];
      [|destruct (String.eqb_spec (toLowerCase t) "math") as [Emath|Nmath]].
    + unfold prependElement.
      rewrite (insertInto_new _ st e f1 f2 p t a ks Hnew Hp).
      destruct (lookupF_modifyF_reach (value st) p
                  (fun n => setChildNodes (e :: childNodes n) n)
                  (f1 ++ f2) _ (keepsReach_first e) Hroot) as [doc1 Hd].
      eauto.
    + unfold appendElement.
      rewrite (insertInto_new _ st e f1 f2 (value st) rt ra rks Hnew Hroot).
      destruct (lookupF_modifyF_reach (value st) (value st)
                  (fun n => setChildNodes (childNodes n ++ [e]) n)
                  (f1 ++ f2) _ (keepsReach_last e) Hroot) as [doc1 Hd].
      eauto.
    + destruct Hkind as [E|[E|Hparent]]; try contradiction.
      destruct (parentOf p (f1 ++ f2)) as [q|] eqn:Eq; [|contradiction].
      destruct (appendElementAfter_new st e f1 f2 p _ q Hnew Hp Eq)
        as (f' & Hf' & Hrun).
      rewrite Hrun.
      destruct (afterF_reach _ _ _ _ _ _ Hf' Hroot) as [doc1 Hd].
      eauto.
  - mrun. unfold prependElement.
    rewrite (insertInto_new _ st e f1 f2 (value st) rt ra rks Hnew Hroot).
    destruct (lookupF_modifyF_reach (value st) (value st)
                (fun n => setChildNodes (e :: childNodes n) n)
                (f1 ++ f2) _ (keepsReach_first e) Hroot) as [doc1 Hd].
    eauto.
Qed.

(** [focus()] with the listeners the constructor registers: an input in
    the document that is not the active element becomes the active
    element and [handleFocus] runs once; otherwise only the call is
    made. *)
Lemma focus_runs (s : Editor) (o : RawOptions) :
  listeners s = listeners (constructor o) ->
  focus s
  = Ret tt
      (set_log (focusLog s ++ log s)
         (if attached s && negb (inputActive s)
          then set_inputActive true (set_focused true s)
          else s)).
Proof.
  intro Hl. unfold focus, focusLog. mrun.
  replace (attached (set_log (InputFocus :: log s) s)) with (attached s)
    by (destruct s; reflexivity).
  replace (inputActive (set_log (InputFocus :: log s) s))
    with (inputActive s) by (destruct s; reflexivity).
  destruct (attached s && negb (inputActive s)); [|reflexivity].
  replace (listeners (set_inputActive true
                        (set_log (InputFocus :: log s) s)))
    with (listeners (constructor o)) by (destruct s; exact (eq_sym Hl)).
  change (focusEvent (listeners (constructor o)))
    with (handleFocus ;; ret tt).
  unfold bind, ret. rewrite handleFocus_runs. destruct s; reflexivity.
Qed.

(** X15.  An [insert] that goes through calls [focus()] on the input and
    then updates.  With the listeners of the constructor, the call of
    [focus()] runs [handleFocus] before the update when the input is in
    the document and is not the active element, so that the editor ends
    up focused, and only makes the call otherwise.  Without a renderer
    the insert then scrolls to the caret at once and submits nothing.
    With the renderer ready it submits the document as it is after the
    insertion, and scrolls to the caret only when that round-trip
    resolves, after the geometry map has been rebuilt and the cursor
    updated. *)
Theorem insert_schedules_scroll (st : Editor) (o : RawOptions) (e : Node)
  (f1 f2 : Forest) (moveTo : option NodeId) (rt : string)
  (ra : list (string * string)) (rks : list Node) :
  readonly (options st) && negb (isEditable (store st) (position st))
    = false ->
  newNode e f1 f2 st ->
  lookupF (value st) (f1 ++ f2) = Some (Element (value st) rt ra rks) ->
  placeable (position st) (f1 ++ f2) ->
  ticketsIssued st ->
  listeners st = listeners (constructor o) ->
  exists st' doc',
    insert (nodeId e) moveTo st = Ret tt st'
    /\ document st' = Some doc'
    /\ focused st' = attached st && negb (inputActive st) || focused st
    /\ inputActive st' = attached st || inputActive st
    /\ if elementJax st
       then
         pending st'
           = pending st
             ++ [mkJob (nextTicket st)
                   (toDisplay (shape doc') (placeholder (options st)))
                   [ScrollToCaretK]]
         /\ log st'
            = JaxSetValueUpdate (nextTicket st)
                (toDisplay (shape doc') (placeholder (options st)))
              :: TreeUpdate :: TreeSetValue (value st)
              :: Emit (EvUpdate (outerHTML doc'))
              :: ElValue (outerHTML doc') :: WrapperFix
              :: focusLog st ++ log st
         /\ log (final (resolved (nextTicket st) st'))
            = ScrollTo :: CursorUpdate :: RenderedUpdate :: WrapperRelease
              :: log st'
       else
         pending st' = pending st
         /\ log st' = ScrollTo :: focusLog st ++ log st.
Proof.
  intros Hguard Hnew Hroot Hpos Htickets Hl.
  destruct (insertPlace_returns st e f1 f2 rt ra rks Hnew Hroot Hpos)
    as (f' & doc1 & Hplace & Hdoc1).
  set (m := match moveTo with Some m => m | None => nodeId e end).
  rewrite insert_halves, Hguard. unfold bind at 1. rewrite Hplace.
  fold m. unfold insertFinish. mrun.
  rewrite (focus_runs _ o) by (destruct st; exact Hl).
  set (s2 := set_log _ _).
  assert (Hdoc2 : document s2 = Some doc1).
  { unfold s2, document. destruct st as [? ? ? ? ac ? ? ? ? ? at_].
    simpl. destruct (at_ && negb ac); exact Hdoc1. }
  assert (Hjax2 : elementJax s2 = elementJax st).
  { unfold s2. destruct st as [? ? ? ? ac ? ? ? ? ? at_].
    simpl. destruct (at_ && negb ac); reflexivity. }
  assert (Hfields : pending s2 = pending st /\ nextTicket s2 = nextTicket st
                    /\ options s2 = options st /\ value s2 = value st
                    /\ log s2 = focusLog st ++ log st
                    /\ focused s2
                       = attached st && negb (inputActive st) || focused st
                    /\ inputActive s2 = attached st || inputActive st).
  { unfold s2, focusLog. destruct st as [? ? ? fo ac ? ? ? ? ? at_].
    simpl. destruct at_, ac, fo; repeat split. }
  destruct Hfields as (Hp2 & Hn2 & Ho2 & Hv2 & Hlog2 & Hfo2 & Hac2).
  clearbody s2.
  destruct (elementJax st) eqn:Hjax.
  - rewrite (update_with_renderer s2 doc1 Hjax2 Hdoc2).
    assert (Hthen :
      then_ (Pending (nextTicket s2)) ScrollToCaretK (afterUpdate s2 doc1)
      = Ret tt
          (set_pending
             (pending s2
              ++ [mkJob (nextTicket s2)
                    (toDisplay (shape doc1) (placeholder (options s2)))
                    [ScrollToCaretK]])
             (afterUpdate s2 doc1))).
    { apply then_pending_fresh; [reflexivity|].
      rewrite Hp2, Hn2. exact Htickets. }
    rewrite Hthen.
    eexists; exists doc1. split; [reflexivity|].
    split.
    { unfold document. cbn [store value set_pending afterUpdate].
      apply lookupF_app_found. exact Hdoc2. }
    split; [exact Hfo2|]. split; [exact Hac2|].
    split; [cbn [pending set_pending]; rewrite Hp2, Hn2, Ho2; reflexivity|].
    split.
    { cbn [log set_pending afterUpdate].
      rewrite Hn2, Ho2, Hv2, Hlog2. reflexivity. }
    rewrite (resolved_applies _ _
               (mkJob (nextTicket s2)
                  (toDisplay (shape doc1) (placeholder (options s2)))
                  [ScrollToCaretK])).
    + reflexivity.
    + cbn [pending set_pending].
      rewrite find_fresh_ticket by (rewrite Hp2; exact Htickets).
      cbn [find ticket]. rewrite Hn2, Nat.eqb_refl. reflexivity.
  - rewrite (update_settled s2 Hjax2).
    exists (set_log (ScrollTo :: log s2) s2), doc1.
    split; [reflexivity|].
    split; [destruct s2; exact Hdoc2|].
    split; [destruct s2; exact Hfo2|]. split; [destruct s2; exact Hac2|].
    split; [destruct s2; exact Hp2|].
    destruct s2; simpl in *. rewrite Hlog2. reflexivity.
Qed.

(** X16.  With the cursor at no position, the new node is what
    [toString()] shows first among the children of the document right
    after the [insert]: in an empty document, the document with exactly
    that node. *)
Theorem insert_then_toString (st : Editor) (e : Node) (f1 f2 : Forest)
  (moveTo : option NodeId) (rt : string) (ra : list (string * string))
  (rks : list Node) :
  readonly (options st) && negb (isEditable (store st) (position st))
    = false ->
  newNode e f1 f2 st ->
  lookupF (value st) (f1 ++ f2) = Some (Element (value st) rt ra rks) ->
  position st = None ->
  exists st' s2,
    insert (nodeId e) moveTo st = Ret tt st'
    /\ toString st'
       = Ret (SElement rt ra (outerHTML e :: map outerHTML rks)) s2.
Proof.
  intros Hguard Hnew Hroot Hpos.
  rewrite insert_halves, Hguard. unfold bind at 1.
  rewrite Hpos. unfold insertPlace. mrun. unfold prependElement.
  rewrite (insertInto_new _ st e f1 f2 (value st) rt ra rks Hnew Hroot).
  set (s1 := set_store _ st).
  assert (Hdoc1 : document s1 = Some (Element (value st) rt ra (e :: rks))).
  { unfold document, s1. rewrite set_store_store.
    replace (value (set_store _ st)) with (value st)
      by (destruct st; reflexivity).
    rewrite lookupF_modifyF_same, Hroot; [reflexivity|].
    intros [? ? ? ?|? ?]; reflexivity. }
  destruct (insertFinish_returns s1 _
              (match moveTo with Some m => m | None => nodeId e end) Hdoc1)
    as (st' & extra & Hrun & _ & Hv & Hs).
  exists st'. eexists. split; [exact Hrun|].
  apply (toString_runs st' (Element (value st) rt ra (e :: rks))).
  unfold document. rewrite Hv, Hs. apply lookupF_app_found. exact Hdoc1.
Qed.

End InsertSetsOff.

Lemma insert_schedules_scroll_witness :
  exists st' doc',
    insert (imports := exampleImports) 2 None
      (set_elementJax true editorWithNode) = Ret tt st'
    /\ document st' = Some doc'
    /\ focused st' = true
    /\ inputActive st' = true
    /\ pending st'
       = [mkJob 0 (toDisplay (shape doc') "Start typing...")
            [ScrollToCaretK]]
    /\ log st'
       = JaxSetValueUpdate 0 (toDisplay (shape doc') "Start typing...")
         :: TreeUpdate :: TreeSetValue 1
         :: Emit (EvUpdate (outerHTML doc'))
         :: ElValue (outerHTML doc') :: WrapperFix
         :: CaretShown true :: ClassFocused true :: Emit EvFocus
         :: InputFocus :: log (set_elementJax true editorWithNode)
    /\ log (final (resolved 0 st'))
       = ScrollTo :: CursorUpdate :: RenderedUpdate :: WrapperRelease
         :: log st'.
Proof.
  apply (insert_schedules_scroll (imports := exampleImports)
           (set_elementJax true editorWithNode) noOptions newMi [wrapper]
           [] None "math" [] []).
  - reflexivity.
  - split; [reflexivity|].
    intros i Hi. simpl in Hi. simpl. lia.
  - reflexivity.
  - exact I.
  - constructor.
  - vm_compute. reflexivity.
Defined.

Lemma insert_then_toString_witness :
  exists st' s2,
    insert (imports := exampleImports) 2 None editorWithNode = Ret tt st'
    /\ toString st'
       = Ret (SElement "math" [] [outerHTML newMi]) s2.
Proof.
  apply (insert_then_toString (imports := exampleImports)
           editorWithNode newMi [wrapper] [] None "math" [] []).
  - reflexivity.
  - split; [reflexivity|].
    intros i Hi. simpl in Hi. simpl. lia.
  - reflexivity.
  - reflexivity.
Defined.

(* ===================================================================== *)
(** ** What the readonly option does not guard *)
(* ===================================================================== *)

Lemma oblivious_ret {A} (a : A) : oblivious (ret a).
Proof. intros b s. reflexivity. Qed.

Lemma oblivious_throw {A} (e : Error) : oblivious (throw (A := A) e).
Proof. intros b s. reflexivity. Qed.

Lemma oblivious_bind {A B} (c : M A) (k : A -> M B) :
  oblivious c -> (forall a, oblivious (k a)) -> oblivious (bind c k).
Proof.
  intros Hc Hk b s. unfold bind. rewrite Hc.
  destruct (c s) as [a s'|e s']; simpl; [apply Hk | reflexivity].
Qed.

Lemma oblivious_gets {A} (f : Editor -> A) :
  (forall b s, f (withReadonly b s) = f s) -> oblivious (gets f).
Proof. intros H b s. unfold gets. simpl. rewrite H. reflexivity. Qed.

Lemma oblivious_modify (g : Editor -> Editor) :
  (forall b s, g (withReadonly b s) = withReadonly b (g s)) ->
  oblivious (modify_ g).
Proof. intros H b s. unfold modify_. simpl. rewrite H. reflexivity. Qed.

Lemma oblivious_effect (e : Effect) : oblivious (effect e).
Proof. apply oblivious_modify. reflexivity. Qed.

Lemma oblivious_deref i : oblivious (deref i).
Proof.
  unfold deref. apply oblivious_bind; [apply oblivious_gets; reflexivity|].
  intro s.
  destruct (lookupF i s); [apply oblivious_ret | apply oblivious_throw].
Qed.

Ltac obl_leaf :=
  first
    [ apply oblivious_ret | apply oblivious_throw | apply oblivious_effect
    | apply oblivious_deref
    | apply oblivious_gets; reflexivity
    | apply oblivious_modify; reflexivity ].

Ltac obl :=
  repeat first
    [ match goal with
      | H : oblivious ?c |- oblivious ?c => exact H
      | H : forall x, oblivious (?c x) |- oblivious (?c _) => apply H
      | H : forall x y, oblivious (?c x y) |- oblivious (?c _ _) => apply H
      | |- oblivious (bind _ _) => apply oblivious_bind; [|intro]
      | |- oblivious (if ?c then _ else _) => destruct c
      | |- oblivious (match ?c with _ => _ end) => destruct c
      end
    | obl_leaf ].

Section Obl.
Context {imports : Imports}.

Lemma oblivious_update : oblivious update.
Proof.
  unfold update, getValue, getCleanCopy, jaxSetValueUpdate, emit. obl.
Qed.

Lemma oblivious_then p k : oblivious (then_ p k).
Proof. destruct p; [destruct k|]; unfold then_, run, scrollToCaret; obl. Qed.

Lemma oblivious_backspaceRemove : oblivious backspaceRemove.
Proof.
  pose proof oblivious_update. pose proof oblivious_then.
  unfold backspaceRemove, getPosition, setPosition. obl.
Qed.

Lemma oblivious_deleteRemove : oblivious deleteRemove.
Proof.
  pose proof oblivious_update. pose proof oblivious_then.
  unfold deleteRemove, getPosition, setPosition. obl.
Qed.

Lemma oblivious_setValue v : oblivious (setValue v).
Proof.
  pose proof oblivious_update.
  unfold setValue, getPosition, setPosition, lccIs, lcc. obl.
Qed.

(** X17.  The readonly option guards insertion only: [backspaceRemove],
    [deleteRemove], the backspace and delete keys and [setValue] never
    consult it.  On an editor that differs in that option alone they
    return or throw the same, and the states they end in differ in that
    option alone. *)
Theorem readonly_guards_no_removal (b : bool) (st : Editor) :
  backspaceRemove (withReadonly b st)
    = onState (withReadonly b) (backspaceRemove st)
  /\ deleteRemove (withReadonly b st)
     = onState (withReadonly b) (deleteRemove st)
  /\ handleKeydown 8 (withReadonly b st)
     = onState (withReadonly b) (handleKeydown 8 st)
  /\ handleKeydown 46 (withReadonly b st)
     = onState (withReadonly b) (handleKeydown 46 st)
  /\ forall v, setValue v (withReadonly b st)
              = onState (withReadonly b) (setValue v st).
Proof.
  split; [apply oblivious_backspaceRemove|].
  split; [apply oblivious_deleteRemove|].
  split; [apply oblivious_backspaceRemove|].
  split; [apply oblivious_deleteRemove|].
  intro v. apply oblivious_setValue.
Qed.

End Obl.

(* ===================================================================== *)
(** ** Typing order *)
(* ===================================================================== *)

Lemma modify_outside i g n : ~ In i (ids n) -> modify i g n = n.
Proof.
  intro H. pose proof (modifyF_outside i g [n]) as E.
  simpl in E. rewrite app_nil_r in E. specialize (E H).
  inversion E as [E']. rewrite E'. exact E'.
Qed.

Lemma modifyF_roots i g f :
  (forall m, nodeId (g m) = nodeId m) ->
  map nodeId (modifyF i g f) = map nodeId f.
Proof.
  intro Hg. unfold modifyF. rewrite map_map. apply map_ext.
  intros [j t a ks | j d]; simpl; destruct (j =? i); auto.
Qed.

Lemma afterIn_outside r e n : ~ In r (ids n) -> afterIn r e n = None.
Proof.
  intro H. pose proof (afterF_places r e [n]) as E.
  rewrite parentOf_outside in E by (simpl; rewrite app_nil_r; exact H).
  simpl in E. destruct (afterIn r e n); [discriminate|reflexivity].
Qed.

Lemma afterF_app_found r e f g f' :
  afterF r e f = Some f' -> afterF r e (f ++ g) = Some (f' ++ g).
Proof.
  revert f'. induction f as [|k f IH]; intros f' H; [discriminate|].
  simpl in *. destruct (afterIn r e k).
  - inversion H. reflexivity.
  - destruct (afterF r e f) as [l|]; [|discriminate].
    inversion H. rewrite (IH l eq_refl). reflexivity.
Qed.

Section TypingOrder.
Variables (v k : NodeId) (e1 e2 : Node).
Variables (rt : string) (ra : list (string * string)) (rks : list Node).
Hypothesis root_e1 : nodeId e1 = k.

Let doc := Element v rt ra rks.
Let first_ := fun n => setChildNodes (e1 :: childNodes n) n.

Lemma first_root m : nodeId (first_ m) = nodeId m.
Proof. destruct m; reflexivity. Qed.

(** In a tree where [k] is not in use: once [e1] has been put first in
    the document, [e1] is what [k] refers to, and placing [e2] after [k]
    makes the document start with [e1], [e2]. *)
Let typed (n : Node) : Prop :=
  ~ In k (ids n) ->
  lookup v n = Some doc ->
  lookup k (modify v first_ n) = Some e1
  /\ exists n',
       afterIn k e2 (modify v first_ n) = Some n'
       /\ lookup v n' = Some (Element v rt ra (e1 :: e2 :: rks)).

Let typedF (f : Forest) : Prop :=
  ~ In k (forestIds f) ->
  lookupF v f = Some doc ->
  lookupF k (modifyF v first_ f) = Some e1
  /\ exists f',
       afterF k e2 (modifyF v first_ f) = Some f'
       /\ lookupF v f' = Some (Element v rt ra (e1 :: e2 :: rks)).

Lemma typed_forest (f : Forest) : Forall typed f -> typedF f.
Proof.
  induction 1 as [|n f Hn _ IH]; intros Hk Hv; [discriminate|].
  unfold forestIds in Hk. simpl in Hk. rewrite in_app_iff in Hk.
  simpl in Hv. simpl modifyF. cbn [lookupF afterF].
  destruct (lookup v n) as [x|] eqn:En.
  - inversion Hv; subst x.
    destruct (Hn (fun H => Hk (or_introl H)) En) as (H1 & n' & H2 & H3).
    rewrite H1. split; [reflexivity|].
    rewrite H2. eexists. split; [reflexivity|].
    cbn [lookupF]. rewrite H3. reflexivity.
  - rewrite (modify_outside _ _ _ (lookup_missing _ _ En)).
    rewrite (lookup_outside k n) by tauto.
    rewrite (afterIn_outside k e2 n) by tauto.
    destruct (IH (fun H => Hk (or_intror H)) Hv) as (H1 & f' & H2 & H3).
    split; [exact H1|].
    fold (modifyF v first_ f). rewrite H2. eexists. split; [reflexivity|].
    cbn [lookupF]. rewrite En. exact H3.
Qed.

Lemma typed_node (n : Node) : typed n.
Proof.
  induction n as [j t a ks IH | j d] using Node_rect_all; intros Hk Hv.
  - rewrite lookup_element in Hv. rewrite modify_element.
    assert (Hjk : j <> k) by (intro E; apply Hk; left; exact E).
    destruct (Nat.eqb_spec j v) as [E|N].
    + inversion Hv; subst j t a ks. cbn [first_ setChildNodes childNodes].
      rewrite lookup_element.
      destruct (Nat.eqb_spec v k) as [E|_]; [contradiction|].
      cbn [lookupF]. rewrite <- root_e1 at 1. rewrite lookup_root.
      split; [reflexivity|].
      rewrite afterIn_element. unfold hasChild. cbn [childNodes existsb].
      rewrite root_e1, Nat.eqb_refl. cbn [orb afterSibling].
      rewrite root_e1, Nat.eqb_refl. cbn [option_map].
      eexists. split; [reflexivity|].
      rewrite lookup_element, Nat.eqb_refl. reflexivity.
    + assert (Hks : ~ In k (forestIds ks))
        by (intro H; apply Hk; right; exact H).
      destruct (typed_forest ks IH Hks Hv) as (H1 & f' & H2 & H3).
      rewrite lookup_element.
      destruct (Nat.eqb_spec j k) as [E|_]; [contradiction|].
      split; [exact H1|].
      rewrite afterIn_element.
      destruct (hasChild k (Element j t a (modifyF v first_ ks))) eqn:Eh.
      * exfalso. apply Hk.
        rewrite (hasChild_roots k j t a _ j t a ks) in Eh
          by apply modifyF_roots, first_root.
        apply hasChild_inside. exact Eh.
      * rewrite H2. eexists. split; [reflexivity|].
        rewrite lookup_element.
        destruct (Nat.eqb_spec j v); [contradiction|]. exact H3.
  - simpl in Hv. destruct (j =? v); discriminate.
Qed.

Lemma typed_store (f : Forest) : typedF f.
Proof.
  apply typed_forest. apply Forall_forall. intros n _. apply typed_node.
Qed.

End TypingOrder.

Section Typing.
Context {imports : Imports}.

Lemma insertFinish_options (s1 : Editor) (doc : Node) (m : NodeId) :
  document s1 = Some doc ->
  exists st' extra,
    insertFinish m s1 = Ret tt st'
    /\ position st' = Some m /\ value st' = value s1
    /\ store st' = store s1 ++ extra /\ options st' = options s1.
Proof.
  intro Hdoc. unfold insertFinish. mrun.
  destruct (focus_frame (set_position (Some m) s1)) as (fo & ac & lg & Hf).
  rewrite Hf.
  set (s2 := set_log lg _).
  assert (Hdoc2 : document s2 = Some doc) by (destruct s1; exact Hdoc).
  destruct (elementJax s2) eqn:Hjax.
  - rewrite (update_with_renderer s2 doc Hjax Hdoc2).
    eexists. exists [fst (build (fresh (store s2)) (shape doc))].
    split; [reflexivity|]. destruct s1; repeat split.
  - rewrite (update_settled s2 Hjax).
    eexists. exists []. split; [reflexivity|].
    destruct s1; simpl. rewrite app_nil_r. repeat split.
Qed.

Lemma createElement_runs (t : string) (a : list (string * string))
  (st : Editor) :
  createElement t a st
  = Ret (fresh (store st))
      (set_store (store st ++ [Element (fresh (store st)) t a []]) st).
Proof. reflexivity. Qed.

Lemma createElement_new (t : string) (a : list (string * string))
  (st : Editor) :
  newNode (Element (fresh (store st)) t a []) (store st) []
    (set_store (store st ++ [Element (fresh (store st)) t a []]) st).
Proof.
  split; [apply set_store_store|].
  intros i [<-|[]]. rewrite app_nil_r. apply fresh_outside.
Qed.

(** X18.  Elements are typed in order.  On an editor that is not
    readonly and has no cursor position, creating an element and
    inserting it, then a second one, leaves the two first in the
    document, the first before the second: the second [insert] finds the
    cursor at the first element and places its node right after it.  The
    first element is neither a row nor a document node. *)
Theorem inserts_follow_the_cursor (st : Editor)
  (t1 t2 : string) (a1 a2 : list (string * string))
  (rt : string) (ra : list (string * string)) (rks : list Node) :
  readonly (options st) = false ->
  position st = None ->
  document st = Some (Element (value st) rt ra rks) ->
  toLowerCase t1 <> "mrow" ->
  toLowerCase t1 <> "math" ->
  exists st',
    (k1 <- createElement t1 a1 ;;
     insert k1 None ;;
     k2 <- createElement t2 a2 ;;
     insert k2 None ;;
     toString) st
    = Ret (SElement rt ra
             (SElement t1 a1 [] :: SElement t2 a2 [] :: map outerHTML rks))
          st'.
Proof.
  intros Hro Hpos Hdoc Hrow Hmath. unfold document in Hdoc.
  set (k1 := fresh (store st)).
  set (e1 := Element k1 t1 a1 []).
  pose (first_ := fun n => setChildNodes (e1 :: childNodes n) n).
  (* the first element is made and inserted *)
  unfold bind at 1. rewrite createElement_runs.
  fold k1. fold e1. set (sa := set_store (store st ++ [e1]) st).
  pose proof (createElement_new t1 a1 st) as Hnew1. fold k1 e1 sa in Hnew1.
  assert (Hroot1 : lookupF (value sa) (store st ++ [])
                   = Some (Element (value sa) rt ra rks))
    by (rewrite app_nil_r; destruct st; exact Hdoc).
  unfold bind at 1. rewrite insert_halves.
  replace (readonly (options sa)) with false
    by (destruct st; exact (eq_sym Hro)).
  cbn [andb]. unfold bind at 1.
  replace (position sa) with (@None NodeId)
    by (destruct st; exact (eq_sym Hpos)).
  unfold insertPlace. mrun. unfold prependElement.
  change k1 with (nodeId e1).
  rewrite (insertInto_new _ sa e1 (store st) [] (value sa) rt ra rks
             Hnew1 Hroot1).
  rewrite app_nil_r.
  set (s1 := set_store _ sa).
  assert (Hdoc1 : document s1
                  = Some (Element (value st) rt ra (e1 :: rks))).
  { unfold document, s1. rewrite set_store_store.
    replace (value (set_store _ sa)) with (value st)
      by (destruct st; reflexivity).
    replace (value sa) with (value st) by (destruct st; reflexivity).
    rewrite lookupF_modifyF_same, Hdoc; [reflexivity|].
    intros [? ? ? ?|? ?]; reflexivity. }
  destruct (insertFinish_options s1 _ (nodeId e1) Hdoc1)
    as (sb & extra & Hrun1 & Hposb & Hvb & Hsb & Hob).
  rewrite Hrun1. clear Hrun1.
  assert (Hvs1 : value s1 = value st) by (destruct st; reflexivity).
  assert (Hos1 : options s1 = options st) by (destruct st; reflexivity).
  assert (Hss1 : store s1 = modifyF (value st) first_ (store st)).
  { unfold s1. rewrite set_store_store.
    replace (value sa) with (value st) by (destruct st; reflexivity).
    reflexivity. }
  rewrite Hvs1 in Hvb. rewrite Hos1 in Hob. rewrite Hss1 in Hsb.
  clearbody s1. clear Hdoc1 Hvs1 Hos1 Hss1 s1 Hroot1 Hnew1. clearbody sa.
  clear sa.
  (* the second element is made and inserted after the first *)
  rewrite createElement_runs.
  set (k2 := fresh (store sb)).
  set (e2 := Element k2 t2 a2 []).
  set (sc := set_store (store sb ++ [e2]) sb).
  pose proof (createElement_new t2 a2 sb) as Hnew2. fold k2 e2 sc in Hnew2.
  destruct (typed_store (value st) k1 e1 e2 rt ra rks eq_refl
              (store st) (fresh_outside _) Hdoc)
    as (Hk1 & f0 & Hafter & Hdoc2).
  fold first_ in Hk1, Hafter.
  assert (Hk1b : lookupF k1 (store sb ++ []) = Some e1)
    by (rewrite app_nil_r, Hsb; apply lookupF_app_found; exact Hk1).
  assert (Hafterb : afterF k1 e2 (store sb ++ []) = Some (f0 ++ extra))
    by (rewrite app_nil_r, Hsb; apply afterF_app_found; exact Hafter).
  assert (Hparent : exists q, parentOf k1 (store sb ++ []) = Some q).
  { pose proof (afterF_places k1 e2 (store sb ++ [])) as H.
    destruct (parentOf k1 (store sb ++ [])) as [q|]; [eauto|].
    rewrite Hafterb in H. discriminate. }
  destruct Hparent as [q Hq].
  destruct (appendElementAfter_new sc e2 (store sb) [] k1 e1 q
              Hnew2 Hk1b Hq) as (f' & Hf' & Hrun2).
  rewrite Hafterb in Hf'. inversion Hf'; subst f'. clear Hf'.
  rewrite insert_halves.
  replace (readonly (options sc)) with false
    by (unfold sc; destruct sb; simpl in *; rewrite Hob; auto).
  cbn [andb]. unfold bind at 1.
  replace (position sc) with (Some k1)
    by (unfold sc; destruct sb; simpl in *; auto).
  unfold insertPlace. mrun.
  replace (lookupF k1 (store sc)) with (Some e1).
  2:{ unfold sc. rewrite set_store_store. symmetry.
      apply lookupF_app_found. rewrite app_nil_r in Hk1b. exact Hk1b. }
  cbn [tagName e1]. cbv beta iota.
  destruct (String.eqb_spec (toLowerCase t1) "mrow"); [contradiction|].
  destruct (String.eqb_spec (toLowerCase t1) "math"); [contradiction|].
  change k2 with (nodeId e2). rewrite Hrun2.
  set (s2 := set_store (f0 ++ extra) sc).
  assert (Hdocs2 : document s2
                   = Some (Element (value st) rt ra (e1 :: e2 :: rks))).
  { unfold document, s2. rewrite set_store_store.
    replace (value (set_store _ sc)) with (value st)
      by (unfold sc; destruct sb; simpl in *; auto).
    apply lookupF_app_found. exact Hdoc2. }
  destruct (insertFinish_returns s2 _ (nodeId e2) Hdocs2)
    as (sd & extra2 & Hrun3 & _ & Hvd & Hsd).
  rewrite Hrun3.
  eexists.
  apply (toString_runs sd (Element (value st) rt ra (e1 :: e2 :: rks))).
  unfold document. rewrite Hvd, Hsd. apply lookupF_app_found.
  exact Hdocs2.
Qed.
End Typing.

Lemma inserts_follow_the_cursor_witness :
  exists st',
    (k1 <- createElement "mi" [] ;;
     insert (imports := exampleImports) k1 None ;;
     k2 <- createElement "mn" [] ;;
     insert (imports := exampleImports) k2 None ;;
     toString) freshEditor
    = Ret (SElement "math" []
             (SElement "mi" [] [] :: SElement "mn" [] []
                :: map outerHTML []))
          st'.
Proof.
  apply (inserts_follow_the_cursor (imports := exampleImports) freshEditor
           "mi" "mn" [] [] "math" [] []).
  - reflexivity.
  - reflexivity.
  - reflexivity.
  - discriminate.
  - discriminate.
Defined.
